(** * SHCBR: hypergraph construction, normalisation, partitioning and scoring

    A shallow embedding of [model.py].  Scalars are exact rationals ([Qc]),
    so every definition below evaluates; the square root of numpy is a
    parameter of the normaliser.  The co-occurrence products of
    [mix_Hypergraph] are compared with the threshold, so their sums are
    taken in the arithmetic of the dtype of the relation, a parameter
    [madd] of the model.  Python exceptions are values of [exn] carried by
    the [result] monad. *)

From Stdlib Require Import QArith Qcanon Qround Lia.
From stdpp Require Import base numbers list strings.

(** ** Exceptions *)

Inductive exn : Type :=
  | ValueError
  | IndexError
  | ZeroDivisionError
  | RuntimeError.

Inductive result (A : Type) : Type :=
  | Ok (a : A)
  | Raise (e : exn).
Arguments Ok {A} a.
Arguments Raise {A} e.

Global Instance result_ret : MRet result := fun A a => Ok a.
Global Instance result_bind : MBind result := fun A B f m =>
  match m with
  | Ok a => f a
  | Raise e => Raise e
  end.

(** [[f(x) for x in xs]]: the calls run in order, the first exception wins. *)
Fixpoint comprehension {A B : Type} (f : A -> result B) (xs : list A)
  : result (list B) :=
  match xs with
  | [] => Ok []
  | x :: xs' => y ← f x; ys ← comprehension f xs'; Ok (y :: ys)
  end.

(** A keyword argument with a default: [None] is "not passed". *)
Definition kwarg {A : Type} (default : A) (given : option A) : A :=
  match given with Some a => a | None => default end.

Definition is_ok {A : Type} (r : result A) : bool :=
  match r with Ok _ => true | Raise _ => false end.

(** ** Scalars and finite sums *)

Definition qsum (xs : list Qc) : Qc := foldr Qcplus 0%Qc xs.

(** Sum of [f k] for [k] in [range(n)]. *)
Definition qsum_range (n : nat) (f : nat -> Qc) : Qc := qsum (map f (seq 0 n)).

(** [l[lo:hi]] for in-bounds or clamped non-negative bounds. *)
Definition slice {A : Type} (lo hi : nat) (l : list A) : list A :=
  take (hi - lo) (drop lo l).

(** ** scipy.sparse matrices in CSR form *)

Record csr_matrix : Type := CSR {
  shape : nat * nat;
  indptr : list nat;
  indices : list nat;
  data : list Qc
}.

Definition nrows (M : csr_matrix) : nat := fst (shape M).
Definition ncols (M : csr_matrix) : nat := snd (shape M).

(** A stored row: the (column, value) pairs between two row pointers. *)
Abbreviation sparse_row := (list (nat * Qc)).

Definition csr_row (M : csr_matrix) (i : nat) : sparse_row :=
  let lo := nth i (indptr M) 0 in
  let hi := nth (S i) (indptr M) 0 in
  zip (slice lo hi (indices M)) (slice lo hi (data M)).

Definition csr_rows (M : csr_matrix) : list sparse_row :=
  map (csr_row M) (seq 0 (nrows M)).

(** Row pointers of a list of rows, starting at offset [start]. *)
Fixpoint row_ptr (start : nat) (rs : list sparse_row) : list nat :=
  match rs with
  | [] => [start]
  | r :: rs' => start :: row_ptr (start + length r) rs'
  end.

Definition of_rows (sh : nat * nat) (rs : list sparse_row) : csr_matrix :=
  CSR sh (row_ptr 0 rs) (concat (map (map fst) rs)) (concat (map (map snd) rs)).

(** Value read at a column of a stored row; duplicates add up, as in scipy. *)
Fixpoint row_get (r : sparse_row) (j : nat) : Qc :=
  match r with
  | [] => 0%Qc
  | (c, v) :: r' => if Nat.eqb c j then (v + row_get r' j)%Qc else row_get r' j
  end.

(** [M[i, j]] *)
Definition get (M : csr_matrix) (i j : nat) : Qc := row_get (csr_row M i) j.

(** [M.toarray()] *)
Definition todense (M : csr_matrix) : list (list Qc) :=
  map (fun r => map (row_get r) (seq 0 (ncols M))) (csr_rows M).

(** The stored entries of a dense row: the non-zero ones, by column. *)
Fixpoint row_of_dense (c : nat) (xs : list Qc) : sparse_row :=
  match xs with
  | [] => []
  | x :: xs' =>
      if decide (x = 0%Qc) then row_of_dense (S c) xs'
      else (c, x) :: row_of_dense (S c) xs'
  end.

(** Format invariants of a CSR matrix, as scipy's [check_format] has them. *)
Fixpoint sorted_ptr (p : list nat) : bool :=
  match p with
  | a :: ((b :: _) as p') => Nat.leb a b && sorted_ptr p'
  | _ => true
  end.

Definition csr_wf (M : csr_matrix) : bool :=
  Nat.eqb (length (indptr M)) (S (nrows M))
  && Nat.eqb (nth 0 (indptr M) 0) 0
  && sorted_ptr (indptr M)
  && Nat.eqb (nth (nrows M) (indptr M) 0) (length (data M))
  && Nat.eqb (length (indices M)) (length (data M))
  && forallb (fun c => Nat.ltb c (ncols M)) (indices M).

(** The same invariants as propositions. *)
Record wf_facts (M : csr_matrix) : Prop := {
  wf_len : length (indptr M) = S (nrows M);
  wf_zero : nth 0 (indptr M) 0 = 0;
  wf_sorted : sorted_ptr (indptr M) = true;
  wf_last : nth (nrows M) (indptr M) 0 = length (data M);
  wf_idx : length (indices M) = length (data M);
  wf_cols : Forall (fun c => c < ncols M) (indices M)
}.

(** Every stored column index lies inside the shape. *)
Definition row_in_range (c : nat) (r : sparse_row) : Prop :=
  Forall (fun cv : nat * Qc => fst cv < c) r.

Definition cols_in_range (M : csr_matrix) : Prop :=
  Forall (row_in_range (ncols M)) (csr_rows M).

(** ** The scipy operations the source calls

    The relations given to the model are CSR matrices; the results that
    scipy returns in another format (COO from stacking, CSC from a
    transposition, DIA from [diags]) are read as CSR.  Every result is
    rebuilt from its rows, so it satisfies the format invariants whatever
    the operands are.  A product stores exactly its non-zero sums, as
    scipy's [csr_matmat] does, here by increasing column (scipy may list
    the columns of a row in another order).  Stacking keeps the stored
    entries of its operands, explicit zeros included. *)

(** [M.T] *)
Definition transpose_row (rs : list sparse_row) (k : nat) : sparse_row :=
  flat_map (fun ir : nat * sparse_row =>
              flat_map (fun cv : nat * Qc =>
                          if Nat.eqb (fst cv) k then [(fst ir, snd cv)] else [])
                       (snd ir))
           (zip (seq 0 (length rs)) rs).

Definition transpose (M : csr_matrix) : csr_matrix :=
  of_rows (ncols M, nrows M)
          (map (transpose_row (csr_rows M)) (seq 0 (ncols M))).

(** One row of [A @ B]: entry [j] is the sum of [a * B[k, j]] over the
    stored [(k, a)] of the row of [A]. *)
Definition row_times (ra : sparse_row) (B : csr_matrix) (j : nat) : Qc :=
  qsum (map (fun ka : nat * Qc => (snd ka * get B (fst ka) j)%Qc) ra).

(** [A @ B] with exact sums: the products of the normaliser. *)
Definition matmul (A B : csr_matrix) : result csr_matrix :=
  if decide (ncols A = nrows B) then
    Ok (of_rows (nrows A, ncols B)
          (map (fun ra => row_of_dense 0
                            (map (row_times ra B) (seq 0 (ncols B))))
               (csr_rows A)))
  else Raise ValueError.

(** The same row as [csr_matmat] accumulates it in the dtype of the
    matrices: [madd s v b] is [s + v * b] computed in that dtype (exact,
    rounded for float64, wrapped for int64).  The sum of entry [j] starts
    at 0 and takes one step for every stored [(k, a)] of the row of [A] and
    every stored value of [B[k, j]], in storage order. *)
Definition row_times_dtype (madd : Qc -> Qc -> Qc -> Qc) (ra : sparse_row)
    (B : csr_matrix) (j : nat) : Qc :=
  foldl (fun (s : Qc) (ka : nat * Qc) =>
           foldl (fun (s' : Qc) (jb : nat * Qc) =>
                    if Nat.eqb (fst jb) j then madd s' (snd ka) (snd jb)
                    else s')
                 s (csr_row B (fst ka)))
        0%Qc ra.

(** [A @ B] in the arithmetic [madd]; sums that come out 0 are not stored. *)
Definition matmul_dtype (madd : Qc -> Qc -> Qc -> Qc) (A B : csr_matrix)
  : result csr_matrix :=
  if decide (ncols A = nrows B) then
    Ok (of_rows (nrows A, ncols B)
          (map (fun ra => row_of_dense 0
                            (map (row_times_dtype madd ra B)
                                 (seq 0 (ncols B))))
               (csr_rows A)))
  else Raise ValueError.

(** Exact arithmetic as an instance of [madd]. *)
Definition exact_madd (s v b : Qc) : Qc := (s + v * b)%Qc.

(** The factors that the sum of entry [j] runs over, in the order of the
    accumulation. *)
Definition factors (ra : sparse_row) (B : csr_matrix) (j : nat)
  : list (Qc * Qc) :=
  flat_map (fun ka : nat * Qc =>
              flat_map (fun jb : nat * Qc =>
                          if Nat.eqb (fst jb) j then [(snd ka, snd jb)]
                          else [])
                       (csr_row B (fst ka)))
           ra.

(** [sp.vstack((A, B))]: for two CSR operands scipy stacks the arrays
    directly and checks every column count against the first; where the
    source stacks other formats the column counts agree by construction. *)
Definition vstack (A B : csr_matrix) : result csr_matrix :=
  if decide (ncols A = ncols B) then
    Ok (of_rows (nrows A + nrows B, ncols A) (csr_rows A ++ csr_rows B))
  else Raise ValueError.

Definition shift_row (k : nat) (r : sparse_row) : sparse_row :=
  map (fun cv : nat * Qc => (k + fst cv, snd cv)) r.

(** [sp.hstack((A, B))] through scipy's general block routine, which the
    source reaches because its operands are not all of one compressed
    format: the height of the block row is that of the first block that has
    rows, and a block of another height raises.  A first block without rows
    is passed over: only its width is kept. *)
Definition hstack (A B : csr_matrix) : result csr_matrix :=
  if decide (nrows A = 0) then
    Ok (of_rows (nrows B, ncols A + ncols B)
          (map (shift_row (ncols A)) (csr_rows B)))
  else if decide (nrows A = nrows B) then
    Ok (of_rows (nrows A, ncols A + ncols B)
          (zip_with (fun ra rb => ra ++ shift_row (ncols A) rb)
                    (csr_rows A) (csr_rows B)))
  else Raise ValueError.

(** [sp.diags(v)]: every diagonal entry is stored. *)
Definition diags (v : list Qc) : csr_matrix :=
  of_rows (length v, length v)
          (zip_with (fun i x => [(i, x)]) (seq 0 (length v)) v).

(** [M.sum(axis=1).A.ravel()] *)
Definition sum_axis1 (M : csr_matrix) : list Qc :=
  map (fun r => qsum (map snd r)) (csr_rows M).

(** [M.sum(axis=0).A.ravel()] *)
Definition sum_axis0 (M : csr_matrix) : list Qc :=
  map (fun j => qsum (map (fun r => row_get r j) (csr_rows M)))
      (seq 0 (ncols M)).

(** [M[lo:hi]]: a row slice, the bounds clamped as Python clamps them. *)
Definition row_slice (M : csr_matrix) (lo hi : nat) : csr_matrix :=
  let lo' := Nat.min lo (nrows M) in
  let hi' := Nat.min hi (nrows M) in
  of_rows (hi' - lo', ncols M) (slice lo' hi' (csr_rows M)).

(** ** normalize_HyperGraph *)

Definition eps : Qc := Q2Qc (1 # 100000000).

Section Normalize.

(** [np.sqrt] on the scalars of the model. *)
Variable np_sqrt : Qc -> Qc.

(** [1 / (np.sqrt(d) + 1e-8)], elementwise *)
Definition inv_sqrt_deg (d : list Qc) : list Qc :=
  map (fun x => (1 / (np_sqrt x + eps))%Qc) d.

Definition normalize_HyperGraph (H : csr_matrix) : result csr_matrix :=
  let D_v := diags (inv_sqrt_deg (sum_axis1 H)) in
  let D_e := diags (inv_sqrt_deg (sum_axis0 H)) in
  m1 ← matmul D_v H;
  m2 ← matmul m1 D_e;
  m3 ← matmul m2 (transpose H);
  H_nomalized ← matmul m3 D_v;
  Ok H_nomalized.

End Normalize.

(** A square root on the rationals, eight decimals rounded down: an
    instance of [np_sqrt] to run the model with. *)
Definition sqrt_approx (x : Qc) : Qc :=
  Q2Qc (Z.sqrt (Qfloor (x * Q2Qc (inject_Z 10000000000000000))%Qc)
        # 100000000).

(** ** Split_HyperGraph *)

Definition device : Type := string.

(** A [torch_sparse.SparseTensor]: the matrix and where it lives. *)
Record SparseTensor : Type := mkSparseTensor {
  st_mat : csr_matrix;
  st_device : device
}.

Definition from_scipy_to (dev : device) (M : csr_matrix) : SparseTensor :=
  mkSparseTensor M dev.

Definition Split_HyperGraph (H : csr_matrix) (dev : device)
    (split_num : option nat) : result (list SparseTensor) :=
  let split_num := kwarg 16 split_num in
  if decide (split_num = 0) then Raise ZeroDivisionError
  else
    let length := nrows H / split_num in
    let H_list :=
      map (fun i =>
             if decide (i = split_num - 1)
             then row_slice H (length * i) (nrows H)
             else row_slice H (length * i) (length * (i + 1)))
          (seq 0 split_num) in
    Ok (map (from_scipy_to dev) H_list).

(** The row range [[block_lo, block_hi)] that block [i] of [P] is to cover
    in an operator of [N] rows: [N // P] rows each, the last block up to
    [N]. *)
Definition block_lo (N P i : nat) : nat := i * (N / P).

Definition block_hi (N P i : nat) : nat :=
  if decide (i = P - 1) then N else (i + 1) * (N / P).

(** The blocks put back on top of each other, in order. *)
Definition vstack_all (c : nat) (blocks : list csr_matrix) : csr_matrix :=
  of_rows (foldr (fun G n => nrows G + n) 0 blocks, c)
          (concat (map csr_rows blocks)).

(** ** mix_Hypergraph *)

(** [data[r] = 1 if data[r] > threshold else 0] *)
Definition binarize (threshold x : Qc) : Qc :=
  if decide (threshold < x)%Qc then 1%Qc else 0%Qc.

(** The inner loop: [for r in range(lo, hi)], writing [data[r]] in place. *)
Definition threshold_range (threshold : Qc) (lo hi : nat) (d : list Qc)
  : result (list Qc) :=
  foldl (fun (acc : result (list Qc)) (r : nat) =>
           d' ← acc;
           match d' !! r with
           | Some x => Ok (<[r := binarize threshold x]> d')
           | None => Raise IndexError
           end)
        (Ok d) (seq lo (hi - lo)).

(** The outer loop: [for i in range(n)], reading [indptr[i]] and
    [indptr[i + 1]]. *)
Definition threshold_rows (threshold : Qc) (n : nat) (ptr : list nat)
    (d : list Qc) : result (list Qc) :=
  foldl (fun (acc : result (list Qc)) (i : nat) =>
           d' ← acc;
           match ptr !! i, ptr !! (i + 1) with
           | Some lo, Some hi => threshold_range threshold lo hi d'
           | _, _ => Raise IndexError
           end)
        (Ok d) (seq 0 n).

(** The array [data] once its positions [lo .. hi - 1] have been rewritten:
    the invariant of the two loops. *)
Definition bin_range (t : Qc) (lo hi : nat) (d : list Qc) : list Qc :=
  imap (fun r x => if decide (lo <= r < hi) then binarize t x else x) d.

(** The similarity loop over a product [G], with [n] taken from
    [ub_graph.shape]. *)
Definition similarity (threshold : Qc) (n : nat) (G : csr_matrix)
  : result csr_matrix :=
  d ← threshold_rows threshold n (indptr G) (data G);
  Ok (CSR (shape G) (indptr G) (indices G) d).

Definition raw_graph : Type := csr_matrix * csr_matrix * csr_matrix.

(** [madd] is the arithmetic of the dtype of [ub_graph]. *)
Definition mix_Hypergraph (madd : Qc -> Qc -> Qc -> Qc) (raw : raw_graph)
    (threshold : option Qc) : result csr_matrix :=
  let threshold := kwarg (Q2Qc 10) threshold in
  let '(ui_graph, bi_graph, ub_graph) := raw in
  uu_graph ← matmul_dtype madd ub_graph (transpose ub_graph);
  uu_graph ← similarity threshold (nrows ub_graph) uu_graph;
  bb_graph ← matmul_dtype madd (transpose ub_graph) ub_graph;
  bb_graph ← similarity threshold (ncols ub_graph) bb_graph;
  H_i ← vstack ui_graph bi_graph;
  col1 ← vstack uu_graph (transpose ub_graph);
  col2 ← vstack ub_graph bb_graph;
  H_ub ← hstack col1 col2;
  hstack H_i H_ub.

(** ** Dense torch tensors *)

Record tensor : Type := mkTensor {
  tshape : nat * nat;
  trows : list (list Qc)
}.

Record tensor3 : Type := mkTensor3 {
  tshape3 : nat * nat * nat;
  slabs : list (list (list Qc))
}.

(** A 2-D [LongTensor] of indices. *)
Record index_tensor : Type := mkIndex {
  ishape : nat * nat;
  irows : list (list Z)
}.

Definition tget (t : tensor) (i j : nat) : Qc :=
  nth j (nth i (trows t) []) 0%Qc.

Definition tensor_wf (t : tensor) : Prop :=
  length (trows t) = fst (tshape t)
  /\ Forall (fun r => length r = snd (tshape t)) (trows t).

(** What [(x ** 2).sum()] ranges over, whatever the rank of [x].  The sum
    is exact: the underflow and rounding of float32 are not modelled. *)
Class Entries (T : Type) : Type := entries : T -> list Qc.
Global Instance tensor_entries : Entries tensor := fun t => concat (trows t).
Global Instance tensor3_entries : Entries tensor3 :=
  fun t => concat (concat (slabs t)).

Definition sum_squares {T : Type} `{Entries T} (x : T) : Qc :=
  qsum (map (fun v => (v * v)%Qc) (entries x)).

(** [torch.cat(ts, dim=0)] *)
Definition torch_cat (ts : list tensor) : result tensor :=
  match ts with
  | [] => Raise RuntimeError
  | t :: _ =>
      if forallb (fun t' => Nat.eqb (snd (tshape t')) (snd (tshape t))) ts
      then Ok (mkTensor (foldr (fun t' n => fst (tshape t') + n) 0 ts,
                         snd (tshape t))
                        (concat (map trows ts)))
      else Raise RuntimeError
  end.

(** [G @ X] for a sparse [G] and a dense [X] *)
Definition spmm_row (r : sparse_row) (X : tensor) (j : nat) : Qc :=
  qsum (map (fun cv : nat * Qc => (snd cv * tget X (fst cv) j)%Qc) r).

Definition spmm (G : SparseTensor) (X : tensor) : result tensor :=
  if decide (ncols (st_mat G) = fst (tshape X)) then
    Ok (mkTensor (nrows (st_mat G), snd (tshape X))
          (map (fun r => map (spmm_row r X) (seq 0 (snd (tshape X))))
               (csr_rows (st_mat G))))
  else Raise RuntimeError.

(** [t / c] *)
Definition tensor_div (t : tensor) (c : Qc) : tensor :=
  mkTensor (tshape t) (map (map (fun x => (x / c)%Qc)) (trows t)).

(** Broadcasting of one dimension: equal sizes, or one of them 1. *)
Definition broadcast_dim (a b : nat) : result nat :=
  if decide (a = b) then Ok a
  else if decide (a = 1) then Ok b
  else if decide (b = 1) then Ok a
  else Raise RuntimeError.

Definition broadcast_list {A : Type} (n : nat) (d : A) (l : list A) : list A :=
  if decide (length l = n) then l else replicate n (nth 0 l d).

Definition expand2 (sh : nat * nat) (rs : list (list Qc)) : list (list Qc) :=
  broadcast_list (fst sh) [] (map (broadcast_list (snd sh) 0%Qc) rs).

(** [a + b] *)
Definition tensor_add (a b : tensor) : result tensor :=
  r ← broadcast_dim (fst (tshape a)) (fst (tshape b));
  c ← broadcast_dim (snd (tshape a)) (snd (tshape b));
  Ok (mkTensor (r, c)
        (zip_with (zip_with Qcplus) (expand2 (r, c) (trows a))
                                    (expand2 (r, c) (trows b)))).

(** [torch.split(t, [a, b], dim=0)] *)
Definition torch_split (t : tensor) (a b : nat) : result (tensor * tensor) :=
  if decide (a + b = fst (tshape t)) then
    Ok (mkTensor (a, snd (tshape t)) (take a (trows t)),
        mkTensor (b, snd (tshape t)) (drop a (trows t)))
  else Raise RuntimeError.

(** [nn.Dropout(p)(x)]: in training mode the kept entries are rescaled by
    [1 / (1 - p)] and the others zeroed; [keep] is the sampled mask.  In
    evaluation mode the input is returned. *)
Definition dropout (p : Qc) (training : bool) (keep : nat -> nat -> bool)
    (x : tensor) : tensor :=
  if training then
    mkTensor (tshape x)
      (imap (fun i r =>
               imap (fun j v => if keep i j then (v / (1 - p))%Qc else 0%Qc) r)
            (trows x))
  else x.

(** A Python index into a dimension of size [n]: negative indices wrap. *)
Definition py_index (n : nat) (i : Z) : result nat :=
  if decide (0 <= i < Z.of_nat n)%Z then Ok (Z.to_nat i)
  else if decide (- Z.of_nat n <= i < 0)%Z then Ok (Z.to_nat (i + Z.of_nat n))
  else Raise IndexError.

Definition select_row (t : tensor) (i : Z) : result (list Qc) :=
  k ← py_index (fst (tshape t)) i;
  Ok (nth k (trows t) []).

(** [t[idx]] for a 1-D index *)
Definition index_select (t : tensor) (idx : list Z) : result tensor :=
  rs ← comprehension (select_row t) idx;
  Ok (mkTensor (length idx, snd (tshape t)) rs).

(** [t[idx]] for a 2-D index *)
Definition index_select2 (t : tensor) (idx : index_tensor) : result tensor3 :=
  ss ← comprehension (comprehension (select_row t)) (irows idx);
  Ok (mkTensor3 (fst (ishape idx), snd (ishape idx), snd (tshape t)) ss).

(** [t.expand(-1, k, -1)] *)
Definition expand_mid (t : tensor3) (k : nat) : result tensor3 :=
  let '(b, m, d) := tshape3 t in
  if decide (m = k) then Ok t
  else if decide (m = 1) then
    Ok (mkTensor3 (b, k, d) (map (fun s => replicate k (nth 0 s [])) (slabs t)))
  else Raise RuntimeError.

(** [t.T] *)
Definition ttranspose (t : tensor) : tensor :=
  mkTensor (snd (tshape t), fst (tshape t))
    (map (fun j => map (fun r => nth j r 0%Qc) (trows t))
         (seq 0 (snd (tshape t)))).

Definition dot_col (r : list Qc) (B : tensor) (j : nat) : Qc :=
  qsum (imap (fun k x => (x * tget B k j)%Qc) r).

(** [a @ b] for 2-D tensors *)
Definition tmatmul (a b : tensor) : result tensor :=
  if decide (snd (tshape a) = fst (tshape b)) then
    Ok (mkTensor (fst (tshape a), snd (tshape b))
          (map (fun r => map (dot_col r b) (seq 0 (snd (tshape b))))
               (trows a)))
  else Raise RuntimeError.

(** [a @ b] for a 3-D [a] and a 2-D [b] *)
Definition tmatmul3 (a : tensor3) (b : tensor) : result tensor3 :=
  let '(n, m, d) := tshape3 a in
  if decide (d = fst (tshape b)) then
    Ok (mkTensor3 (n, m, snd (tshape b))
          (map (map (fun r => map (dot_col r b) (seq 0 (snd (tshape b)))))
               (slabs a)))
  else Raise RuntimeError.

Definition expand3 (sh : nat * nat * nat) (ss : list (list (list Qc)))
  : list (list (list Qc)) :=
  let '(n, m, d) := sh in
  broadcast_list n [] (map (expand2 (m, d)) ss).

(** [torch.sum(a * b, 2)] *)
Definition mul_sum2 (a b : tensor3) : result tensor :=
  let '(n1, m1, d1) := tshape3 a in
  let '(n2, m2, d2) := tshape3 b in
  n ← broadcast_dim n1 n2;
  m ← broadcast_dim m1 m2;
  d ← broadcast_dim d1 d2;
  Ok (mkTensor (n, m)
        (zip_with (zip_with (fun x y => qsum (zip_with Qcmult x y)))
                  (expand3 (n, m, d) (slabs a))
                  (expand3 (n, m, d) (slabs b)))).

(** [torch.FloatTensor(n, d).normal_(0, std)]: the entries are drawn in
    row-major order from the standard normal stream [randn], from
    position [off]. *)
Definition normal_ (sh : nat * nat) (std : Qc) (randn : nat -> Qc)
    (off : nat) : tensor :=
  mkTensor sh
    (map (fun i =>
            map (fun j => (0 + std * randn (off + i * snd sh + j)%nat)%Qc)
                (seq 0 (snd sh)))
         (seq 0 (fst sh))).

(** [nn.Dropout(p)]: the probability is checked when the module is built. *)
Definition Dropout (p : Qc) : result Qc :=
  if decide (p < 0)%Qc then Raise ValueError
  else if decide (1 < p)%Qc then Raise ValueError
  else Ok p.

(** ** The class SCHBR *)

Module SCHBR.

Record t : Type := mk {
  num_users : nat;
  num_bundles : nat;
  num_items : nat;
  atom_graph : list SparseTensor;
  users_feature : tensor;
  bundles_feature : tensor;
  user_bound : tensor;
  drop : Qc;
  training : bool;
  embed_L2_norm : Qc
}.

Section Init.

(** The arithmetic of the dtype of the user-bundle relation. *)
Variable madd : Qc -> Qc -> Qc -> Qc.

Variable np_sqrt : Qc -> Qc.

(** The draws of the initial embeddings. *)
Variable randn : nat -> Qc.

(** [__init__] *)
Definition init (raw : raw_graph) (dev : device) (dp l2_norm : Qc)
    (emb_size : option nat) : result t :=
  let emb_size := kwarg 64 emb_size in
  let '(ui_graph, bi_graph, ub_graph) := raw in
  let num_users := nrows ub_graph in
  let num_bundles := ncols ub_graph in
  let num_items := ncols ui_graph in
  H ← mix_Hypergraph madd raw None;
  normalized ← normalize_HyperGraph np_sqrt H;
  atom_graph ← Split_HyperGraph normalized dev None;
  std ← (if decide (emb_size = 0) then Raise ZeroDivisionError
         else Ok (Q2Qc (1 # 2) / Q2Qc (inject_Z (Z.of_nat emb_size)))%Qc);
  let users_feature := normal_ (num_users, emb_size) std randn 0 in
  let bundles_feature :=
    normal_ (num_bundles, emb_size) std randn (num_users * emb_size) in
  let user_bound :=
    normal_ (emb_size, 1) std randn
            (num_users * emb_size + num_bundles * emb_size) in
  drop ← Dropout dp;
  Ok (mk num_users num_bundles num_items atom_graph
         users_feature bundles_feature user_bound drop true l2_norm).

End Init.

(** [keep] is the dropout mask sampled by this call. *)
Definition propagate (self : t) (keep : nat -> nat -> bool)
  : result (tensor * tensor) :=
  embed_0 ← torch_cat [users_feature self; bundles_feature self];
  parts ← comprehension (fun G => spmm G embed_0) (atom_graph self);
  embed_1 ← torch_cat parts;
  all_embeds ←
    tensor_add (tensor_div embed_0 2)
               (tensor_div (dropout (drop self) (training self) keep embed_1) 2);
  torch_split all_embeds (num_users self) (num_bundles self).

Definition predict (self : t) (users_feature bundles_feature : tensor3)
  : result tensor :=
  mul_sum2 users_feature bundles_feature.

Definition regularize {T1 T2 : Type} `{Entries T1} `{Entries T2}
    (self : t) (users_feature : T1) (bundles_feature : T2) : Qc :=
  (embed_L2_norm self
   * (sum_squares users_feature + sum_squares bundles_feature))%Qc.

Definition forward (self : t) (keep : nat -> nat -> bool)
    (users bundles : index_tensor) : result (tensor * tensor3 * Qc) :=
  '(users_feature, bundles_feature) ← propagate self keep;
  gathered ← index_select2 users_feature users;
  users_embedding ← expand_mid gathered (snd (ishape bundles));
  bundles_embedding ← index_select2 bundles_feature bundles;
  pred ← predict self users_embedding bundles_embedding;
  let loss := regularize self users_feature bundles_feature in
  gathered' ← index_select2 users_feature users;
  user_score_bound ← tmatmul3 gathered' (user_bound self);
  Ok (pred, user_score_bound, loss).

Definition evaluate (self : t) (propagate_result : tensor * tensor)
    (users : list Z) : result tensor :=
  let '(users_feature, bundles_feature) := propagate_result in
  users_feature ← index_select users_feature users;
  tmatmul users_feature (ttranspose bundles_feature).

End SCHBR.

(** ** Reference points for the statements *)


(** The dot product of two feature rows. *)
Definition dot (x y : list Qc) : Qc := qsum (zip_with Qcmult x y).

(** The loss that [regularize] gives on the gathered batch slices
    [users_embedding] and [bundles_embedding] of [forward]. *)
Definition gathered_loss (self : SCHBR.t) (keep : nat -> nat -> bool)
    (users bundles : index_tensor) : result Qc :=
  '(users_feature, bundles_feature) ← SCHBR.propagate self keep;
  gathered ← index_select2 users_feature users;
  users_embedding ← expand_mid gathered (snd (ishape bundles));
  bundles_embedding ← index_select2 bundles_feature bundles;
  Ok (SCHBR.regularize self users_embedding bundles_embedding).

(** ** Small inputs to run the model on *)

Definition qz (z : Z) : Qc := Q2Qc (inject_Z z).

(** A CSR matrix from its dense rows. *)
Definition csr_of_dense (r c : nat) (d : list (list Z)) : csr_matrix :=
  of_rows (r, c) (map (fun row => row_of_dense 0 (map qz row)) d).

(** Two users, two bundles, two items. *)
Definition ui_2x2 : csr_matrix := csr_of_dense 2 2 [[1; 0]; [0; 1]]%Z.
Definition bi_2x2 : csr_matrix := csr_of_dense 2 2 [[1; 1]; [0; 0]]%Z.
Definition ub_2x2 : csr_matrix := csr_of_dense 2 2 [[2; 0]; [0; 20]]%Z.

(** One user and two bundles, with a user-item relation of two rows and a
    bundle-item relation of one row. *)
Definition ui_2x1 : csr_matrix := csr_of_dense 2 1 [[1]; [1]]%Z.
Definition bi_1x1 : csr_matrix := csr_of_dense 1 1 [[1]]%Z.
Definition ub_1x2 : csr_matrix := csr_of_dense 1 2 [[1; 1]]%Z.

(** Item relations whose column counts differ. *)
Definition bi_2x3 : csr_matrix := csr_of_dense 2 3 [[1; 1; 0]; [0; 0; 1]]%Z.

(** A three-row operator and a dense operand for it. *)
Definition operator_3x3 : csr_matrix :=
  csr_of_dense 3 3 [[1; 0; 2]; [0; 3; 0]; [4; 0; 5]]%Z.
Definition operand_3x1 : tensor := mkTensor (3, 1) [[qz 1]; [qz 2]; [qz 3]].

(** Relations without any interaction: two users, one bundle, one item. *)
Definition ui_zero : csr_matrix := csr_of_dense 2 1 [[0]; [0]]%Z.
Definition bi_zero : csr_matrix := csr_of_dense 1 1 [[0]]%Z.
Definition ub_zero : csr_matrix := csr_of_dense 2 1 [[0]; [0]]%Z.

(** A stream of draws and a mask that keeps everything. *)
Definition draws (n : nat) : Qc := qz (2 * (Z.of_nat n + 1)).
Definition keep_all (i j : nat) : bool := true.

(** The value of a computation that is known to succeed. *)
Definition from_ok {A : Type} (default : A) (r : result A) : A :=
  match r with Ok a => a | Raise _ => default end.

Definition empty_tensor : tensor := mkTensor (0, 0) [].

Definition empty_model : SCHBR.t :=
  SCHBR.mk 0 0 0 [] empty_tensor empty_tensor empty_tensor 0%Qc true 0%Qc.

(** The model built on the relations without interaction, with embeddings
    of size 1, no dropout and [l2_norm = 1]: its tables are [[1], [2]] for
    the users and [[3]] for the bundle. *)
Definition model_zero : result SCHBR.t :=
  SCHBR.init exact_madd sqrt_approx draws (ui_zero, bi_zero, ub_zero)
             "cpu" 0%Qc 1%Qc (Some 1).

Definition built_zero : SCHBR.t := from_ok empty_model model_zero.


(** What [propagate] returns on it: the tables divided by 2. *)
Definition half_users : tensor := mkTensor (2, 1) [[Q2Qc (1 # 2)]; [Q2Qc 1]].
Definition half_bundles : tensor := mkTensor (1, 1) [[Q2Qc (3 # 2)]].

(** A batch of one user and one bundle. *)
Definition users_0 : index_tensor := mkIndex (1, 1) [[0%Z]].
Definition bundles_0 : index_tensor := mkIndex (1, 1) [[0%Z]].

(** ** Well-formed 3-D tensors and index tensors *)

Definition tensor3_wf (t : tensor3) : Prop :=
  let '(n, m, d) := tshape3 t in
  length (slabs t) = n
  /\ Forall (fun s => length s = m /\ Forall (fun r => length r = d) s)
            (slabs t).

(** [t[i, j]]: a row of a 3-D tensor. *)
Definition trow3 (t : tensor3) (i j : nat) : list Qc :=
  nth j (nth i (slabs t) []) [].

Definition index_wf (idx : index_tensor) : Prop :=
  length (irows idx) = fst (ishape idx)
  /\ Forall (fun r => length r = snd (ishape idx)) (irows idx).

(** [idx[i, j]] *)
Definition iget (idx : index_tensor) (i j : nat) : Z :=
  nth j (nth i (irows idx) []) 0%Z.

(** Column [j] of a 2-D tensor. *)
Definition tcol (t : tensor) (j : nat) : list Qc :=
  map (fun r => nth j r 0%Qc) (trows t).

(** Gathered features of one user and two bundles, two features each. *)
Definition users_1x2x2 : tensor3 :=
  mkTensor3 (1, 2, 2) [[[qz 1; qz 2]; [qz 1; qz 2]]].
Definition bundles_1x2x2 : tensor3 :=
  mkTensor3 (1, 2, 2) [[[qz 3; qz 4]; [qz 5; qz 6]]].

(** A user index tensor with two columns. *)
Definition users_wide : index_tensor := mkIndex (1, 2) [[0; 0]%Z].

(** Item relations without any row, and one user with one bundle. *)
Definition ui_0x1 : csr_matrix := csr_of_dense 0 1 [].
Definition bi_0x1 : csr_matrix := csr_of_dense 0 1 [].
Definition ub_1x1 : csr_matrix := csr_of_dense 1 1 [[1]]%Z.

(** ** Counts and the arithmetic of the dtypes *)

(** A value that is a non-negative integer. *)
Definition is_count (x : Qc) : Prop := exists z : Z, (0 <= z)%Z /\ x = qz z.

(** The dtype adds and multiplies non-negative integers exactly as long as
    the result is at most [M]; for int64 this is [M = 2^63 - 1]. *)
Definition exact_upto (madd : Qc -> Qc -> Qc -> Qc) (M : Z) : Prop :=
  forall s v b : Qc, is_count s -> is_count v -> is_count b ->
    (s + v * b <= qz M)%Qc -> madd s v b = (s + v * b)%Qc.

(** The co-occurrence counts: of users [i] and [j] over the bundles, and of
    bundles [i] and [j] over the users. *)
Definition count_users (ub_graph : csr_matrix) (i j : nat) : Qc :=
  qsum_range (ncols ub_graph)
             (fun k => (get ub_graph i k * get ub_graph j k)%Qc).

Definition count_bundles (ub_graph : csr_matrix) (i j : nat) : Qc :=
  qsum_range (nrows ub_graph)
             (fun k => (get ub_graph k i * get ub_graph k j)%Qc).

(** The arithmetic of an int64 matrix: its values are integers, and a
    result outside [[-2^63, 2^63)] wraps around modulo [2^64]. *)
Definition wrap_int64 (z : Z) : Z := ((z + 2 ^ 63) mod 2 ^ 64 - 2 ^ 63)%Z.

Definition int64_madd (s v b : Qc) : Qc :=
  qz (wrap_int64 (Qfloor (s + v * b)%Qc)).

(** One user with the entries [2^32] and [1] for two bundles, and item
    relations of matching heights. *)
Definition ub_wrap : csr_matrix := csr_of_dense 1 2 [[4294967296; 1]]%Z.
Definition ui_1x1 : csr_matrix := csr_of_dense 1 1 [[1]]%Z.
Definition bi_2x1 : csr_matrix := csr_of_dense 2 1 [[1]; [1]]%Z.



(** ** Canonical format *)

(** scipy's [has_canonical_format]: in every row the column indices
    increase strictly. *)
Fixpoint strictly_increasing (l : list nat) : bool :=
  match l with
  | a :: ((b :: _) as l') => Nat.ltb a b && strictly_increasing l'
  | _ => true
  end.

Definition has_canonical_format (M : csr_matrix) : bool :=
  forallb (fun r : sparse_row => strictly_increasing (map fst r)) (csr_rows M).

(** The values stored at column [k] of a row, and all pairs of a value of
    one list with a value of another. *)
Definition values_at (r : sparse_row) (k : nat) : list Qc :=
  flat_map (fun cv : nat * Qc => if Nat.eqb (fst cv) k then [snd cv] else []) r.

Definition pairs_of (xs ys : list Qc) : list (Qc * Qc) :=
  flat_map (fun a : Qc => map (fun v : Qc => (a, v)) ys) xs.

Definition swap (p : Qc * Qc) : Qc * Qc := (snd p, fst p).

(** Two users who share two of three bundles. *)
Definition ub_shared : csr_matrix := csr_of_dense 2 3 [[3; 0; 4]; [5; 0; 6]]%Z.
(** * Properties *)

(** ** Lists, slices and sums *)

Lemma qsum_app (xs ys : list Qc) : qsum (xs ++ ys) = (qsum xs + qsum ys)%Qc.
Proof.
  induction xs as [|x xs IH]; simpl.
  - ring.
  - rewrite IH. ring.
Qed.

Lemma qsum_zero (xs : list Qc) : Forall (fun x => x = 0%Qc) xs -> qsum xs = 0%Qc.
Proof.
  induction 1 as [|x xs Hx _ IH]; simpl; [reflexivity|].
  rewrite Hx, IH. ring.
Qed.

Lemma qsum_map_ext {A : Type} (f g : A -> Qc) (l : list A) :
  (forall x, x ∈ l -> f x = g x) -> qsum (map f l) = qsum (map g l).
Proof.
  induction l as [|a l IH]; intros Hfg; simpl; [reflexivity|].
  rewrite Hfg by constructor. rewrite IH; [reflexivity|].
  intros x Hx. apply Hfg. by constructor.
Qed.

Lemma slice_length {A : Type} (lo hi : nat) (l : list A) :
  hi <= length l -> length (slice lo hi l) = hi - lo.
Proof.
  intros Hhi. unfold slice. rewrite length_take, length_drop. lia.
Qed.

Lemma slice_full {A : Type} (l : list A) : slice 0 (length l) l = l.
Proof. unfold slice. rewrite drop_0, Nat.sub_0_r. apply firstn_all. Qed.

Lemma take_plus {A : Type} (n m : nat) (l : list A) :
  take (n + m) l = take n l ++ take m (drop n l).
Proof.
  revert l. induction n as [|n IH]; intros [|x l]; simpl; try done.
  - by rewrite take_nil.
  - by rewrite IH.
Qed.

Lemma slice_split {A : Type} (a b c : nat) (l : list A) :
  a <= b -> b <= c -> slice a c l = slice a b l ++ slice b c l.
Proof.
  intros Hab Hbc. unfold slice.
  replace (c - a) with ((b - a) + (c - b)) by lia.
  rewrite take_plus, drop_drop.
  by replace (a + (b - a)) with b by lia.
Qed.

Lemma slice_empty {A : Type} (a b : nat) (l : list A) :
  b <= a -> slice a b l = [].
Proof. intros H. unfold slice. by replace (b - a) with 0 by lia. Qed.

Lemma slice_prefix {A : Type} (b : nat) (l : list A) :
  take b l = slice 0 b l.
Proof. unfold slice. by rewrite drop_0, Nat.sub_0_r. Qed.

Lemma slice_suffix {A : Type} (a : nat) (l : list A) :
  drop a l = slice a (length l) l.
Proof.
  unfold slice. rewrite take_ge; [done|]. rewrite length_drop. lia.
Qed.

(** ** Row pointers and the rows of a rebuilt matrix *)

Lemma row_ptr_length (s : nat) (rs : list sparse_row) :
  length (row_ptr s rs) = S (length rs).
Proof. revert s. induction rs as [|r rs IH]; intros s; simpl; [done|]. by rewrite IH. Qed.

Lemma row_ptr_nth (rs : list sparse_row) (s i : nat) :
  i <= length rs ->
  nth i (row_ptr s rs) 0 = s + length (concat (take i rs)).
Proof.
  revert s i. induction rs as [|r rs IH]; intros s i Hi; simpl in *.
  - assert (i = 0) as -> by lia. simpl. lia.
  - destruct i as [|i]; simpl; [lia|].
    rewrite IH by lia. rewrite length_app. lia.
Qed.

Lemma row_ptr_nth_ge (rs : list sparse_row) (s i : nat) :
  length rs < i -> nth i (row_ptr s rs) 0 = 0.
Proof.
  intros Hi. apply nth_overflow. rewrite row_ptr_length. lia.
Qed.

Lemma concat_take_S {A : Type} (ls : list (list A)) (i : nat) (r : list A) :
  ls !! i = Some r -> concat (take (S i) ls) = concat (take i ls) ++ r.
Proof.
  intros Hr. rewrite (take_S_r _ _ _ Hr), concat_app. simpl.
  by rewrite app_nil_r.
Qed.

Lemma slice_concat {A : Type} (ls : list (list A)) (i : nat) (r : list A) :
  ls !! i = Some r ->
  slice (length (concat (take i ls))) (length (concat (take (S i) ls)))
        (concat ls) = r.
Proof.
  intros Hr. rewrite (concat_take_S _ _ _ Hr). unfold slice.
  rewrite length_app.
  replace (length (concat (take i ls)) + length r - length (concat (take i ls)))
    with (length r) by lia.
  rewrite <- (take_drop_middle _ _ _ Hr) at 2.
  rewrite concat_app. simpl.
  rewrite drop_app_length. by rewrite take_app_length.
Qed.

Lemma concat_take_map_length {A B : Type} (f : A -> B) (ls : list (list A)) (i : nat) :
  length (concat (take i (map (map f) ls))) = length (concat (take i ls)).
Proof.
  revert i. induction ls as [|l ls IH]; intros [|i]; simpl; try done.
  rewrite !length_app, length_map. by rewrite IH.
Qed.

Lemma slice_concat_map {A B : Type} (f : A -> B) (ls : list (list A))
    (i : nat) (r : list A) :
  ls !! i = Some r ->
  slice (length (concat (take i ls))) (length (concat (take (S i) ls)))
        (concat (map (map f) ls)) = map f r.
Proof.
  intros Hr.
  rewrite <- (concat_take_map_length f ls i).
  rewrite <- (concat_take_map_length f ls (S i)).
  apply slice_concat. by rewrite list_lookup_fmap, Hr.
Qed.

Lemma csr_row_of_rows (sh : nat * nat) (rs : list sparse_row) (i : nat) :
  csr_row (of_rows sh rs) i = nth i rs [].
Proof.
  unfold csr_row, of_rows. simpl.
  destruct (rs !! i) as [r|] eqn:Hr.
  - assert (i < length rs) as Hi by (by eapply lookup_lt_Some).
    rewrite (nth_lookup_Some _ _ _ _ Hr).
    rewrite !row_ptr_nth by lia. simpl.
    rewrite !(slice_concat_map _ _ _ _ Hr).
    apply zip_fst_snd.
  - apply lookup_ge_None in Hr.
    rewrite (nth_overflow rs) by lia.
    rewrite (row_ptr_nth_ge rs 0 (S i)) by lia.
    by rewrite !slice_empty by lia.
Qed.

Lemma csr_rows_length (M : csr_matrix) : length (csr_rows M) = nrows M.
Proof. unfold csr_rows. by rewrite length_map, length_seq. Qed.

Lemma csr_rows_of_rows (sh : nat * nat) (rs : list sparse_row) :
  length rs = fst sh -> csr_rows (of_rows sh rs) = rs.
Proof.
  intros Hlen. unfold csr_rows, nrows. simpl. rewrite <- Hlen.
  apply list_eq. intros i. rewrite list_lookup_fmap.
  destruct (decide (i < length rs)) as [Hi|Hi].
  - rewrite lookup_seq_lt by done. simpl. rewrite csr_row_of_rows.
    destruct (lookup_lt_is_Some_2 rs i Hi) as [r Hr].
    rewrite Hr. f_equal. by apply nth_lookup_Some.
  - rewrite lookup_seq_ge by lia. simpl. symmetry. apply lookup_ge_None. lia.
Qed.

Lemma csr_rows_lookup (M : csr_matrix) (i : nat) :
  i < nrows M -> csr_rows M !! i = Some (csr_row M i).
Proof.
  intros Hi. unfold csr_rows. rewrite list_lookup_fmap, lookup_seq_lt by done.
  done.
Qed.

Lemma csr_rows_nth (M : csr_matrix) (i : nat) :
  i < nrows M -> nth i (csr_rows M) [] = csr_row M i.
Proof. intros Hi. apply nth_lookup_Some. by apply csr_rows_lookup. Qed.

(** ** Well-formed matrices are the matrices rebuilt from their rows *)

Lemma sorted_ptr_mono (p : list nat) (i j : nat) :
  sorted_ptr p = true -> i <= j -> j < length p -> nth i p 0 <= nth j p 0.
Proof.
  revert i j. induction p as [|a p IH]; intros i j Hs Hij Hj; simpl in Hj; [lia|].
  destruct p as [|b p'].
  { simpl in Hj. assert (j = 0) by lia. assert (i = 0) by lia. by subst. }
  simpl in Hs. apply andb_prop in Hs as [Hab Hs]. apply Nat.leb_le in Hab.
  destruct j as [|j]; [by replace i with 0 by lia|].
  destruct i as [|i].
  - change (nth 0 (a :: b :: p') 0) with a.
    change (nth (S j) (a :: b :: p') 0) with (nth j (b :: p') 0).
    specialize (IH 0 j Hs). simpl in IH, Hj.
    etrans; [exact Hab|]. apply IH; lia.
  - change (nth (S i) (a :: b :: p') 0) with (nth i (b :: p') 0).
    change (nth (S j) (a :: b :: p') 0) with (nth j (b :: p') 0).
    apply IH; [done|lia|simpl in *; lia].
Qed.

Lemma concat_slices {A : Type} (p : list nat) (xs : list A) (k : nat) :
  sorted_ptr p = true -> k < length p ->
  concat (map (fun i => slice (nth i p 0) (nth (S i) p 0) xs) (seq 0 k))
  = slice (nth 0 p 0) (nth k p 0) xs.
Proof.
  intros Hs. induction k as [|k IH]; intros Hk.
  - simpl. by rewrite slice_empty.
  - rewrite seq_S, map_app, concat_app, IH by lia. simpl.
    rewrite app_nil_r. symmetry. apply slice_split; apply sorted_ptr_mono; auto; lia.
Qed.

Lemma take_map_seq {A : Type} (f : nat -> A) (n i : nat) :
  i <= n -> take i (map f (seq 0 n)) = map f (seq 0 i).
Proof.
  intros Hi. rewrite firstn_map. f_equal.
  replace n with (i + (n - i)) by lia.
  rewrite seq_app. rewrite take_app_length'; [done|]. by rewrite length_seq.
Qed.

Lemma csr_wf_facts (M : csr_matrix) : csr_wf M = true -> wf_facts M.
Proof.
  unfold csr_wf. intros H.
  repeat (apply andb_prop in H as [H ?]).
  split; try (by apply Nat.eqb_eq); try done.
  apply Forall_forall. intros c Hc. apply list_elem_of_In in Hc.
  eapply forallb_forall in Hc; [|eassumption]. by apply Nat.ltb_lt.
Qed.

Lemma wf_ptr_le (M : csr_matrix) (i : nat) :
  wf_facts M -> i <= nrows M -> nth i (indptr M) 0 <= length (data M).
Proof.
  intros W Hi. rewrite <- (wf_last _ W).
  apply sorted_ptr_mono; [apply W|done|]. rewrite (wf_len _ W). lia.
Qed.

Lemma wf_row_fst (M : csr_matrix) (i : nat) :
  wf_facts M -> i < nrows M ->
  map fst (csr_row M i)
  = slice (nth i (indptr M) 0) (nth (S i) (indptr M) 0) (indices M).
Proof.
  intros W Hi. unfold csr_row. apply fst_zip.
  pose proof (wf_ptr_le M (S i) W ltac:(lia)) as Hhi.
  rewrite !slice_length; [done|lia|rewrite (wf_idx _ W); lia].
Qed.

Lemma wf_row_snd (M : csr_matrix) (i : nat) :
  wf_facts M -> i < nrows M ->
  map snd (csr_row M i)
  = slice (nth i (indptr M) 0) (nth (S i) (indptr M) 0) (data M).
Proof.
  intros W Hi. unfold csr_row. apply snd_zip.
  pose proof (wf_ptr_le M (S i) W ltac:(lia)) as Hhi.
  rewrite !slice_length; [done|rewrite (wf_idx _ W); lia|lia].
Qed.

Lemma map_seq_ext {A : Type} (f g : nat -> A) (s n : nat) :
  (forall i, s <= i < s + n -> f i = g i) -> map f (seq s n) = map g (seq s n).
Proof.
  intros H. apply map_ext_in. intros i Hi. apply in_seq in Hi. apply H. lia.
Qed.

Lemma wf_concat_fst (M : csr_matrix) (k : nat) :
  wf_facts M -> k <= nrows M ->
  concat (map (map fst) (map (csr_row M) (seq 0 k)))
  = slice 0 (nth k (indptr M) 0) (indices M).
Proof.
  intros W Hk. rewrite map_map.
  rewrite (map_seq_ext _ (fun i => slice (nth i (indptr M) 0)
                                     (nth (S i) (indptr M) 0) (indices M))).
  - rewrite concat_slices; [by rewrite (wf_zero _ W)|apply W|].
    rewrite (wf_len _ W). lia.
  - intros i Hi. apply wf_row_fst; [done|lia].
Qed.

Lemma wf_concat_snd (M : csr_matrix) (k : nat) :
  wf_facts M -> k <= nrows M ->
  concat (map (map snd) (map (csr_row M) (seq 0 k)))
  = slice 0 (nth k (indptr M) 0) (data M).
Proof.
  intros W Hk. rewrite map_map.
  rewrite (map_seq_ext _ (fun i => slice (nth i (indptr M) 0)
                                     (nth (S i) (indptr M) 0) (data M))).
  - rewrite concat_slices; [by rewrite (wf_zero _ W)|apply W|].
    rewrite (wf_len _ W). lia.
  - intros i Hi. apply wf_row_snd; [done|lia].
Qed.

Lemma list_eq_nth (l k : list nat) :
  length l = length k -> (forall i, i < length l -> nth i l 0 = nth i k 0) -> l = k.
Proof.
  intros Hlen H. apply list_eq. intros i.
  destruct (decide (i < length l)) as [Hi|Hi].
  - destruct (lookup_lt_is_Some_2 l i Hi) as [x Hx].
    destruct (lookup_lt_is_Some_2 k i ltac:(lia)) as [y Hy].
    specialize (H i Hi).
    rewrite (nth_lookup_Some _ _ _ _ Hx), (nth_lookup_Some _ _ _ _ Hy) in H.
    by rewrite Hx, Hy, H.
  - rewrite !(proj2 (lookup_ge_None _ _)); [done|lia|lia].
Qed.

Lemma concat_map_length {A B : Type} (f : A -> B) (ls : list (list A)) :
  length (concat (map (map f) ls)) = length (concat ls).
Proof.
  induction ls as [|l ls IH]; simpl; [done|].
  by rewrite !length_app, length_map, IH.
Qed.

Lemma of_rows_csr_rows (M : csr_matrix) :
  csr_wf M = true -> of_rows (shape M) (csr_rows M) = M.
Proof.
  intros Hwf. pose proof (csr_wf_facts M Hwf) as W.
  assert (row_ptr 0 (csr_rows M) = indptr M) as Hptr.
  { unfold csr_rows. apply list_eq_nth.
    - rewrite row_ptr_length, length_map, length_seq. by rewrite (wf_len _ W).
    - intros i Hi. rewrite row_ptr_length, length_map, length_seq in Hi.
      rewrite row_ptr_nth by (rewrite length_map, length_seq; lia).
      rewrite take_map_seq by lia.
      rewrite <- (concat_map_length snd).
      rewrite (wf_concat_snd _ i W) by lia.
      rewrite slice_length by (apply (wf_ptr_le _ i W); lia).
      simpl. lia. }
  assert (concat (map (map fst) (csr_rows M)) = indices M) as Hidx.
  { unfold csr_rows. rewrite (wf_concat_fst _ _ W) by done.
    rewrite (wf_last _ W), <- (wf_idx _ W). apply slice_full. }
  assert (concat (map (map snd) (csr_rows M)) = data M) as Hdat.
  { unfold csr_rows. rewrite (wf_concat_snd _ _ W) by done.
    rewrite (wf_last _ W). apply slice_full. }
  unfold of_rows. rewrite Hptr, Hidx, Hdat. by destruct M.
Qed.

Lemma of_rows_wf_ptr (sh : nat * nat) (rs : list sparse_row) :
  sorted_ptr (row_ptr 0 rs) = true.
Proof.
  generalize 0. induction rs as [|r rs IH]; intros s; simpl; [done|].
  specialize (IH (s + length r)).
  destruct rs; simpl in *; (apply andb_true_intro; split; [apply Nat.leb_le; lia|done]).
Qed.

(** ** Row slices and the partition *)

Lemma row_slice_rows (M : csr_matrix) (lo hi : nat) :
  lo <= hi -> hi <= nrows M ->
  csr_rows (row_slice M lo hi) = slice lo hi (csr_rows M).
Proof.
  intros Hlo Hhi. unfold row_slice.
  rewrite !Nat.min_l by lia.
  apply csr_rows_of_rows. simpl.
  rewrite slice_length; [done|]. by rewrite csr_rows_length.
Qed.

Lemma row_slice_shape (M : csr_matrix) (lo hi : nat) :
  lo <= hi -> hi <= nrows M -> shape (row_slice M lo hi) = (hi - lo, ncols M).
Proof. intros Hlo Hhi. unfold row_slice. by rewrite !Nat.min_l by lia. Qed.

Lemma block_bounds (N P i : nat) :
  i < P -> block_lo N P i <= block_hi N P i /\ block_hi N P i <= N.
Proof.
  intros Hi. unfold block_lo, block_hi.
  assert (P * (N / P) <= N) as HP by (apply Nat.Div0.mul_div_le).
  case_decide; nia.
Qed.

Lemma block_hi_lo (N P i : nat) : S i < P -> block_hi N P i = block_lo N P (S i).
Proof.
  intros Hi. unfold block_lo, block_hi. case_decide; [lia|].
  f_equal. lia.
Qed.

(** The block that the loop of [Split_HyperGraph] appends at step [i]. *)
Lemma split_block_eq (H : csr_matrix) (P i : nat) :
  (if decide (i = P - 1)
   then row_slice H (nrows H / P * i) (nrows H)
   else row_slice H (nrows H / P * i) (nrows H / P * (i + 1)))
  = row_slice H (block_lo (nrows H) P i) (block_hi (nrows H) P i).
Proof.
  unfold block_lo, block_hi. case_decide; f_equal; lia.
Qed.

Lemma slice_lookup {A : Type} (lo hi r : nat) (l : list A) :
  r < hi - lo -> slice lo hi l !! r = l !! (lo + r).
Proof.
  intros Hr. unfold slice. rewrite lookup_take_lt by done. apply lookup_drop.
Qed.

Lemma concat_blocks_prefix {A : Type} (N P k : nat) (l : list A) :
  length l = N -> k < P ->
  concat (map (fun i => slice (block_lo N P i) (block_hi N P i) l) (seq 0 k))
  = take (block_lo N P k) l.
Proof.
  intros Hl. induction k as [|k IH]; intros Hk.
  - by rewrite take_0.
  - rewrite seq_S, map_app, concat_app, IH by lia. simpl.
    rewrite app_nil_r, !slice_prefix, (block_hi_lo N P k) by lia.
    symmetry. apply slice_split; [lia|].
    unfold block_lo. nia.
Qed.

Lemma concat_blocks {A : Type} (N P : nat) (l : list A) :
  length l = N -> 1 <= P ->
  concat (map (fun i => slice (block_lo N P i) (block_hi N P i) l) (seq 0 P)) = l.
Proof.
  intros Hl HP. destruct P as [|Q]; [lia|].
  rewrite seq_S, map_app, concat_app, (concat_blocks_prefix N (S Q)) by (done || lia).
  simpl. rewrite app_nil_r.
  replace (block_hi N (S Q) Q) with (length l).
  - rewrite <- slice_suffix. apply take_drop.
  - unfold block_hi. rewrite decide_True; [done|lia].
Qed.

Lemma comprehension_ok {A B : Type} (f : A -> result B) (g : A -> B) (xs : list A) :
  (forall x, x ∈ xs -> f x = Ok (g x)) -> comprehension f xs = Ok (map g xs).
Proof.
  induction xs as [|x xs IH]; intros Hf; simpl; [done|].
  rewrite Hf by constructor. simpl.
  rewrite IH; [done|]. intros y Hy. apply Hf. by constructor.
Qed.

Lemma comprehension_raise {A B : Type} (f : A -> result B) (e : exn) (x : A) (xs : list A) :
  f x = Raise e -> comprehension f (x :: xs) = Raise e.
Proof. intros Hf. simpl. by rewrite Hf. Qed.

Lemma sum_nrows_length (Gs : list csr_matrix) :
  foldr (fun G n => nrows G + n) 0 Gs = length (concat (map csr_rows Gs)).
Proof.
  induction Gs as [|G Gs IH]; simpl; [done|].
  by rewrite length_app, csr_rows_length, IH.
Qed.

Lemma split_blocks_rows (H : csr_matrix) (P : nat) :
  1 <= P ->
  concat (map csr_rows
            (map (fun i => row_slice H (block_lo (nrows H) P i)
                                       (block_hi (nrows H) P i))
                 (seq 0 P)))
  = csr_rows H.
Proof.
  intros HP. rewrite map_map.
  rewrite (map_seq_ext _ (fun i => slice (block_lo (nrows H) P i)
                                     (block_hi (nrows H) P i) (csr_rows H))).
  - apply concat_blocks; [apply csr_rows_length|done].
  - intros i Hi. apply row_slice_rows; apply block_bounds; lia.
Qed.

(** Every row lies in exactly one block. *)
Lemma block_cover (N P r : nat) :
  1 <= P -> r < N ->
  exists i, i < P /\ block_lo N P i <= r < block_hi N P i
            /\ forall j, j < P -> block_lo N P j <= r < block_hi N P j -> j = i.
Proof.
  intros HP Hr. set (L := N / P).
  assert (P * L <= N) as HPL by (apply Nat.Div0.mul_div_le).
  destruct (decide (r < (P - 1) * L)) as [Hlt|Hge].
  - assert (0 < L) as HL by nia.
    exists (r / L).
    assert (L * (r / L) <= r) as H1 by (apply Nat.Div0.mul_div_le).
    assert (r < L * S (r / L)) as H2 by (apply Nat.mul_succ_div_gt; lia).
    assert (r / L < P - 1) as H3 by nia.
    split; [lia|]. split.
    + unfold block_lo, block_hi. fold L. rewrite decide_False by lia. nia.
    + intros j Hj. unfold block_lo, block_hi. fold L.
      case_decide; intros [Ha Hb]; nia.
  - exists (P - 1). split; [lia|]. split.
    + unfold block_lo, block_hi. fold L. rewrite decide_True by done. lia.
    + intros j Hj. unfold block_lo, block_hi. fold L.
      case_decide; [done|]. intros [Ha Hb]. nia.
Qed.

Lemma Split_HyperGraph_blocks (H : csr_matrix) (dev : device) (P : nat) :
  1 <= P ->
  Split_HyperGraph H dev (Some P)
  = Ok (map (fun i => from_scipy_to dev
                        (row_slice H (block_lo (nrows H) P i)
                                     (block_hi (nrows H) P i)))
            (seq 0 P)).
Proof.
  intros HP. unfold Split_HyperGraph. simpl.
  rewrite decide_False by lia. f_equal. rewrite map_map.
  apply map_ext. intros i. f_equal. apply split_block_eq.
Qed.

Lemma torch_cat_ok (ts : list tensor) (c : nat) :
  ts <> [] -> Forall (fun t => snd (tshape t) = c) ts ->
  torch_cat ts
  = Ok (mkTensor (foldr (fun t n => fst (tshape t) + n) 0 ts, c)
                 (concat (map trows ts))).
Proof.
  intros Hne Hc. destruct ts as [|t ts]; [done|]. unfold torch_cat.
  assert (snd (tshape t) = c) as Ht by (by inversion Hc).
  rewrite (proj2 (forallb_forall _ _)); [by rewrite Ht|].
  intros t' Hin. apply list_elem_of_In in Hin.
  rewrite Forall_forall in Hc. rewrite (Hc _ Hin), Ht. apply Nat.eqb_refl.
Qed.

Lemma spmm_blocks (H : csr_matrix) (dev : device) (P : nat) (X : tensor) :
  1 <= P ->
  (parts ← comprehension (fun G => spmm G X)
             (map (fun i => from_scipy_to dev
                              (row_slice H (block_lo (nrows H) P i)
                                           (block_hi (nrows H) P i)))
                  (seq 0 P));
   torch_cat parts)
  = spmm (from_scipy_to dev H) X.
Proof.
  intros HP.
  set (blk := fun i => row_slice H (block_lo (nrows H) P i) (block_hi (nrows H) P i)).
  assert (forall i, i < P -> ncols (blk i) = ncols H) as Hc.
  { intros i Hi. unfold blk, ncols. rewrite row_slice_shape; [done| |];
      apply block_bounds; lia. }
  unfold spmm at 2. simpl. case_decide as Hdim.
  - set (g := fun G : SparseTensor =>
                mkTensor (nrows (st_mat G), snd (tshape X))
                  (map (fun r => map (spmm_row r X) (seq 0 (snd (tshape X))))
                       (csr_rows (st_mat G)))).
    rewrite (comprehension_ok _ g).
    + simpl.
      assert (concat (map trows (map g (map (fun i => from_scipy_to dev (blk i))
                                           (seq 0 P))))
              = map (fun r => map (spmm_row r X) (seq 0 (snd (tshape X))))
                    (csr_rows H)) as Hrows.
      { rewrite <- (split_blocks_rows H P) by lia. fold blk.
        rewrite !map_map. simpl. rewrite concat_map, map_map. done. }
      rewrite (torch_cat_ok _ (snd (tshape X))).
      * f_equal. f_equal; [|exact Hrows]. f_equal.
        assert (forall l, foldr (fun t n => fst (tshape t) + n) 0 (map g l)
                          = length (concat (map trows (map g l)))) as Hsum.
        { intros l. induction l as [|G l IH]; simpl; [done|].
          rewrite length_app, length_map, csr_rows_length. by rewrite IH. }
        etrans; [apply Hsum|]. etrans; [apply (f_equal length Hrows)|].
        rewrite length_map. apply csr_rows_length.
      * destruct P; [lia|done].
      * apply Forall_forall. intros t Ht.
        apply list_elem_of_In, in_map_iff in Ht as (G & <- & _). done.
    + intros G HG. apply list_elem_of_In, in_map_iff in HG as (i & <- & Hi).
      apply in_seq in Hi. unfold spmm. simpl. fold (blk i).
      rewrite decide_True; [done|]. rewrite Hc; [done|lia].
  - destruct P as [|Q]; [lia|].
    change (seq 0 (S Q)) with (0 :: seq 1 Q). rewrite map_cons.
    rewrite (comprehension_raise _ RuntimeError); [done|].
    unfold spmm. simpl. fold (blk 0).
    rewrite decide_False; [done|]. rewrite Hc; [done|lia].
Qed.

Lemma vstack_all_blocks (H : csr_matrix) (Gs : list csr_matrix) :
  concat (map csr_rows Gs) = csr_rows H -> csr_wf H = true ->
  vstack_all (ncols H) Gs = H.
Proof.
  intros Hrows Hwf. unfold vstack_all.
  rewrite sum_nrows_length, Hrows, csr_rows_length.
  etrans; [|apply (of_rows_csr_rows H Hwf)]. by destruct H as [[??]???].
Qed.

(** C2: for [P >= 1], [Split_HyperGraph] returns [P] blocks; block [i]
    holds the rows [[i * (N // P), (i + 1) * (N // P))] of the operator and
    the last one the rows up to [N]; consecutive ranges meet, every row lies
    in exactly one of them; stacking the blocks gives the operator back, and
    concatenating the products of the blocks with a dense [X] is the
    product of the whole operator with [X]. *)
Theorem Split_HyperGraph_partition (H : csr_matrix) (dev : device) (P : nat)
    (X : tensor) :
  1 <= P ->
  exists blocks,
    Split_HyperGraph H dev (Some P) = Ok blocks
    /\ length blocks = P
    /\ (forall i, i < P ->
          exists G, blocks !! i = Some G
            /\ st_device G = dev
            /\ block_lo (nrows H) P i <= block_hi (nrows H) P i <= nrows H
            /\ shape (st_mat G)
               = (block_hi (nrows H) P i - block_lo (nrows H) P i, ncols H)
            /\ forall r, r < block_hi (nrows H) P i - block_lo (nrows H) P i ->
                 csr_row (st_mat G) r = csr_row H (block_lo (nrows H) P i + r))
    /\ block_lo (nrows H) P 0 = 0
    /\ block_hi (nrows H) P (P - 1) = nrows H
    /\ (forall i, S i < P ->
          block_hi (nrows H) P i = block_lo (nrows H) P (S i))
    /\ (forall r, r < nrows H ->
          exists i, i < P
            /\ block_lo (nrows H) P i <= r < block_hi (nrows H) P i
            /\ forall j, j < P ->
                 block_lo (nrows H) P j <= r < block_hi (nrows H) P j -> j = i)
    /\ concat (map (fun G => csr_rows (st_mat G)) blocks) = csr_rows H
    /\ (csr_wf H = true -> vstack_all (ncols H) (map st_mat blocks) = H)
    /\ (parts ← comprehension (fun G => spmm G X) blocks; torch_cat parts)
       = spmm (from_scipy_to dev H) X.
Proof.
  intros HP. eexists. split; [by apply Split_HyperGraph_blocks|].
  set (blk := fun i => row_slice H (block_lo (nrows H) P i) (block_hi (nrows H) P i)).
  assert (concat (map (fun G => csr_rows (st_mat G))
                    (map (fun i => from_scipy_to dev (blk i)) (seq 0 P)))
          = csr_rows H) as Hrows.
  { etrans; [|apply (split_blocks_rows H P HP)]. by rewrite !map_map. }
  split; [by rewrite length_map, length_seq|].
  split.
  { intros i Hi. exists (from_scipy_to dev (blk i)).
    pose proof (block_bounds (nrows H) P i Hi) as [Hlo Hhi].
    split; [by rewrite list_lookup_fmap, lookup_seq_lt|].
    split; [done|]. split; [done|].
    split; [by apply row_slice_shape|].
    intros r Hr. simpl.
    assert (csr_rows (blk i) !! r = csr_rows H !! (block_lo (nrows H) P i + r)) as Hl.
    { unfold blk. rewrite row_slice_rows by done. by apply slice_lookup. }
    rewrite !csr_rows_lookup in Hl; [by injection Hl|lia|].
    unfold blk, nrows. rewrite row_slice_shape by done. done. }
  split; [done|].
  split; [unfold block_hi; by rewrite decide_True|].
  split; [intros i Hi; by apply block_hi_lo|].
  split; [intros r Hr; by apply block_cover|].
  split; [exact Hrows|].
  split.
  { intros Hwf. apply vstack_all_blocks; [|done].
    etrans; [|exact Hrows]. by rewrite (map_map st_mat). }
  by apply spmm_blocks.
Qed.

(** ** The thresholding loops *)

Lemma bin_range_length (t : Qc) (lo hi : nat) (d : list Qc) :
  length (bin_range t lo hi d) = length d.
Proof. apply length_imap. Qed.

Lemma bin_range_empty (t : Qc) (lo : nat) (d : list Qc) : bin_range t lo lo d = d.
Proof.
  unfold bin_range. apply list_eq. intros r. rewrite list_lookup_imap.
  destruct (d !! r); simpl; [|done]. rewrite decide_False; [done|lia].
Qed.

Lemma bin_range_full (t : Qc) (d : list Qc) :
  bin_range t 0 (length d) d = map (binarize t) d.
Proof.
  unfold bin_range. apply list_eq. intros r.
  rewrite list_lookup_imap, list_lookup_fmap.
  destruct (d !! r) eqn:Hr; simpl; [|done].
  apply lookup_lt_Some in Hr. rewrite decide_True; [done|lia].
Qed.

Lemma bin_range_step (t : Qc) (lo k : nat) (d : list Qc) (x : Qc) :
  bin_range t lo (lo + k) d !! (lo + k) = Some x ->
  <[lo + k := binarize t x]> (bin_range t lo (lo + k) d)
  = bin_range t lo (lo + S k) d.
Proof.
  intros Hx. apply list_eq. intros r.
  destruct (decide (r = lo + k)) as [->|Hne].
  - rewrite list_lookup_insert_eq by (by eapply lookup_lt_Some).
    unfold bin_range in *. rewrite list_lookup_imap in *.
    destruct (d !! (lo + k)); simpl in *; [|done].
    rewrite decide_False in Hx by lia. rewrite decide_True by lia. congruence.
  - rewrite list_lookup_insert_ne by done.
    unfold bin_range. rewrite !list_lookup_imap.
    destruct (d !! r); simpl; [|done].
    repeat case_decide; try done; lia.
Qed.

Lemma threshold_range_spec (t : Qc) (lo hi : nat) (d : list Qc) :
  lo <= hi -> hi <= length d ->
  threshold_range t lo hi d = Ok (bin_range t lo hi d).
Proof.
  intros Hlo Hhi. unfold threshold_range.
  replace hi with (lo + (hi - lo)) at 2 by lia.
  assert (lo + (hi - lo) <= length d) as Hk by lia. revert Hk.
  generalize (hi - lo). intros k. induction k as [|k IH]; intros Hk.
  - simpl. by rewrite Nat.add_0_r, bin_range_empty.
  - rewrite seq_S, foldl_app, IH by lia. simpl.
    destruct (bin_range t lo (lo + k) d !! (lo + k)) as [x|] eqn:Hx.
    + by rewrite (bin_range_step _ _ _ _ _ Hx).
    + apply lookup_ge_None in Hx. rewrite bin_range_length in Hx. lia.
Qed.

Lemma bin_range_join (t : Qc) (a b c : nat) (d : list Qc) :
  a <= b -> b <= c ->
  bin_range t b c (bin_range t a b d) = bin_range t a c d.
Proof.
  intros Hab Hbc. unfold bin_range. apply list_eq. intros r.
  rewrite !list_lookup_imap. destruct (d !! r); simpl; [|done].
  repeat case_decide; try done; lia.
Qed.

Lemma threshold_rows_spec (t : Qc) (n : nat) (ptr : list nat) (d : list Qc) :
  sorted_ptr ptr = true -> n < length ptr -> nth n ptr 0 <= length d ->
  threshold_rows t n ptr d = Ok (bin_range t (nth 0 ptr 0) (nth n ptr 0) d).
Proof.
  intros Hs. unfold threshold_rows. induction n as [|n IH]; intros Hn Hd.
  - simpl. by rewrite bin_range_empty.
  - assert (nth n ptr 0 <= nth (S n) ptr 0) as Hstep
      by (apply sorted_ptr_mono; [done|lia|done]).
    assert (nth 0 ptr 0 <= nth n ptr 0) as Hfirst
      by (apply sorted_ptr_mono; [done|lia|lia]).
    rewrite seq_S, foldl_app, IH by lia. simpl.
    destruct (lookup_lt_is_Some_2 ptr n ltac:(lia)) as [lo Hlo].
    destruct (lookup_lt_is_Some_2 ptr (n + 1) ltac:(lia)) as [hi Hhi].
    rewrite Hlo, Hhi.
    rewrite (nth_lookup_Some _ _ 0 _ Hlo) in *.
    replace (n + 1) with (S n) in Hhi by lia.
    rewrite (nth_lookup_Some _ _ 0 _ Hhi) in *.
    rewrite threshold_range_spec; [|done|by rewrite bin_range_length].
    by rewrite bin_range_join.
Qed.

Lemma of_rows_ptr_last (rs : list sparse_row) :
  nth (length rs) (row_ptr 0 rs) 0 = length (concat (map (map snd) rs)).
Proof.
  rewrite row_ptr_nth by done. rewrite firstn_all. simpl.
  by rewrite concat_map_length.
Qed.

Lemma similarity_of_rows (t : Qc) (sh : nat * nat) (rs : list sparse_row) :
  similarity t (length rs) (of_rows sh rs)
  = Ok (CSR sh (indptr (of_rows sh rs)) (indices (of_rows sh rs))
            (map (binarize t) (data (of_rows sh rs)))).
Proof.
  unfold similarity. rewrite threshold_rows_spec.
  - simpl. rewrite (row_ptr_nth rs 0 0) by lia. simpl.
    rewrite of_rows_ptr_last. by rewrite bin_range_full.
  - apply (of_rows_wf_ptr sh).
  - simpl. rewrite row_ptr_length. lia.
  - simpl. by rewrite of_rows_ptr_last.
Qed.

Lemma matmul_ok (A B : csr_matrix) :
  ncols A = nrows B ->
  matmul A B
  = Ok (of_rows (nrows A, ncols B)
          (map (fun ra => row_of_dense 0 (map (row_times ra B) (seq 0 (ncols B))))
               (csr_rows A))).
Proof. intros H. unfold matmul. by rewrite decide_True. Qed.

Lemma transpose_shape (M : csr_matrix) : shape (transpose M) = (ncols M, nrows M).
Proof. done. Qed.

Lemma similarity_matmul (t : Qc) (A B M : csr_matrix) :
  matmul A B = Ok M ->
  similarity t (nrows A) M
  = Ok (CSR (shape M) (indptr M) (indices M) (map (binarize t) (data M))).
Proof.
  unfold matmul. case_decide; [|done]. intros [= <-].
  set (rs := map _ (csr_rows A)).
  replace (nrows A) with (length rs) at 1
    by (unfold rs; by rewrite length_map, csr_rows_length).
  apply similarity_of_rows.
Qed.

Lemma binarize_le (t x : Qc) : (x <= t)%Qc -> binarize t x = 0%Qc.
Proof.
  intros Hle. unfold binarize. case_decide as Hlt; [|done].
  exfalso. by apply (Qcle_not_lt _ _ Hle).
Qed.

(** ** Reading the entries of stacked and transposed matrices *)

Lemma shape_nrows (M : csr_matrix) (r c : nat) : shape M = (r, c) -> nrows M = r.
Proof. unfold nrows. by intros ->. Qed.

Lemma shape_ncols (M : csr_matrix) (r c : nat) : shape M = (r, c) -> ncols M = c.
Proof. unfold ncols. by intros ->. Qed.

Lemma get_of_rows (sh : nat * nat) (rs : list sparse_row) (i j : nat) :
  get (of_rows sh rs) i j = row_get (nth i rs []) j.
Proof. unfold get. by rewrite csr_row_of_rows. Qed.

Lemma row_get_app (r1 r2 : sparse_row) (j : nat) :
  row_get (r1 ++ r2) j = (row_get r1 j + row_get r2 j)%Qc.
Proof.
  induction r1 as [|[c v] r1 IH]; simpl; [ring|].
  destruct (Nat.eqb c j); rewrite IH; ring.
Qed.

Lemma row_get_out_of_range (c : nat) (r : sparse_row) (j : nat) :
  row_in_range c r -> c <= j -> row_get r j = 0%Qc.
Proof.
  intros Hr Hj. induction Hr as [|[c' v] r Hc _ IH]; simpl; [done|].
  simpl in Hc. destruct (Nat.eqb_spec c' j); [lia|done].
Qed.

Lemma row_get_shift (k : nat) (r : sparse_row) (j : nat) :
  row_get (shift_row k r) j = if decide (k <= j) then row_get r (j - k) else 0%Qc.
Proof.
  induction r as [|[c v] r IH]; simpl; [by case_decide|].
  rewrite IH. case_decide.
  - destruct (Nat.eqb_spec (k + c) j), (Nat.eqb_spec c (j - k)); (done || lia).
  - destruct (Nat.eqb_spec (k + c) j); [lia|done].
Qed.

Lemma vstack_ok (A B : csr_matrix) :
  ncols A = ncols B ->
  vstack A B = Ok (of_rows (nrows A + nrows B, ncols A) (csr_rows A ++ csr_rows B)).
Proof. intros H. unfold vstack. by rewrite decide_True. Qed.

Lemma hstack_ok (A B : csr_matrix) :
  nrows A = nrows B ->
  hstack A B
  = Ok (of_rows (nrows A, ncols A + ncols B)
          (zip_with (fun ra rb => ra ++ shift_row (ncols A) rb)
                    (csr_rows A) (csr_rows B))).
Proof.
  intros H. unfold hstack. case_decide as H0; [|by rewrite decide_True].
  assert (csr_rows A = []) as ->
    by (apply length_zero_iff_nil; by rewrite csr_rows_length).
  assert (csr_rows B = []) as ->
    by (apply length_zero_iff_nil; rewrite csr_rows_length; lia).
  simpl. by rewrite <- H.
Qed.

(** A first block without rows is passed over; any other pair of blocks
    must have the same height. *)
Lemma hstack_cases (A B : csr_matrix) :
  (nrows A = 0 ->
     hstack A B
     = Ok (of_rows (nrows B, ncols A + ncols B)
             (map (shift_row (ncols A)) (csr_rows B))))
  /\ (nrows A <> 0 -> nrows A <> nrows B -> hstack A B = Raise ValueError).
Proof.
  unfold hstack. split.
  - intros H0. by rewrite decide_True.
  - intros H0 Hne. by rewrite !decide_False.
Qed.


Lemma vstack_row (A B V : csr_matrix) (i : nat) :
  vstack A B = Ok V -> i < nrows A + nrows B ->
  csr_row V i = if decide (i < nrows A) then csr_row A i
                else csr_row B (i - nrows A).
Proof.
  unfold vstack. case_decide; [|done]. intros [= <-] Hi.
  rewrite csr_row_of_rows. case_decide.
  - rewrite app_nth1 by (by rewrite csr_rows_length). by apply csr_rows_nth.
  - rewrite app_nth2 by (rewrite csr_rows_length; lia).
    rewrite csr_rows_length. apply csr_rows_nth. lia.
Qed.

Lemma vstack_shape (A B V : csr_matrix) :
  vstack A B = Ok V -> shape V = (nrows A + nrows B, ncols A).
Proof. unfold vstack. case_decide; [|done]. by intros [= <-]. Qed.

Lemma hstack_shape (A B V : csr_matrix) :
  hstack A B = Ok V -> shape V = (nrows B, ncols A + ncols B).
Proof.
  unfold hstack. case_decide; [by intros [= <-]|].
  case_decide as Hr; [|done]. intros [= <-]. by rewrite Hr.
Qed.

Lemma hstack_row (A B V : csr_matrix) (i : nat) :
  hstack A B = Ok V -> i < nrows A ->
  csr_row V i = csr_row A i ++ shift_row (ncols A) (csr_row B i).
Proof.
  unfold hstack. case_decide as H0; [lia|].
  case_decide as Hr; [|done]. intros [= <-] Hi.
  rewrite csr_row_of_rows. apply nth_lookup_Some.
  rewrite lookup_zip_with.
  rewrite (csr_rows_lookup A i Hi), (csr_rows_lookup B i) by lia. done.
Qed.


Lemma cols_in_range_row (M : csr_matrix) (i : nat) :
  cols_in_range M -> i < nrows M -> row_in_range (ncols M) (csr_row M i).
Proof.
  intros HM Hi. unfold cols_in_range in HM. rewrite Forall_lookup in HM.
  apply (HM i). by apply csr_rows_lookup.
Qed.

Lemma cols_in_range_intro (M : csr_matrix) :
  (forall i, i < nrows M -> row_in_range (ncols M) (csr_row M i)) ->
  cols_in_range M.
Proof.
  intros HM. apply Forall_lookup. intros i r Hr.
  assert (i < nrows M) as Hi
    by (rewrite <- csr_rows_length; by eapply lookup_lt_Some).
  rewrite csr_rows_lookup in Hr by done. injection Hr as <-. by apply HM.
Qed.

Lemma hstack_get (A B V : csr_matrix) (i j : nat) :
  hstack A B = Ok V -> cols_in_range A -> i < nrows A ->
  get V i j = if decide (j < ncols A) then get A i j
              else get B i (j - ncols A).
Proof.
  intros HV HA Hi. unfold get. rewrite (hstack_row _ _ _ _ HV Hi).
  rewrite row_get_app, row_get_shift.
  pose proof (cols_in_range_row A i HA Hi) as Hr.
  destruct (decide (j < ncols A)).
  - rewrite decide_False by lia. ring.
  - rewrite decide_True by lia.
    rewrite (row_get_out_of_range _ _ _ Hr) by lia. ring.
Qed.


Lemma vstack_get (A B V : csr_matrix) (i j : nat) :
  vstack A B = Ok V -> i < nrows A + nrows B ->
  get V i j = if decide (i < nrows A) then get A i j
              else get B (i - nrows A) j.
Proof.
  intros HV Hi. unfold get. rewrite (vstack_row _ _ _ _ HV Hi).
  by case_decide.
Qed.

Lemma row_in_range_mono (c c' : nat) (r : sparse_row) :
  c <= c' -> row_in_range c r -> row_in_range c' r.
Proof.
  intros Hc Hr. eapply Forall_impl; [exact Hr|]. intros cv H. simpl in *. lia.
Qed.

Lemma vstack_in_range (A B V : csr_matrix) :
  vstack A B = Ok V -> cols_in_range A -> cols_in_range B -> cols_in_range V.
Proof.
  intros HV HA HB. apply cols_in_range_intro. intros i Hi.
  pose proof (vstack_shape _ _ _ HV) as Hs.
  assert (nrows V = nrows A + nrows B) as Hn by (unfold nrows; by rewrite Hs).
  assert (ncols V = ncols A) as Hc by (unfold ncols; by rewrite Hs).
  assert (ncols A = ncols B) as Hab by (unfold vstack in HV; by case_decide).
  rewrite Hc, (vstack_row _ _ _ _ HV) by lia.
  case_decide.
  - by apply cols_in_range_row.
  - rewrite Hab. apply cols_in_range_row; [done|lia].
Qed.

Lemma csr_wf_in_range (M : csr_matrix) : csr_wf M = true -> cols_in_range M.
Proof.
  intros Hwf. pose proof (csr_wf_facts M Hwf) as W.
  apply cols_in_range_intro. intros i Hi.
  unfold row_in_range. apply Forall_forall. intros [c v] Hcv. simpl.
  assert (c ∈ map fst (csr_row M i)) as Hc.
  { apply list_elem_of_fmap. by exists (c, v). }
  rewrite (wf_row_fst M i W Hi) in Hc.
  pose proof (wf_cols M W) as Hall. rewrite Forall_forall in Hall.
  apply Hall. unfold slice in Hc.
  apply elem_of_take in Hc as (k & Hk & _).
  rewrite lookup_drop in Hk. by eapply list_elem_of_lookup_2.
Qed.

Lemma nth_map_seq {A : Type} (f : nat -> A) (n k : nat) (d : A) :
  k < n -> nth k (map f (seq 0 n)) d = f k.
Proof.
  intros Hk. apply nth_lookup_Some.
  by rewrite list_lookup_fmap, lookup_seq_lt.
Qed.

Lemma row_get_pick (s k : nat) (r : sparse_row) (i : nat) :
  row_get (flat_map (fun cv : nat * Qc =>
                       if Nat.eqb (fst cv) k then [(s, snd cv)] else []) r) i
  = if Nat.eqb s i then row_get r k else 0%Qc.
Proof.
  induction r as [|[c v] r IH]; simpl; [by destruct (Nat.eqb s i)|].
  destruct (Nat.eqb c k); simpl; rewrite IH; destruct (Nat.eqb s i); ring.
Qed.

Lemma row_get_transpose_from (s : nat) (rs : list sparse_row) (k i : nat) :
  row_get (flat_map (fun ir : nat * sparse_row =>
                       flat_map (fun cv : nat * Qc =>
                                   if Nat.eqb (fst cv) k then [(fst ir, snd cv)]
                                   else [])
                                (snd ir))
                    (zip (seq s (length rs)) rs)) i
  = if decide (s <= i < s + length rs) then row_get (nth (i - s) rs []) k
    else 0%Qc.
Proof.
  revert s. induction rs as [|r rs IH]; intros s; simpl.
  - case_decide; [lia|done].
  - rewrite row_get_app, row_get_pick, IH.
    destruct (Nat.eqb_spec s i) as [->|Hne].
    + rewrite Nat.sub_diag, decide_False, decide_True by lia. ring.
    + destruct (decide (S s <= i < S s + length rs)).
      * rewrite decide_True by lia.
        replace (i - s) with (S (i - S s)) by lia. ring.
      * rewrite decide_False by lia. ring.
Qed.

Lemma row_get_transpose_row (rs : list sparse_row) (k i : nat) :
  i < length rs -> row_get (transpose_row rs k) i = row_get (nth i rs []) k.
Proof.
  intros Hi. unfold transpose_row. rewrite row_get_transpose_from.
  rewrite decide_True by lia. by rewrite Nat.sub_0_r.
Qed.

Lemma transpose_get (M : csr_matrix) (k i : nat) :
  k < ncols M -> i < nrows M -> get (transpose M) k i = get M i k.
Proof.
  intros Hk Hi. unfold transpose. rewrite get_of_rows, nth_map_seq by done.
  rewrite row_get_transpose_row by (by rewrite csr_rows_length).
  by rewrite csr_rows_nth.
Qed.

Lemma transpose_from_in_range (s : nat) (rs : list sparse_row) (k : nat) :
  row_in_range (s + length rs)
    (flat_map (fun ir : nat * sparse_row =>
                 flat_map (fun cv : nat * Qc =>
                             if Nat.eqb (fst cv) k then [(fst ir, snd cv)]
                             else [])
                          (snd ir))
              (zip (seq s (length rs)) rs)).
Proof.
  revert s. induction rs as [|r rs IH]; intros s; simpl; [constructor|].
  apply Forall_app. split.
  - induction r as [|[c v] r IHr]; simpl; [constructor|].
    destruct (Nat.eqb c k); simpl; [|done].
    constructor; [simpl; lia|done].
  - specialize (IH (S s)). eapply row_in_range_mono; [|exact IH]. lia.
Qed.

Lemma transpose_in_range (M : csr_matrix) : cols_in_range (transpose M).
Proof.
  apply cols_in_range_intro. intros k Hk.
  change (nrows (transpose M)) with (ncols M) in Hk.
  change (ncols (transpose M)) with (nrows M).
  unfold transpose. rewrite csr_row_of_rows, nth_map_seq by done.
  pose proof (transpose_from_in_range 0 (csr_rows M) k) as H.
  eapply row_in_range_mono; [|exact H]. rewrite csr_rows_length. lia.
Qed.

Lemma row_of_dense_get (s : nat) (xs : list Qc) (j : nat) :
  row_get (row_of_dense s xs) j
  = if decide (s <= j < s + length xs) then nth (j - s) xs 0%Qc else 0%Qc.
Proof.
  revert s. induction xs as [|x xs IH]; intros s; simpl.
  - case_decide; [lia|done].
  - case_decide as Hx; simpl.
    + rewrite IH. destruct (decide (S s <= j < S s + length xs)).
      * rewrite decide_True by lia. by replace (j - s) with (S (j - S s)) by lia.
      * case_decide; [|done].
        assert (j = s) as -> by lia. by rewrite Nat.sub_diag.
    + rewrite IH. destruct (Nat.eqb_spec s j) as [->|Hne].
      * rewrite decide_False, decide_True by lia. rewrite Nat.sub_diag. ring.
      * destruct (decide (S s <= j < S s + length xs)).
        -- rewrite decide_True by lia. by replace (j - s) with (S (j - S s)) by lia.
        -- rewrite decide_False by lia. done.
Qed.

Lemma row_of_dense_in_range (s : nat) (xs : list Qc) :
  row_in_range (s + length xs) (row_of_dense s xs).
Proof.
  revert s. induction xs as [|x xs IH]; intros s; simpl; [constructor|].
  specialize (IH (S s)).
  assert (row_in_range (s + S (length xs)) (row_of_dense (S s) xs)) as H
    by (eapply row_in_range_mono; [|exact IH]; lia).
  case_decide; [done|]. constructor; [simpl; lia|done].
Qed.

Lemma matmul_shape (A B M : csr_matrix) :
  matmul A B = Ok M -> shape M = (nrows A, ncols B).
Proof. unfold matmul. case_decide; [|done]. by intros [= <-]. Qed.

Lemma matmul_row (A B M : csr_matrix) (i : nat) :
  matmul A B = Ok M -> i < nrows A ->
  csr_row M i
  = row_of_dense 0 (map (row_times (csr_row A i) B) (seq 0 (ncols B))).
Proof.
  unfold matmul. case_decide; [|done]. intros [= <-] Hi.
  rewrite csr_row_of_rows.
  rewrite (nth_indep _ [] (row_of_dense 0 (map (row_times [] B) (seq 0 (ncols B)))))
    by (by rewrite length_map, csr_rows_length).
  rewrite (map_nth (fun ra => row_of_dense 0 (map (row_times ra B) (seq 0 (ncols B))))).
  by rewrite csr_rows_nth.
Qed.

Lemma matmul_get (A B M : csr_matrix) (i j : nat) :
  matmul A B = Ok M -> i < nrows A -> j < ncols B ->
  get M i j = row_times (csr_row A i) B j.
Proof.
  intros HM Hi Hj. unfold get. rewrite (matmul_row _ _ _ _ HM Hi).
  rewrite row_of_dense_get, length_map, length_seq.
  rewrite decide_True by lia. rewrite Nat.sub_0_r.
  by rewrite nth_map_seq.
Qed.

Lemma matmul_in_range (A B M : csr_matrix) :
  matmul A B = Ok M -> cols_in_range M.
Proof.
  intros HM. apply cols_in_range_intro. intros i Hi.
  pose proof (matmul_shape _ _ _ HM) as Hs.
  assert (nrows M = nrows A) as Hn by (unfold nrows; by rewrite Hs).
  assert (ncols M = ncols B) as Hc by (unfold ncols; by rewrite Hs).
  rewrite (matmul_row _ _ _ _ HM) by lia.
  pose proof (row_of_dense_in_range 0 (map (row_times (csr_row A i) B) (seq 0 (ncols B)))) as H.
  rewrite length_map, length_seq in H. simpl in H. by rewrite Hc.
Qed.

Lemma zip_map_r {A B C : Type} (f : B -> C) (l : list A) (k : list B) :
  zip l (map f k) = map (fun p => (fst p, f (snd p))) (zip l k).
Proof.
  revert k. induction l as [|a l IH]; intros [|b k]; simpl; try done.
  by rewrite IH.
Qed.

Lemma slice_map {A B : Type} (f : A -> B) (lo hi : nat) (l : list A) :
  slice lo hi (map f l) = map f (slice lo hi l).
Proof. unfold slice. by rewrite skipn_map, firstn_map. Qed.

Lemma binarized_row (t : Qc) (M : csr_matrix) (i : nat) :
  csr_row (CSR (shape M) (indptr M) (indices M) (map (binarize t) (data M))) i
  = map (fun p => (fst p, binarize t (snd p))) (csr_row M i).
Proof. unfold csr_row. simpl. by rewrite slice_map, zip_map_r. Qed.

Lemma binarized_in_range (t : Qc) (M : csr_matrix) :
  cols_in_range M ->
  cols_in_range (CSR (shape M) (indptr M) (indices M) (map (binarize t) (data M))).
Proof.
  intros HM. apply cols_in_range_intro. intros i Hi.
  rewrite binarized_row. apply Forall_fmap.
  eapply Forall_impl; [apply (cols_in_range_row M i HM Hi)|]. by intros [c v].
Qed.

(** ** Sums over the stored entries of a row and sums over its columns *)

Lemma qsum_range_ext (n : nat) (f g : nat -> Qc) :
  (forall k, k < n -> f k = g k) -> qsum_range n f = qsum_range n g.
Proof.
  intros H. unfold qsum_range. f_equal. apply map_seq_ext. intros k Hk.
  apply H. lia.
Qed.

Lemma qsum_range_S (n : nat) (f : nat -> Qc) :
  qsum_range (S n) f = (qsum_range n f + f n)%Qc.
Proof.
  unfold qsum_range. rewrite seq_S, map_app, qsum_app. simpl. ring.
Qed.

Lemma qsum_range_plus (n : nat) (f g : nat -> Qc) :
  qsum_range n (fun k => (f k + g k)%Qc) = (qsum_range n f + qsum_range n g)%Qc.
Proof.
  induction n as [|n IH]; [unfold qsum_range; simpl; ring|].
  rewrite !qsum_range_S, IH. ring.
Qed.

Lemma qsum_range_scale_l (n : nat) (c : Qc) (f : nat -> Qc) :
  qsum_range n (fun k => (c * f k)%Qc) = (c * qsum_range n f)%Qc.
Proof.
  induction n as [|n IH]; [unfold qsum_range; simpl; ring|].
  rewrite !qsum_range_S, IH. ring.
Qed.

Lemma qsum_range_zero (n : nat) (f : nat -> Qc) :
  (forall k, k < n -> f k = 0%Qc) -> qsum_range n f = 0%Qc.
Proof.
  induction n as [|n IH]; intros Hf; [done|].
  rewrite qsum_range_S, IH, Hf by (intros; apply Hf || idtac; lia). ring.
Qed.

Lemma qsum_range_delta (n c : nat) (v : Qc) (f : nat -> Qc) :
  c < n ->
  qsum_range n (fun k => ((if Nat.eqb c k then v else 0) * f k)%Qc)
  = (v * f c)%Qc.
Proof.
  induction n as [|n IH]; intros Hc; [lia|].
  rewrite qsum_range_S. destruct (decide (c = n)) as [->|Hne].
  - rewrite Nat.eqb_refl, qsum_range_zero; [ring|].
    intros k Hk. destruct (Nat.eqb_spec n k); [lia|ring].
  - rewrite IH by lia. destruct (Nat.eqb_spec c n); [done|ring].
Qed.

Lemma row_sum_by_column (m : nat) (r : sparse_row) (f : nat -> Qc) :
  row_in_range m r ->
  qsum (map (fun ka : nat * Qc => (snd ka * f (fst ka))%Qc) r)
  = qsum_range m (fun k => (row_get r k * f k)%Qc).
Proof.
  induction 1 as [|[c v] r Hc _ IH]; simpl.
  - symmetry. apply qsum_range_zero. intros; ring.
  - simpl in Hc. rewrite IH, <- (qsum_range_delta m c v f Hc), <- qsum_range_plus.
    apply qsum_range_ext. intros k Hk.
    destruct (Nat.eqb c k); ring.
Qed.

Lemma row_sum_delta (r : sparse_row) (k : nat) (g : nat -> Qc) (x : Qc) :
  (forall c, g c = if Nat.eqb c k then x else 0%Qc) ->
  qsum (map (fun ka : nat * Qc => (snd ka * g (fst ka))%Qc) r)
  = (row_get r k * x)%Qc.
Proof.
  intros Hg. induction r as [|[c v] r IH]; simpl; [ring|].
  rewrite IH, Hg. destruct (Nat.eqb c k); ring.
Qed.

(** ** Diagonal matrices *)

Lemma diags_shape (v : list Qc) : shape (diags v) = (length v, length v).
Proof. done. Qed.

Lemma diags_row (v : list Qc) (i : nat) :
  csr_row (diags v) i = if decide (i < length v) then [(i, nth i v 0%Qc)] else [].
Proof.
  unfold diags. rewrite csr_row_of_rows. case_decide as Hi.
  - apply nth_lookup_Some. rewrite lookup_zip_with.
    rewrite lookup_seq_lt by done. simpl.
    destruct (lookup_lt_is_Some_2 v i Hi) as [x Hx]. rewrite Hx. simpl.
    by rewrite (nth_lookup_Some _ _ _ _ Hx).
  - apply nth_overflow. rewrite length_zip_with, length_seq. lia.
Qed.

Lemma diags_get (v : list Qc) (c k : nat) :
  k < length v ->
  get (diags v) c k = if Nat.eqb c k then nth k v 0%Qc else 0%Qc.
Proof.
  intros Hk. unfold get. rewrite diags_row. case_decide as Hc; simpl.
  - destruct (Nat.eqb_spec c k) as [->|]; [ring|done].
  - destruct (Nat.eqb_spec c k); [lia|done].
Qed.

Lemma diags_left_get (v : list Qc) (B M : csr_matrix) (i j : nat) :
  matmul (diags v) B = Ok M -> i < length v -> j < ncols B ->
  get M i j = (nth i v 0 * get B i j)%Qc.
Proof.
  intros HM Hi Hj. rewrite (matmul_get _ _ _ _ _ HM) by done.
  rewrite diags_row, decide_True by done. unfold row_times. simpl. ring.
Qed.

Lemma diags_right_get (v : list Qc) (A M : csr_matrix) (i j : nat) :
  matmul A (diags v) = Ok M -> i < nrows A -> j < length v ->
  get M i j = (get A i j * nth j v 0)%Qc.
Proof.
  intros HM Hi Hj. rewrite (matmul_get _ _ _ _ _ HM) by done.
  unfold row_times.
  apply (row_sum_delta _ j (fun c => get (diags v) c j)). intros c.
  by apply diags_get.
Qed.

(** ** The product in the arithmetic of a dtype *)

Lemma matmul_dtype_ok (madd : Qc -> Qc -> Qc -> Qc) (A B : csr_matrix) :
  ncols A = nrows B ->
  matmul_dtype madd A B
  = Ok (of_rows (nrows A, ncols B)
          (map (fun ra => row_of_dense 0
                            (map (row_times_dtype madd ra B) (seq 0 (ncols B))))
               (csr_rows A))).
Proof. intros H. unfold matmul_dtype. by rewrite decide_True. Qed.

Lemma matmul_dtype_shape (madd : Qc -> Qc -> Qc -> Qc) (A B M : csr_matrix) :
  matmul_dtype madd A B = Ok M -> shape M = (nrows A, ncols B).
Proof. unfold matmul_dtype. case_decide; [|done]. by intros [= <-]. Qed.

Lemma matmul_dtype_row (madd : Qc -> Qc -> Qc -> Qc) (A B M : csr_matrix)
    (i : nat) :
  matmul_dtype madd A B = Ok M -> i < nrows A ->
  csr_row M i
  = row_of_dense 0 (map (row_times_dtype madd (csr_row A i) B)
                        (seq 0 (ncols B))).
Proof.
  unfold matmul_dtype. case_decide; [|done]. intros [= <-] Hi.
  rewrite csr_row_of_rows.
  rewrite (nth_indep _ []
             (row_of_dense 0 (map (row_times_dtype madd [] B)
                                  (seq 0 (ncols B)))))
    by (by rewrite length_map, csr_rows_length).
  rewrite (map_nth (fun ra => row_of_dense 0
                                (map (row_times_dtype madd ra B)
                                     (seq 0 (ncols B))))).
  by rewrite csr_rows_nth.
Qed.

Lemma matmul_dtype_get (madd : Qc -> Qc -> Qc -> Qc) (A B M : csr_matrix)
    (i j : nat) :
  matmul_dtype madd A B = Ok M -> i < nrows A -> j < ncols B ->
  get M i j = row_times_dtype madd (csr_row A i) B j.
Proof.
  intros HM Hi Hj. unfold get. rewrite (matmul_dtype_row _ _ _ _ _ HM Hi).
  rewrite row_of_dense_get, length_map, length_seq.
  rewrite decide_True by lia. rewrite Nat.sub_0_r.
  by rewrite nth_map_seq.
Qed.

Lemma matmul_dtype_in_range (madd : Qc -> Qc -> Qc -> Qc) (A B M : csr_matrix) :
  matmul_dtype madd A B = Ok M -> cols_in_range M.
Proof.
  intros HM. apply cols_in_range_intro. intros i Hi.
  pose proof (matmul_dtype_shape _ _ _ _ HM) as Hs.
  assert (nrows M = nrows A) as Hn by (unfold nrows; by rewrite Hs).
  assert (ncols M = ncols B) as Hc by (unfold ncols; by rewrite Hs).
  rewrite (matmul_dtype_row _ _ _ _ _ HM) by lia.
  pose proof (row_of_dense_in_range 0
                (map (row_times_dtype madd (csr_row A i) B)
                     (seq 0 (ncols B)))) as H.
  rewrite length_map, length_seq in H. simpl in H. by rewrite Hc.
Qed.

(** A product never stores a zero. *)
Lemma row_of_dense_nonzero (s : nat) (xs : list Qc) :
  Forall (fun cv : nat * Qc => snd cv <> 0%Qc) (row_of_dense s xs).
Proof.
  revert s. induction xs as [|x xs IH]; intros s; simpl; [constructor|].
  case_decide; [apply IH|]. constructor; [done|apply IH].
Qed.

Lemma matmul_dtype_nonzero (madd : Qc -> Qc -> Qc -> Qc) (A B M : csr_matrix) :
  matmul_dtype madd A B = Ok M -> Forall (fun x => x <> 0%Qc) (data M).
Proof.
  unfold matmul_dtype. case_decide; [|done]. intros [= <-]. simpl.
  apply Forall_concat, Forall_fmap, Forall_fmap, Forall_forall.
  intros ra _. simpl. apply Forall_fmap.
  apply (row_of_dense_nonzero 0).
Qed.

Lemma similarity_matmul_dtype (madd : Qc -> Qc -> Qc -> Qc) (t : Qc)
    (A B M : csr_matrix) :
  matmul_dtype madd A B = Ok M ->
  similarity t (nrows A) M
  = Ok (CSR (shape M) (indptr M) (indices M) (map (binarize t) (data M))).
Proof.
  unfold matmul_dtype. case_decide; [|done]. intros [= <-].
  set (rs := map _ (csr_rows A)).
  replace (nrows A) with (length rs) at 1
    by (unfold rs; by rewrite length_map, csr_rows_length).
  apply similarity_of_rows.
Qed.

(** The accumulation is a fold over the factors of the entry. *)
Lemma foldl_flat_map {A B C : Type} (f : A -> C -> A) (g : B -> list C)
    (a : A) (l : list B) :
  foldl f a (flat_map g l) = foldl (fun a' b => foldl f a' (g b)) a l.
Proof.
  revert a. induction l as [|b l IH]; intros a; simpl; [done|].
  by rewrite foldl_app, IH.
Qed.

Lemma row_times_dtype_factors (madd : Qc -> Qc -> Qc -> Qc) (ra : sparse_row)
    (B : csr_matrix) (j : nat) :
  row_times_dtype madd ra B j
  = foldl (fun (s : Qc) (p : Qc * Qc) => madd s (fst p) (snd p)) 0%Qc
          (factors ra B j).
Proof.
  unfold row_times_dtype, factors. rewrite foldl_flat_map.
  generalize 0%Qc. induction ra as [|ka ra IH]; intros s; simpl; [done|].
  rewrite <- IH. f_equal. rewrite foldl_flat_map.
  generalize s. induction (csr_row B (fst ka)) as [|jb r IHr]; intros s0;
    simpl; [done|].
  rewrite <- IHr. by destruct (Nat.eqb (fst jb) j).
Qed.

Lemma row_times_factors (ra : sparse_row) (B : csr_matrix) (j : nat) :
  row_times ra B j
  = qsum (map (fun p : Qc * Qc => (fst p * snd p)%Qc) (factors ra B j)).
Proof.
  unfold row_times, factors. induction ra as [|ka ra IH]; simpl; [done|].
  rewrite map_app, qsum_app, <- IH. f_equal.
  unfold get. induction (csr_row B (fst ka)) as [|[c v] r IHr]; simpl; [ring|].
  destruct (Nat.eqb c j); simpl; rewrite <- IHr; ring.
Qed.

Lemma foldl_exact_madd (s : Qc) (l : list (Qc * Qc)) :
  foldl (fun (s : Qc) (p : Qc * Qc) => exact_madd s (fst p) (snd p)) s l
  = (s + qsum (map (fun p : Qc * Qc => (fst p * snd p)%Qc) l))%Qc.
Proof.
  revert s. induction l as [|p l IH]; intros s; simpl; [ring|].
  rewrite IH. unfold exact_madd. ring.
Qed.

Lemma row_times_dtype_exact (ra : sparse_row) (B : csr_matrix) (j : nat) :
  row_times_dtype exact_madd ra B j = row_times ra B j.
Proof.
  rewrite row_times_dtype_factors, row_times_factors, foldl_exact_madd. ring.
Qed.

(** In exact arithmetic the product is [matmul]. *)
Lemma matmul_dtype_exact (A B : csr_matrix) :
  matmul_dtype exact_madd A B = matmul A B.
Proof.
  unfold matmul_dtype, matmul. case_decide; [|done]. do 2 f_equal.
  apply map_ext. intros ra. f_equal. apply map_ext. intros j.
  apply row_times_dtype_exact.
Qed.

Lemma similarity_product (madd : Qc -> Qc -> Qc -> Qc) (t : Qc)
    (A B : csr_matrix) :
  ncols A = nrows B ->
  exists P S,
    matmul_dtype madd A B = Ok P /\ similarity t (nrows A) P = Ok S
    /\ shape S = (nrows A, ncols B) /\ cols_in_range S.
Proof.
  intros Hd. destruct (matmul_dtype madd A B) as [P|e] eqn:HP.
  2:{ unfold matmul_dtype in HP. by rewrite decide_True in HP. }
  exists P. eexists. split; [done|].
  split; [apply (similarity_matmul_dtype madd t A B P HP)|].
  split; [simpl; apply (matmul_dtype_shape madd A B P HP)|].
  apply binarized_in_range. apply (matmul_dtype_in_range madd A B P HP).
Qed.

(** What [mix_Hypergraph] builds from [ub_graph] alone never fails. *)
Lemma mix_Hypergraph_inner (madd : Qc -> Qc -> Qc -> Qc)
    (ub_graph : csr_matrix) (threshold : Qc) :
  exists uu0 bb0 uu bb col1 col2 H_ub,
    matmul_dtype madd ub_graph (transpose ub_graph) = Ok uu0
    /\ similarity threshold (nrows ub_graph) uu0 = Ok uu
    /\ matmul_dtype madd (transpose ub_graph) ub_graph = Ok bb0
    /\ similarity threshold (ncols ub_graph) bb0 = Ok bb
    /\ vstack uu (transpose ub_graph) = Ok col1
    /\ vstack ub_graph bb = Ok col2
    /\ hstack col1 col2 = Ok H_ub
    /\ shape uu = (nrows ub_graph, nrows ub_graph)
    /\ shape bb = (ncols ub_graph, ncols ub_graph)
    /\ shape col1 = (nrows ub_graph + ncols ub_graph, nrows ub_graph)
    /\ shape col2 = (nrows ub_graph + ncols ub_graph, ncols ub_graph)
    /\ shape H_ub = (nrows ub_graph + ncols ub_graph,
                     nrows ub_graph + ncols ub_graph)
    /\ cols_in_range col1
    /\ forall ui_graph bi_graph,
         mix_Hypergraph madd (ui_graph, bi_graph, ub_graph) (Some threshold)
         = (H_i ← vstack ui_graph bi_graph; hstack H_i H_ub).
Proof.
  destruct (similarity_product madd threshold ub_graph (transpose ub_graph))
    as (uu0 & uu & Huu0 & Huu & Suu & Iuu); [done|].
  destruct (similarity_product madd threshold (transpose ub_graph) ub_graph)
    as (bb0 & bb & Hbb0 & Hbb & Sbb & Ibb); [done|].
  change (nrows (transpose ub_graph)) with (ncols ub_graph) in *.
  change (ncols (transpose ub_graph)) with (nrows ub_graph) in *.
  pose proof (shape_nrows _ _ _ Suu) as Ruu. pose proof (shape_ncols _ _ _ Suu) as Cuu.
  pose proof (shape_nrows _ _ _ Sbb) as Rbb. pose proof (shape_ncols _ _ _ Sbb) as Cbb.
  destruct (vstack uu (transpose ub_graph)) as [col1|e] eqn:H1.
  2:{ unfold vstack in H1. rewrite decide_True in H1; [done|].
      by rewrite Cuu. }
  destruct (vstack ub_graph bb) as [col2|e] eqn:H2.
  2:{ unfold vstack in H2. rewrite decide_True in H2; [done|]. by rewrite Cbb. }
  pose proof (vstack_shape _ _ _ H1) as S1. rewrite Ruu, Cuu in S1.
  change (nrows (transpose ub_graph)) with (ncols ub_graph) in S1.
  pose proof (vstack_shape _ _ _ H2) as S2. rewrite Rbb in S2.
  destruct (hstack col1 col2) as [H_ub|e] eqn:H3.
  2:{ rewrite hstack_ok in H3; [done|].
      by rewrite (shape_nrows _ _ _ S1), (shape_nrows _ _ _ S2). }
  pose proof (hstack_shape _ _ _ H3) as S3.
  rewrite (shape_nrows _ _ _ S2), (shape_ncols _ _ _ S1), (shape_ncols _ _ _ S2) in S3.
  exists uu0, bb0, uu, bb, col1, col2, H_ub.
  do 12 (split; [done|]). split.
  - eapply vstack_in_range; [exact H1|done|apply transpose_in_range].
  - intros ui_graph bi_graph. unfold mix_Hypergraph. simpl.
    rewrite Huu0. simpl. rewrite Huu. simpl. rewrite Hbb0. simpl. rewrite Hbb. simpl.
    destruct (vstack ui_graph bi_graph) as [H_i|e]; simpl; [|done].
    rewrite H1. simpl. rewrite H2. simpl. by rewrite H3.
Qed.

(** The two checks that can stop [mix_Hypergraph], and its shape otherwise:
    the item widths must agree, and the item relations must together have
    as many rows as there are users and bundles, or no row at all. *)
Lemma mix_Hypergraph_cases (madd : Qc -> Qc -> Qc -> Qc)
    (ui_graph bi_graph ub_graph : csr_matrix) (threshold : Qc) :
  (ncols ui_graph <> ncols bi_graph ->
     mix_Hypergraph madd (ui_graph, bi_graph, ub_graph) (Some threshold)
     = Raise ValueError)
  /\ (nrows ui_graph + nrows bi_graph <> 0 ->
      nrows ui_graph + nrows bi_graph <> nrows ub_graph + ncols ub_graph ->
       mix_Hypergraph madd (ui_graph, bi_graph, ub_graph) (Some threshold)
       = Raise ValueError)
  /\ (ncols ui_graph = ncols bi_graph ->
       nrows ui_graph + nrows bi_graph = 0
       \/ nrows ui_graph + nrows bi_graph = nrows ub_graph + ncols ub_graph ->
       exists H,
         mix_Hypergraph madd (ui_graph, bi_graph, ub_graph) (Some threshold)
         = Ok H
         /\ shape H = (nrows ub_graph + ncols ub_graph,
                       ncols ui_graph + (nrows ub_graph + ncols ub_graph))).
Proof.
  destruct (mix_Hypergraph_inner madd ub_graph threshold)
    as (uu0 & bb0 & uu & bb & col1 & col2 & H_ub & _ & _ & _ & _ & _ & _ & _
        & _ & _ & _ & _ & Sub & _ & Hmix).
  rewrite Hmix. split; [|split].
  - intros Hne. unfold vstack. by rewrite decide_False.
  - intros H0 Hne. unfold vstack. case_decide; [|done]. simpl.
    apply hstack_cases; simpl; [done|].
    by rewrite (shape_nrows _ _ _ Sub).
  - intros Hc Hr. rewrite vstack_ok by done. simpl.
    destruct (hstack (of_rows (nrows ui_graph + nrows bi_graph, ncols ui_graph)
                        (csr_rows ui_graph ++ csr_rows bi_graph)) H_ub)
      as [H|e] eqn:HH.
    + exists H. split; [done|]. rewrite (hstack_shape _ _ _ HH).
      by rewrite (shape_nrows _ _ _ Sub), (shape_ncols _ _ _ Sub).
    + exfalso. destruct Hr as [Hr|Hr].
      * by rewrite (proj1 (hstack_cases _ _)) in HH.
      * rewrite hstack_ok in HH; [done|].
        simpl. by rewrite (shape_nrows _ _ _ Sub).
Qed.

(** C5: for relations of shapes [U x I], [B x I] and [U x B],
    [mix_Hypergraph] returns [hstack (vstack (ui, bi),
    hstack (vstack (uu, ub.T), vstack (ub, bb)))], where [uu] and [bb] are the
    thresholded products; the result has shape [(U + B) x (I + U + B)] and
    its entries are those of the six blocks, laid out in that order. *)
Theorem mix_Hypergraph_layout (madd : Qc -> Qc -> Qc -> Qc)
    (ui_graph bi_graph ub_graph : csr_matrix) (threshold : Qc) (U B I : nat) :
  shape ui_graph = (U, I) -> shape bi_graph = (B, I) ->
  shape ub_graph = (U, B) ->
  csr_wf ui_graph = true -> csr_wf bi_graph = true ->
  exists uu0 bb0 uu bb H_i col1 col2 H_ub H,
    matmul_dtype madd ub_graph (transpose ub_graph) = Ok uu0
    /\ similarity threshold U uu0 = Ok uu
    /\ matmul_dtype madd (transpose ub_graph) ub_graph = Ok bb0
    /\ similarity threshold B bb0 = Ok bb
    /\ vstack ui_graph bi_graph = Ok H_i
    /\ vstack uu (transpose ub_graph) = Ok col1
    /\ vstack ub_graph bb = Ok col2
    /\ hstack col1 col2 = Ok H_ub
    /\ hstack H_i H_ub = Ok H
    /\ mix_Hypergraph madd (ui_graph, bi_graph, ub_graph) (Some threshold)
       = Ok H
    /\ shape H_i = (U + B, I)
    /\ shape H_ub = (U + B, U + B)
    /\ shape H = (U + B, I + (U + B))
    /\ forall r c, r < U + B -> c < I + (U + B) ->
         get H r c =
           if decide (c < I) then
             if decide (r < U) then get ui_graph r c
             else get bi_graph (r - U) c
           else if decide (c < I + U) then
             if decide (r < U) then get uu r (c - I)
             else get ub_graph (c - I) (r - U)
           else
             if decide (r < U) then get ub_graph r (c - I - U)
             else get bb (r - U) (c - I - U).
Proof.
  intros Sui Sbi Sub Wui Wbi.
  pose proof (shape_nrows _ _ _ Sui) as Rui. pose proof (shape_ncols _ _ _ Sui) as Cui.
  pose proof (shape_nrows _ _ _ Sbi) as Rbi. pose proof (shape_ncols _ _ _ Sbi) as Cbi.
  pose proof (shape_nrows _ _ _ Sub) as Rub. pose proof (shape_ncols _ _ _ Sub) as Cub.
  destruct (mix_Hypergraph_inner madd ub_graph threshold)
    as (uu0 & bb0 & uu & bb & col1 & col2 & H_ub & Huu0 & Huu & Hbb0 & Hbb
        & Hcol1 & Hcol2 & HHub & Suu & Sbb & Sc1 & Sc2 & SHub & Il & Hmix).
  rewrite Rub, Cub in *.
  destruct (vstack ui_graph bi_graph) as [H_i|e] eqn:HHi.
  2:{ unfold vstack in HHi. rewrite decide_True in HHi; [done|congruence]. }
  pose proof (vstack_shape _ _ _ HHi) as SHi. rewrite Rui, Rbi, Cui in SHi.
  destruct (hstack H_i H_ub) as [H|e] eqn:HH.
  2:{ rewrite hstack_ok in HH; [done|].
      by rewrite (shape_nrows _ _ _ SHi), (shape_nrows _ _ _ SHub). }
  pose proof (hstack_shape _ _ _ HH) as SH.
  rewrite (shape_nrows _ _ _ SHub), (shape_ncols _ _ _ SHi),
    (shape_ncols _ _ _ SHub) in SH.
  exists uu0, bb0, uu, bb, H_i, col1, col2, H_ub, H.
  do 9 (split; [done|]).
  split; [by rewrite Hmix, HHi|].
  do 3 (split; [done|]).
  intros r c Hr Hc.
  assert (cols_in_range H_i) as IHi
    by (eapply vstack_in_range; [exact HHi| |]; by apply csr_wf_in_range).
  rewrite (hstack_get _ _ _ _ _ HH IHi)
    by (rewrite (shape_nrows _ _ _ SHi); lia).
  rewrite (shape_ncols _ _ _ SHi).
  destruct (decide (c < I)).
  - rewrite (vstack_get _ _ _ _ _ HHi) by lia. by rewrite Rui.
  - rewrite (hstack_get _ _ _ _ _ HHub Il)
      by (rewrite (shape_nrows _ _ _ Sc1); lia).
    rewrite (shape_ncols _ _ _ Sc1).
    destruct (decide (c < I + U)).
    + rewrite decide_True by lia.
      rewrite (vstack_get _ _ _ _ _ Hcol1)
        by (rewrite (shape_nrows _ _ _ Suu); simpl;
            change (nrows (transpose ub_graph)) with (ncols ub_graph); lia).
      rewrite (shape_nrows _ _ _ Suu).
      destruct (decide (r < U)); [done|].
      apply transpose_get; lia.
    + rewrite decide_False by lia.
      rewrite (vstack_get _ _ _ _ _ Hcol2)
        by (rewrite (shape_nrows _ _ _ Sbb); lia).
      by rewrite Rub.
Qed.

(** ** Degrees *)

Lemma qsum_nonneg (xs : list Qc) :
  Forall (fun x => (0 <= x)%Qc) xs -> (0 <= qsum xs)%Qc.
Proof.
  induction 1 as [|x xs Hx _ IH]; simpl; [done|].
  by apply Qcplus_nonneg_nonneg.
Qed.

Lemma row_get_nonneg (r : sparse_row) (j : nat) :
  Forall (fun cv : nat * Qc => (0 <= snd cv)%Qc) r -> (0 <= row_get r j)%Qc.
Proof.
  induction 1 as [|[c v] r Hv _ IH]; simpl; [done|].
  destruct (Nat.eqb c j); [by apply Qcplus_nonneg_nonneg|done].
Qed.

Lemma slice_elem_of {A : Type} (lo hi : nat) (l : list A) (x : A) :
  x ∈ slice lo hi l -> x ∈ l.
Proof.
  unfold slice. intros Hx. apply elem_of_take in Hx as (k & Hk & _).
  rewrite lookup_drop in Hk. by eapply list_elem_of_lookup_2.
Qed.

Lemma csr_row_nonneg (M : csr_matrix) (i : nat) :
  Forall (fun x => (0 <= x)%Qc) (data M) ->
  Forall (fun cv : nat * Qc => (0 <= snd cv)%Qc) (csr_row M i).
Proof.
  intros Hd. apply Forall_forall. intros [c v] Hcv. simpl.
  rewrite Forall_forall in Hd. apply Hd.
  unfold csr_row in Hcv. apply elem_of_zip_r in Hcv.
  by eapply slice_elem_of.
Qed.

Lemma sum_axis1_nth (M : csr_matrix) (i : nat) :
  cols_in_range M -> i < nrows M ->
  nth i (sum_axis1 M) 0%Qc = qsum_range (ncols M) (fun k => get M i k).
Proof.
  intros HM Hi. unfold sum_axis1, csr_rows. rewrite map_map, nth_map_seq by done.
  pose proof (row_sum_by_column (ncols M) (csr_row M i) (fun _ => 1%Qc)
                (cols_in_range_row M i HM Hi)) as H.
  etrans; [|etrans; [exact H|]].
  - f_equal. apply map_ext. intros [c v]. simpl. ring.
  - apply qsum_range_ext. intros k _. unfold get. ring.
Qed.

Lemma sum_axis0_nth (M : csr_matrix) (k : nat) :
  k < ncols M ->
  nth k (sum_axis0 M) 0%Qc = qsum_range (nrows M) (fun i => get M i k).
Proof.
  intros Hk. unfold sum_axis0. rewrite nth_map_seq by done.
  unfold csr_rows, qsum_range. by rewrite map_map.
Qed.

Lemma sum_axis1_length (M : csr_matrix) : length (sum_axis1 M) = nrows M.
Proof. unfold sum_axis1. by rewrite length_map, csr_rows_length. Qed.

Lemma sum_axis0_length (M : csr_matrix) : length (sum_axis0 M) = ncols M.
Proof. unfold sum_axis0. by rewrite length_map, length_seq. Qed.

Lemma inv_sqrt_deg_nth (np_sqrt : Qc -> Qc) (d : list Qc) (i : nat) :
  i < length d ->
  nth i (inv_sqrt_deg np_sqrt d) 0%Qc = (1 / (np_sqrt (nth i d 0) + eps))%Qc.
Proof.
  intros Hi. unfold inv_sqrt_deg.
  rewrite (nth_indep _ 0%Qc ((fun x => 1 / (np_sqrt x + eps)) 0)%Qc)
    by (by rewrite length_map).
  by rewrite (map_nth (fun x => 1 / (np_sqrt x + eps))%Qc).
Qed.

Lemma inv_sqrt_deg_length (np_sqrt : Qc -> Qc) (d : list Qc) :
  length (inv_sqrt_deg np_sqrt d) = length d.
Proof. unfold inv_sqrt_deg. apply length_map. Qed.

Lemma eps_pos : (0 < eps)%Qc.
Proof. reflexivity. Qed.

Lemma qsum_range_nonneg (n : nat) (f : nat -> Qc) :
  (forall k, k < n -> (0 <= f k)%Qc) -> (0 <= qsum_range n f)%Qc.
Proof.
  intros Hf. unfold qsum_range. apply qsum_nonneg, Forall_forall.
  intros x Hx. apply list_elem_of_In, in_map_iff in Hx as (k & <- & Hk).
  apply in_seq in Hk. apply Hf. lia.
Qed.

(** The chain of products of the normaliser is always defined. *)
Lemma normalize_HyperGraph_chain (np_sqrt : Qc -> Qc) (H : csr_matrix) :
  let dv := inv_sqrt_deg np_sqrt (sum_axis1 H) in
  let de := inv_sqrt_deg np_sqrt (sum_axis0 H) in
  exists m1 m2 m3 N,
    matmul (diags dv) H = Ok m1
    /\ matmul m1 (diags de) = Ok m2
    /\ matmul m2 (transpose H) = Ok m3
    /\ matmul m3 (diags dv) = Ok N
    /\ shape m1 = (nrows H, ncols H)
    /\ shape m2 = (nrows H, ncols H)
    /\ shape m3 = (nrows H, nrows H)
    /\ shape N = (nrows H, nrows H)
    /\ normalize_HyperGraph np_sqrt H = Ok N.
Proof.
  intros dv de.
  assert (length dv = nrows H) as Ldv
    by (unfold dv; by rewrite inv_sqrt_deg_length, sum_axis1_length).
  assert (length de = ncols H) as Lde
    by (unfold de; by rewrite inv_sqrt_deg_length, sum_axis0_length).
  destruct (matmul (diags dv) H) as [m1|e] eqn:H1.
  2:{ unfold matmul in H1. rewrite decide_True in H1; [done|].
      unfold ncols. by rewrite diags_shape. }
  pose proof (matmul_shape _ _ _ H1) as S1.
  unfold nrows at 1 in S1. rewrite diags_shape in S1. simpl in S1. rewrite Ldv in S1.
  destruct (matmul m1 (diags de)) as [m2|e] eqn:H2.
  2:{ unfold matmul in H2. rewrite decide_True in H2; [done|].
      rewrite (shape_ncols _ _ _ S1). unfold nrows. by rewrite diags_shape. }
  pose proof (matmul_shape _ _ _ H2) as S2.
  rewrite (shape_nrows _ _ _ S1) in S2. unfold ncols at 1 in S2.
  rewrite diags_shape in S2. simpl in S2. rewrite Lde in S2.
  destruct (matmul m2 (transpose H)) as [m3|e] eqn:H3.
  2:{ unfold matmul in H3. rewrite decide_True in H3; [done|].
      by rewrite (shape_ncols _ _ _ S2). }
  pose proof (matmul_shape _ _ _ H3) as S3.
  rewrite (shape_nrows _ _ _ S2) in S3.
  change (ncols (transpose H)) with (nrows H) in S3.
  destruct (matmul m3 (diags dv)) as [N|e] eqn:H4.
  2:{ unfold matmul in H4. rewrite decide_True in H4; [done|].
      rewrite (shape_ncols _ _ _ S3). unfold nrows. by rewrite diags_shape. }
  pose proof (matmul_shape _ _ _ H4) as S4.
  rewrite (shape_nrows _ _ _ S3) in S4. unfold ncols at 1 in S4.
  rewrite diags_shape in S4. simpl in S4. rewrite Ldv in S4.
  exists m1, m2, m3, N. do 8 (split; [done|]).
  unfold normalize_HyperGraph. fold dv de. rewrite H1. simpl. rewrite H2. simpl.
  rewrite H3. simpl. by rewrite H4.
Qed.


(** C3: for a well-formed [H] with non-negative entries, the normaliser
    returns the square matrix whose entry [(i, j)] is
    [Dv i * (sum over k of H[i,k] * De k * H[j,k]) * Dv j], with
    [Dv i = 1 / (sqrt (row sum i) + 1e-8)] and
    [De k = 1 / (sqrt (column sum k) + 1e-8)]; every denominator is
    positive, so nothing is divided by zero, whatever the degrees. *)
Theorem normalize_HyperGraph_formula (np_sqrt : Qc -> Qc) (H : csr_matrix) :
  (forall x, (0 <= x)%Qc -> (0 <= np_sqrt x)%Qc) ->
  csr_wf H = true ->
  Forall (fun x => (0 <= x)%Qc) (data H) ->
  let d_v := fun i => qsum_range (ncols H) (fun k => get H i k) in
  let d_e := fun k => qsum_range (nrows H) (fun i => get H i k) in
  let Dv := fun i => (1 / (np_sqrt (d_v i) + eps))%Qc in
  let De := fun k => (1 / (np_sqrt (d_e k) + eps))%Qc in
  eps = Q2Qc (1 # 100000000)
  /\ exists N,
       normalize_HyperGraph np_sqrt H = Ok N
       /\ shape N = (nrows H, nrows H)
       /\ (forall i j, i < nrows H -> j < nrows H ->
             get N i j
             = (Dv i
                * qsum_range (ncols H)
                    (fun k => (get H i k * De k * get H j k)%Qc)
                * Dv j)%Qc)
       /\ (forall i, i < nrows H -> (0 < np_sqrt (d_v i) + eps)%Qc)
       /\ (forall k, k < ncols H -> (0 < np_sqrt (d_e k) + eps)%Qc).
Proof.
  intros Hsqrt Hwf Hpos d_v d_e Dv De. split; [done|].
  pose proof (csr_wf_in_range H Hwf) as Hin.
  set (dv := inv_sqrt_deg np_sqrt (sum_axis1 H)).
  set (de := inv_sqrt_deg np_sqrt (sum_axis0 H)).
  assert (length dv = nrows H) as Ldv
    by (unfold dv; by rewrite inv_sqrt_deg_length, sum_axis1_length).
  assert (length de = ncols H) as Lde
    by (unfold de; by rewrite inv_sqrt_deg_length, sum_axis0_length).
  assert (forall i, i < nrows H -> nth i dv 0%Qc = Dv i) as Edv.
  { intros i Hi. unfold dv. rewrite inv_sqrt_deg_nth by (by rewrite sum_axis1_length).
    unfold Dv, d_v. by rewrite sum_axis1_nth. }
  assert (forall k, k < ncols H -> nth k de 0%Qc = De k) as Ede.
  { intros k Hk. unfold de. rewrite inv_sqrt_deg_nth by (by rewrite sum_axis0_length).
    unfold De, d_e. by rewrite sum_axis0_nth. }
  destruct (normalize_HyperGraph_chain np_sqrt H)
    as (m1 & m2 & m3 & N & H1 & H2 & H3 & H4 & S1 & S2 & S3 & S4 & HN).
  fold dv de in H1, H2, H4.
  exists N. split; [done|].
  split; [done|]. split.
  - intros i j Hi Hj.
    rewrite (diags_right_get _ _ _ _ _ H4)
      by (rewrite ?(shape_nrows _ _ _ S3), ?Ldv; done).
    rewrite (Edv j Hj).
    rewrite (matmul_get _ _ _ _ _ H3)
      by (rewrite ?(shape_nrows _ _ _ S2); done).
    unfold row_times.
    rewrite (qsum_map_ext _ (fun ka : nat * Qc => (snd ka * get H j (fst ka))%Qc)).
    2:{ intros [c a] Hca. simpl. f_equal. apply transpose_get; [|done].
        pose proof (cols_in_range_row m2 i (matmul_in_range _ _ _ H2)) as Hr.
        rewrite (shape_nrows _ _ _ S2), (shape_ncols _ _ _ S2) in Hr.
        specialize (Hr Hi). unfold row_in_range in Hr. rewrite Forall_forall in Hr.
        apply (Hr _ Hca). }
    rewrite (row_sum_by_column (ncols H)).
    2:{ pose proof (cols_in_range_row m2 i (matmul_in_range _ _ _ H2)) as Hr.
        rewrite (shape_nrows _ _ _ S2), (shape_ncols _ _ _ S2) in Hr. by apply Hr. }
    f_equal. rewrite <- qsum_range_scale_l. apply qsum_range_ext. intros k Hk.
    change (row_get (csr_row m2 i) k) with (get m2 i k).
    rewrite (diags_right_get _ _ _ _ _ H2)
      by (rewrite ?(shape_nrows _ _ _ S1), ?Lde; done).
    rewrite (diags_left_get _ _ _ _ _ H1) by (rewrite ?Ldv; done).
    rewrite (Edv i Hi), (Ede k Hk). ring.
  - assert (forall i k, (0 <= get H i k)%Qc) as Hget
      by (intros i k; apply row_get_nonneg, csr_row_nonneg, Hpos).
    split.
    + intros i Hi. apply Qcplus_nonneg_pos; [|apply eps_pos].
      apply Hsqrt, qsum_range_nonneg. intros k _. apply Hget.
    + intros k Hk. apply Qcplus_nonneg_pos; [|apply eps_pos].
      apply Hsqrt, qsum_range_nonneg. intros i _. apply Hget.
Qed.

(** ** Construction of the model *)


Lemma bind_Ok {A B : Type} (a : A) (f : A -> result B) : Ok a ≫= f = f a.
Proof. reflexivity. Qed.

Lemma bind_Ok_inv {A B : Type} (m : result A) (f : A -> result B) (b : B) :
  m ≫= f = Ok b -> exists a, m = Ok a /\ f a = Ok b.
Proof. destruct m as [a|e]; [|done]. intros H. by exists a. Qed.

Lemma kwarg_threshold (madd : Qc -> Qc -> Qc -> Qc) (raw : raw_graph) :
  mix_Hypergraph madd raw None = mix_Hypergraph madd raw (Some (Q2Qc 10)).
Proof. reflexivity. Qed.

Lemma sqrt_approx_nonneg (x : Qc) : (0 <= sqrt_approx x)%Qc.
Proof.
  unfold sqrt_approx. set (z := Z.sqrt _).
  assert (0 <= z)%Z as Hz by apply Z.sqrt_nonneg.
  unfold Qcle. change (0 <= Qred (z # 100000000))%Q.
  rewrite Qred_correct. unfold Qle. simpl. lia.
Qed.

(** Once the incidence structure is built, only the embedding size and the
    dropout probability can stop the constructor. *)
Lemma init_ok_of_mix (madd : Qc -> Qc -> Qc -> Qc) (np_sqrt : Qc -> Qc)
    (randn : nat -> Qc) (raw : raw_graph) (dev : device) (dp l2_norm : Qc)
    (emb_size : option nat) (H : csr_matrix) :
  mix_Hypergraph madd raw None = Ok H ->
  kwarg 64 emb_size <> 0 -> (0 <= dp)%Qc -> (dp <= 1)%Qc ->
  is_ok (SCHBR.init madd np_sqrt randn raw dev dp l2_norm emb_size) = true.
Proof.
  intros HH Hemb Hdp0 Hdp1. destruct raw as [[ui_graph bi_graph] ub_graph].
  unfold SCHBR.init.
  destruct (normalize_HyperGraph_chain np_sqrt H)
    as (m1 & m2 & m3 & N & _ & _ & _ & _ & _ & _ & _ & _ & HN).
  rewrite HH, bind_Ok, HN, bind_Ok.
  change (Split_HyperGraph N dev None) with (Split_HyperGraph N dev (Some 16)).
  rewrite Split_HyperGraph_blocks, bind_Ok by lia.
  rewrite decide_False, bind_Ok by done.
  unfold Dropout. rewrite decide_False by (by apply Qcle_not_lt).
  by rewrite decide_False by (by apply Qcle_not_lt).
Qed.

(** C10: the constructor has no threshold parameter and calls
    [mix_Hypergraph] without one, so the similarity relations are built with
    the default threshold 10 whatever the device, dropout, l2 and embedding
    size are: an error of [mix_Hypergraph raw 10] is the error of the
    constructor, and a model that is built holds the partition of the
    normalised [mix_Hypergraph raw 10]. *)
Theorem init_threshold_is_10 (madd : Qc -> Qc -> Qc -> Qc)
    (np_sqrt : Qc -> Qc) (randn : nat -> Qc) (raw : raw_graph) (dev : device) (dp l2_norm : Qc) (emb_size : option nat) :
  mix_Hypergraph madd raw None = mix_Hypergraph madd raw (Some (Q2Qc 10))
  /\ (forall e, mix_Hypergraph madd raw (Some (Q2Qc 10)) = Raise e ->
        SCHBR.init madd np_sqrt randn raw dev dp l2_norm emb_size = Raise e)
  /\ (forall self,
        SCHBR.init madd np_sqrt randn raw dev dp l2_norm emb_size = Ok self ->
        exists H normalized,
          mix_Hypergraph madd raw (Some (Q2Qc 10)) = Ok H
          /\ normalize_HyperGraph np_sqrt H = Ok normalized
          /\ Split_HyperGraph normalized dev (Some 16)
             = Ok (SCHBR.atom_graph self))
  /\ (forall H,
        mix_Hypergraph madd raw (Some (Q2Qc 10)) = Ok H ->
        kwarg 64 emb_size <> 0 -> (0 <= dp)%Qc -> (dp <= 1)%Qc ->
        exists self,
          SCHBR.init madd np_sqrt randn raw dev dp l2_norm emb_size
          = Ok self).
Proof.
  split; [reflexivity|].
  destruct raw as [[ui_graph bi_graph] ub_graph].
  unfold SCHBR.init. rewrite kwarg_threshold.
  split; [|split].
  - intros e He. by rewrite He.
  - intros self Hinit.
    apply bind_Ok_inv in Hinit as (H & HH & Hinit).
    apply bind_Ok_inv in Hinit as (N & HN & Hinit).
    apply bind_Ok_inv in Hinit as (atom & Hatom & Hinit).
    apply bind_Ok_inv in Hinit as (std & _ & Hinit).
    apply bind_Ok_inv in Hinit as (p & _ & Hinit).
    injection Hinit as <-. by exists H, N.
  - intros H HH Hemb Hdp0 Hdp1.
    destruct (normalize_HyperGraph_chain np_sqrt H)
      as (m1 & m2 & m3 & N & _ & _ & _ & _ & _ & _ & _ & _ & HN).
    rewrite HH, bind_Ok, HN, bind_Ok.
    change (Split_HyperGraph N dev None) with (Split_HyperGraph N dev (Some 16)).
    rewrite Split_HyperGraph_blocks, bind_Ok by lia.
    rewrite decide_False, bind_Ok by done.
    unfold Dropout. rewrite decide_False by (by apply Qcle_not_lt).
    rewrite decide_False by (by apply Qcle_not_lt). rewrite bind_Ok. by eexists.
Qed.

Lemma mix_Hypergraph_kwarg (madd : Qc -> Qc -> Qc -> Qc) (raw : raw_graph)
    (threshold : option Qc) :
  mix_Hypergraph madd raw threshold
  = mix_Hypergraph madd raw (Some (kwarg (Q2Qc 10) threshold)).
Proof. by destruct threshold. Qed.

(** C7 as stated fails: on two users, two bundles and two items the
    normalised operator is [4 x 4], not [6 x 8]. *)
Lemma normalized_operator_not_rectangular :
  exists H N,
    shape ui_2x2 = (2, 2) /\ shape bi_2x2 = (2, 2) /\ shape ub_2x2 = (2, 2)
    /\ mix_Hypergraph exact_madd (ui_2x2, bi_2x2, ub_2x2) None = Ok H
    /\ normalize_HyperGraph sqrt_approx H = Ok N
    /\ shape N = (4, 4)
    /\ shape N <> (2 + 2 + 2, 2 + 2 + 2 + 2).
Proof.
  destruct (mix_Hypergraph exact_madd (ui_2x2, bi_2x2, ub_2x2) None)
    as [H|e] eqn:HH;
    [|by vm_compute in HH].
  destruct (normalize_HyperGraph_chain sqrt_approx H)
    as (m1 & m2 & m3 & N & _ & _ & _ & _ & _ & _ & _ & SN & HN).
  exists H, N. do 5 (split; [done|]).
  assert (nrows H = 4) as Hn.
  { revert HH. vm_compute. by intros [= <-]. }
  rewrite SN, Hn. split; [done|]. by intros [=].
Qed.

(** C7, amended: for relations of shapes [U x I], [B x I] and [U x B] the
    incidence structure is [(U + B) x (I + U + B)] and the normalised
    operator built from it is square, [(U + B) x (U + B)]. *)
Theorem normalized_operator_square (madd : Qc -> Qc -> Qc -> Qc)
    (np_sqrt : Qc -> Qc) (ui_graph bi_graph ub_graph : csr_matrix)
    (threshold : option Qc) (U B I : nat) :
  shape ui_graph = (U, I) -> shape bi_graph = (B, I) ->
  shape ub_graph = (U, B) ->
  exists H N,
    mix_Hypergraph madd (ui_graph, bi_graph, ub_graph) threshold = Ok H
    /\ shape H = (U + B, I + (U + B))
    /\ normalize_HyperGraph np_sqrt H = Ok N
    /\ shape N = (U + B, U + B).
Proof.
  intros Sui Sbi Sub.
  destruct (mix_Hypergraph_cases madd ui_graph bi_graph ub_graph
              (kwarg (Q2Qc 10) threshold)) as (_ & _ & Hok).
  rewrite (shape_nrows _ _ _ Sui), (shape_ncols _ _ _ Sui),
    (shape_nrows _ _ _ Sbi), (shape_ncols _ _ _ Sbi),
    (shape_nrows _ _ _ Sub), (shape_ncols _ _ _ Sub) in Hok.
  destruct Hok as (H & HH & SH); [done|by right|].
  destruct (normalize_HyperGraph_chain np_sqrt H)
    as (m1 & m2 & m3 & N & _ & _ & _ & _ & _ & _ & _ & SN & HN).
  exists H, N. rewrite mix_Hypergraph_kwarg.
  rewrite (shape_nrows _ _ _ SH) in SN. done.
Qed.

Lemma normalized_operator_square_witness :
  exists H N,
    mix_Hypergraph exact_madd (ui_2x2, bi_2x2, ub_2x2) None = Ok H
    /\ shape H = (2 + 2, 2 + (2 + 2))
    /\ normalize_HyperGraph sqrt_approx H = Ok N
    /\ shape N = (2 + 2, 2 + 2).
Proof.
  apply (normalized_operator_square exact_madd sqrt_approx
           ui_2x2 bi_2x2 ub_2x2 None 2 2 2);
    reflexivity.
Defined.

(** C8 as stated fails: a user-item relation of two rows and a bundle-item
    relation of one row are accepted together with a user-bundle relation of
    one user and two bundles, and the model is built. *)
Lemma mismatched_rows_accepted :
  nrows ui_2x1 <> nrows ub_1x2
  /\ nrows bi_1x1 <> ncols ub_1x2
  /\ is_ok (SCHBR.init exact_madd sqrt_approx draws (ui_2x1, bi_1x1, ub_1x2)
                       "cpu" 0%Qc 1%Qc (Some 1)) = true.
Proof.
  split; [by vm_compute|]. split; [by vm_compute|]. by vm_compute.
Qed.

(** C8, amended: the constructor raises [ValueError], whatever its other
    arguments, when the item-column counts of the user-item and bundle-item
    relations differ, or when these two relations have a row between them
    and their row counts do not add up to the number of users plus the
    number of bundles of the user-bundle relation.  There is no other
    dimension check: when the item widths agree and the row counts add up,
    or the item relations have no row at all, the incidence structure is
    built, and with it the model for a non-zero embedding size and a
    dropout probability in [[0, 1]]. *)
Theorem init_dimension_errors (madd : Qc -> Qc -> Qc -> Qc)
    (np_sqrt : Qc -> Qc) (randn : nat -> Qc)
    (ui_graph bi_graph ub_graph : csr_matrix) (dev : device)
    (dp l2_norm : Qc) (emb_size : option nat) :
  (ncols ui_graph <> ncols bi_graph
   \/ (nrows ui_graph + nrows bi_graph <> 0
       /\ nrows ui_graph + nrows bi_graph
          <> nrows ub_graph + ncols ub_graph) ->
   SCHBR.init madd np_sqrt randn (ui_graph, bi_graph, ub_graph)
              dev dp l2_norm emb_size
   = Raise ValueError)
  /\ (ncols ui_graph = ncols bi_graph ->
      nrows ui_graph + nrows bi_graph = 0
      \/ nrows ui_graph + nrows bi_graph = nrows ub_graph + ncols ub_graph ->
      is_ok (mix_Hypergraph madd (ui_graph, bi_graph, ub_graph) None) = true
      /\ (kwarg 64 emb_size <> 0 -> (0 <= dp)%Qc -> (dp <= 1)%Qc ->
          is_ok (SCHBR.init madd np_sqrt randn (ui_graph, bi_graph, ub_graph)
                            dev dp l2_norm emb_size) = true)).
Proof.
  destruct (mix_Hypergraph_cases madd ui_graph bi_graph ub_graph (Q2Qc 10))
    as (Hc & Hr & Hok).
  split.
  - intros Hbad. unfold SCHBR.init. rewrite kwarg_threshold.
    destruct Hbad as [Hbad|[H0 Hbad]];
      [rewrite (Hc Hbad)|rewrite (Hr H0 Hbad)]; done.
  - intros H1 H2. destruct (Hok H1 H2) as (H & HH & _).
    rewrite <- kwarg_threshold in HH. split; [by rewrite HH|].
    intros Hemb Hdp0 Hdp1.
    by apply (init_ok_of_mix madd np_sqrt randn _ dev dp l2_norm emb_size H).
Qed.

Lemma init_dimension_errors_witness :
  SCHBR.init exact_madd sqrt_approx draws (ui_2x2, bi_2x3, ub_2x2)
             "cpu" 0%Qc 1%Qc None
  = Raise ValueError
  /\ is_ok (SCHBR.init exact_madd sqrt_approx draws (ui_0x1, bi_0x1, ub_1x1)
                       "cpu" 0%Qc 1%Qc None) = true.
Proof.
  split.
  - apply (init_dimension_errors exact_madd sqrt_approx draws
             ui_2x2 bi_2x3 ub_2x2 "cpu" 0%Qc 1%Qc None).
    left. by vm_compute.
  - apply (init_dimension_errors exact_madd sqrt_approx draws
             ui_0x1 bi_0x1 ub_1x1 "cpu" 0%Qc 1%Qc None).
    + reflexivity.
    + left. reflexivity.
    + simpl. lia.
    + by vm_compute.
    + by vm_compute.
Defined.

(** ** What the constructor guarantees *)

Lemma mix_Hypergraph_ok_shape (madd : Qc -> Qc -> Qc -> Qc)
    (ui_graph bi_graph ub_graph H : csr_matrix) (threshold : Qc) :
  mix_Hypergraph madd (ui_graph, bi_graph, ub_graph) (Some threshold) = Ok H ->
  shape H = (nrows ub_graph + ncols ub_graph,
             ncols ui_graph + (nrows ub_graph + ncols ub_graph)).
Proof.
  intros HH.
  destruct (mix_Hypergraph_cases madd ui_graph bi_graph ub_graph threshold)
    as (Hc & Hr & Hok).
  destruct (decide (ncols ui_graph = ncols bi_graph)) as [Ec|Nc];
    [|rewrite (Hc Nc) in HH; done].
  destruct (decide (nrows ui_graph + nrows bi_graph = 0)) as [E0|N0].
  { destruct (Hok Ec (or_introl E0)) as (H' & HH' & SH). congruence. }
  destruct (decide (nrows ui_graph + nrows bi_graph
                    = nrows ub_graph + ncols ub_graph)) as [Er|Nr];
    [|rewrite (Hr N0 Nr) in HH; done].
  destruct (Hok Ec (or_intror Er)) as (H' & HH' & SH). congruence.
Qed.

Lemma normal_wf (sh : nat * nat) (std : Qc) (randn : nat -> Qc) (off : nat) :
  tensor_wf (normal_ sh std randn off).
Proof.
  split; simpl; [by rewrite length_map, length_seq|].
  apply Forall_fmap, Forall_forall. intros i _. simpl.
  by rewrite length_map, length_seq.
Qed.

(** A model that was built has a square operator of [U + B] rows behind its
    16 blocks and tables of [U] and [B] rows of the embedding size. *)
Lemma init_model_shapes (madd : Qc -> Qc -> Qc -> Qc) (np_sqrt : Qc -> Qc)
    (randn : nat -> Qc) (raw : raw_graph) (dev : device) (dp l2_norm : Qc)
    (emb_size : option nat) (self : SCHBR.t) :
  SCHBR.init madd np_sqrt randn raw dev dp l2_norm emb_size = Ok self ->
  let U := SCHBR.num_users self in
  let B := SCHBR.num_bundles self in
  let d := kwarg 64 emb_size in
  exists N,
    Split_HyperGraph N dev (Some 16) = Ok (SCHBR.atom_graph self)
    /\ shape N = (U + B, U + B)
    /\ tensor_wf (SCHBR.users_feature self)
    /\ tshape (SCHBR.users_feature self) = (U, d)
    /\ tensor_wf (SCHBR.bundles_feature self)
    /\ tshape (SCHBR.bundles_feature self) = (B, d)
    /\ tshape (SCHBR.user_bound self) = (d, 1).
Proof.
  destruct raw as [[ui_graph bi_graph] ub_graph].
  unfold SCHBR.init. rewrite kwarg_threshold. intros Hinit.
  apply bind_Ok_inv in Hinit as (H & HH & Hinit).
  apply bind_Ok_inv in Hinit as (N & HN & Hinit).
  apply bind_Ok_inv in Hinit as (atom & Hatom & Hinit).
  apply bind_Ok_inv in Hinit as (std & _ & Hinit).
  apply bind_Ok_inv in Hinit as (p & _ & Hinit).
  injection Hinit as <-. simpl.
  destruct (normalize_HyperGraph_chain np_sqrt H)
    as (m1 & m2 & m3 & N' & _ & _ & _ & _ & _ & _ & _ & SN & HN').
  rewrite HN in HN'. injection HN' as <-.
  rewrite (shape_nrows _ _ _ (mix_Hypergraph_ok_shape _ _ _ _ _ _ HH)) in SN.
  exists N. split; [exact Hatom|]. split; [exact SN|].
  split; [apply normal_wf|]. split; [done|].
  split; [apply normal_wf|]. done.
Qed.

(** ** Dense tensors *)

Lemma py_index_in_range (n : nat) (i : Z) :
  (0 <= i < Z.of_nat n)%Z -> py_index n i = Ok (Z.to_nat i).
Proof. intros Hi. unfold py_index. by rewrite decide_True. Qed.

Lemma select_row_in_range (t : tensor) (i : Z) :
  (0 <= i < Z.of_nat (fst (tshape t)))%Z ->
  select_row t i = Ok (nth (Z.to_nat i) (trows t) []).
Proof. intros Hi. unfold select_row. by rewrite py_index_in_range. Qed.

Lemma index_select_in_range (t : tensor) (idx : list Z) :
  Forall (fun i => (0 <= i < Z.of_nat (fst (tshape t)))%Z) idx ->
  index_select t idx
  = Ok (mkTensor (length idx, snd (tshape t))
                 (map (fun i => nth (Z.to_nat i) (trows t) []) idx)).
Proof.
  intros Hidx. unfold index_select.
  rewrite (comprehension_ok _ (fun i => nth (Z.to_nat i) (trows t) [])); [done|].
  intros i Hi. rewrite Forall_forall in Hidx. by apply select_row_in_range, Hidx.
Qed.

Lemma tensor_wf_row (t : tensor) (i : nat) :
  tensor_wf t -> i < fst (tshape t) ->
  length (nth i (trows t) []) = snd (tshape t).
Proof.
  intros [Hlen Hrows] Hi. rewrite Forall_forall in Hrows. apply Hrows.
  apply list_elem_of_In, nth_In. lia.
Qed.

Lemma qsum_imap_dot (x y : list Qc) :
  qsum (imap (fun k a => (a * nth k y 0)%Qc) x) = dot x y.
Proof.
  unfold dot. revert y. induction x as [|a x IH]; intros y; simpl; [done|].
  destruct y as [|b y]; simpl.
  - rewrite qsum_zero; [ring|]. apply Forall_forall. intros v Hv.
    apply list_elem_of_lookup in Hv as (k & Hk).
    rewrite list_lookup_imap in Hk. destruct (x !! k); simpl in Hk; [|done].
    injection Hk as <-. simpl. ring.
  - rewrite <- IH. reflexivity.
Qed.

Lemma ttranspose_get (t : tensor) (k b : nat) :
  k < snd (tshape t) -> b < length (trows t) ->
  tget (ttranspose t) k b = nth k (nth b (trows t) []) 0%Qc.
Proof.
  intros Hk Hb. unfold tget, ttranspose. simpl.
  rewrite nth_map_seq by done.
  rewrite (nth_indep _ 0%Qc ((fun r => nth k r 0%Qc) [])) by (by rewrite length_map).
  by rewrite (map_nth (fun r => nth k r 0%Qc)).
Qed.

Lemma dot_col_transpose (r : list Qc) (t : tensor) (b : nat) :
  length r = snd (tshape t) -> b < length (trows t) ->
  dot_col r (ttranspose t) b = dot r (nth b (trows t) []).
Proof.
  intros Hr Hb. unfold dot_col. rewrite <- qsum_imap_dot. f_equal.
  apply imap_ext. intros k a Hk. f_equal.
  apply ttranspose_get; [|done]. rewrite <- Hr. by eapply lookup_lt_Some.
Qed.

(** C9: for feature tables of [U] and [B] rows of the same width and user
    indices in range, [evaluate] returns a [len(users) x B] matrix whose
    entry [(k, b)] is the dot product of the feature row of user
    [users[k]] with the feature row of bundle [b]. *)
Theorem evaluate_scores (self : SCHBR.t) (users_feature bundles_feature : tensor)
    (users : list Z) (U B d : nat) :
  tensor_wf users_feature -> tshape users_feature = (U, d) ->
  tensor_wf bundles_feature -> tshape bundles_feature = (B, d) ->
  Forall (fun u => (0 <= u < Z.of_nat U)%Z) users ->
  exists scores,
    SCHBR.evaluate self (users_feature, bundles_feature) users = Ok scores
    /\ tshape scores = (length users, B)
    /\ tensor_wf scores
    /\ forall k u b, users !! k = Some u -> b < B ->
         tget scores k b
         = dot (nth (Z.to_nat u) (trows users_feature) [])
               (nth b (trows bundles_feature) []).
Proof.
  intros Wu Su Wb Sb Hidx. unfold SCHBR.evaluate.
  rewrite index_select_in_range by (by rewrite Su).
  rewrite bind_Ok. unfold tmatmul. simpl. rewrite Su, Sb. simpl.
  rewrite decide_True by done.
  eexists. split; [done|]. split; [done|]. split.
  - split; simpl; [by rewrite !length_map|].
    apply Forall_forall. intros r Hr.
    apply list_elem_of_In, in_map_iff in Hr as (r' & <- & _).
    by rewrite length_map, length_seq.
  - intros k u b Hk Hb. unfold tget. simpl.
    pose proof (lookup_lt_Some _ _ _ Hk) as Hlt.
    rewrite map_map.
    erewrite (nth_lookup_Some _ k []);
      [|rewrite list_lookup_fmap, Hk; reflexivity].
    rewrite nth_map_seq by done.
    rewrite Forall_forall in Hidx.
    pose proof (Hidx u (list_elem_of_lookup_2 _ _ _ Hk)) as Hu.
    destruct Wb as [Lb Rb]. rewrite Sb in Lb. simpl in Lb.
    apply dot_col_transpose; [|lia].
    rewrite Sb. simpl.
    rewrite (tensor_wf_row users_feature (Z.to_nat u) Wu); rewrite Su; simpl; [done|lia].
Qed.

(** ** The propagation step *)

Lemma bind_assoc {A B C : Type} (m : result A) (f : A -> result B)
    (g : B -> result C) :
  (m ≫= f) ≫= g = m ≫= (fun x => f x ≫= g).
Proof. by destruct m. Qed.

Lemma broadcast_dim_same (a : nat) : broadcast_dim a a = Ok a.
Proof. unfold broadcast_dim. by rewrite decide_True. Qed.

Lemma broadcast_list_same {A : Type} (n : nat) (d : A) (l : list A) :
  length l = n -> broadcast_list n d l = l.
Proof. intros H. unfold broadcast_list. by rewrite decide_True. Qed.

Lemma expand2_same (r c : nat) (rs : list (list Qc)) :
  length rs = r -> Forall (fun row => length row = c) rs ->
  expand2 (r, c) rs = rs.
Proof.
  intros Hr Hc. unfold expand2. simpl.
  rewrite broadcast_list_same by (by rewrite length_map).
  rewrite <- (map_id rs) at 2. apply map_ext_in. intros row Hrow.
  apply broadcast_list_same. rewrite Forall_forall in Hc.
  by apply Hc, list_elem_of_In.
Qed.

Lemma tensor_add_same_shape (a b : tensor) :
  tensor_wf a -> tensor_wf b -> tshape a = tshape b ->
  tensor_add a b
  = Ok (mkTensor (tshape a) (zip_with (zip_with Qcplus) (trows a) (trows b))).
Proof.
  intros [La Ra] [Lb Rb] Hs. unfold tensor_add. rewrite <- Hs in *.
  rewrite !broadcast_dim_same. simpl.
  rewrite !expand2_same by done. by destruct (tshape a).
Qed.

Lemma tensor_div_wf (t : tensor) (c : Qc) : tensor_wf t -> tensor_wf (tensor_div t c).
Proof.
  intros [L R]. split; simpl; [by rewrite length_map|].
  apply Forall_fmap. eapply Forall_impl; [exact R|].
  intros r Hr. simpl. by rewrite length_map.
Qed.

Lemma dropout_shape (p : Qc) (tr : bool) (keep : nat -> nat -> bool) (t : tensor) :
  tshape (dropout p tr keep t) = tshape t.
Proof. unfold dropout. by destruct tr. Qed.

Lemma dropout_wf (p : Qc) (tr : bool) (keep : nat -> nat -> bool) (t : tensor) :
  tensor_wf t -> tensor_wf (dropout p tr keep t).
Proof.
  intros [L R]. unfold dropout. destruct tr; [|done].
  split; simpl; [by rewrite length_imap|].
  apply Forall_forall. intros r Hr.
  apply list_elem_of_lookup in Hr as (i & Hi).
  rewrite list_lookup_imap in Hi.
  destruct (trows t !! i) as [r0|] eqn:Hr0; simpl in Hi; [|done].
  injection Hi as <-. rewrite length_imap.
  rewrite Forall_forall in R. apply R. by eapply list_elem_of_lookup_2.
Qed.

Lemma nth_zip_with {A B C : Type} (f : A -> B -> C) (x : list A) (y : list B)
    (i : nat) (da : A) (db : B) (dc : C) :
  length x = length y -> f da db = dc ->
  nth i (zip_with f x y) dc = f (nth i x da) (nth i y db).
Proof.
  intros Hlen Hd. revert y i Hlen.
  induction x as [|a x IH]; intros [|b y] i Hlen; simpl in *; try done.
  - by destruct i.
  - destruct i; [done|]. apply IH. lia.
Qed.









(** ** The forward pass *)

Lemma index_select2_in_range (t : tensor) (idx : index_tensor) :
  Forall (Forall (fun i => (0 <= i < Z.of_nat (fst (tshape t)))%Z)) (irows idx) ->
  index_select2 t idx
  = Ok (mkTensor3 (fst (ishape idx), snd (ishape idx), snd (tshape t))
          (map (map (fun i => nth (Z.to_nat i) (trows t) [])) (irows idx))).
Proof.
  intros Hidx. unfold index_select2.
  rewrite (comprehension_ok _ (map (fun i => nth (Z.to_nat i) (trows t) [])));
    [done|].
  intros row Hrow. rewrite Forall_forall in Hidx.
  apply comprehension_ok. intros i Hi.
  apply select_row_in_range.
  pose proof (Hidx row Hrow) as Hr. rewrite Forall_forall in Hr. by apply Hr.
Qed.

Lemma expand_mid_ok (t : tensor3) (n k d : nat) :
  tshape3 t = (n, 1, d) ->
  exists t', expand_mid t k = Ok t' /\ tshape3 t' = (n, k, d).
Proof.
  intros Hs. unfold expand_mid. rewrite Hs.
  destruct (decide (1 = k)) as [<-|Hk]; [by exists t|].
  rewrite decide_True by done. by eexists.
Qed.

Lemma mul_sum2_ok (a b : tensor3) (n k d : nat) :
  tshape3 a = (n, k, d) -> tshape3 b = (n, k, d) ->
  exists pred, mul_sum2 a b = Ok pred /\ tshape pred = (n, k).
Proof.
  intros Ha Hb. unfold mul_sum2. rewrite Ha, Hb, !broadcast_dim_same.
  rewrite !bind_Ok. by eexists.
Qed.

Lemma tmatmul3_ok (a : tensor3) (b : tensor) (n m d : nat) :
  tshape3 a = (n, m, d) -> fst (tshape b) = d ->
  exists c, tmatmul3 a b = Ok c /\ tshape3 c = (n, m, snd (tshape b)).
Proof.
  intros Ha Hb. unfold tmatmul3. rewrite Ha, decide_True by done. by eexists.
Qed.

(** C1 as stated fails: on the model without interactions (tables
    [[1], [2]] and [[3]], halved by [propagate]) and the batch of user 0
    and bundle 0, [forward] returns the loss [7/2] of the full tables, not
    the loss [5/2] of the two gathered rows. *)
Lemma forward_loss_not_gathered :
  match SCHBR.forward built_zero keep_all users_0 bundles_0,
        gathered_loss built_zero keep_all users_0 bundles_0 with
  | Ok (_, _, loss), Ok gathered =>
      loss = Q2Qc (7 # 2) /\ gathered = Q2Qc (5 # 2) /\ loss <> gathered
  | _, _ => False
  end.
Proof.
  vm_compute. split; [by apply Qc_is_canon|]. split; [by apply Qc_is_canon|].
  by intros [=].
Qed.

(** C1, amended: the regularisation loss that [forward] returns is
    [l2_norm] times the sum of squares of the whole [UserFeature] table
    plus that of the whole [BundleFeature] table, as [propagate] returns
    them: it does not depend on the batch.  For a batch of [n] users against
    [n x k] bundles with indices in range, [forward] returns this loss. *)
Theorem forward_loss_full_tables (self : SCHBR.t) (keep : nat -> nat -> bool)
    (users bundles : index_tensor) (UF BF : tensor) :
  SCHBR.propagate self keep = Ok (UF, BF) ->
  (forall pred bound loss,
     SCHBR.forward self keep users bundles = Ok (pred, bound, loss) ->
     loss = (SCHBR.embed_L2_norm self * (sum_squares UF + sum_squares BF))%Qc)
  /\ (forall n k d,
        ishape users = (n, 1) -> ishape bundles = (n, k) ->
        snd (tshape UF) = d -> snd (tshape BF) = d ->
        fst (tshape (SCHBR.user_bound self)) = d ->
        Forall (Forall (fun i => (0 <= i < Z.of_nat (fst (tshape UF)))%Z))
               (irows users) ->
        Forall (Forall (fun i => (0 <= i < Z.of_nat (fst (tshape BF)))%Z))
               (irows bundles) ->
        exists pred bound,
          SCHBR.forward self keep users bundles
          = Ok (pred, bound,
                (SCHBR.embed_L2_norm self
                 * (sum_squares UF + sum_squares BF))%Qc)
          /\ tshape pred = (n, k)).
Proof.
  intros Hprop. split.
  - intros pred bound loss. unfold SCHBR.forward. rewrite Hprop, bind_Ok.
    intros H.
    apply bind_Ok_inv in H as (g & _ & H).
    apply bind_Ok_inv in H as (ue & _ & H).
    apply bind_Ok_inv in H as (be & _ & H).
    apply bind_Ok_inv in H as (p & _ & H).
    apply bind_Ok_inv in H as (g' & _ & H).
    apply bind_Ok_inv in H as (b & _ & H).
    by injection H as _ _ <-.
  - intros n k d Su Sb Du Db Dw Hu Hb.
    unfold SCHBR.forward. rewrite Hprop, bind_Ok.
    rewrite (index_select2_in_range UF users Hu), bind_Ok.
    rewrite (index_select2_in_range BF bundles Hb).
    rewrite Su, Sb, Du, Db. simpl.
    destruct (expand_mid_ok
                (mkTensor3 (n, 1, d)
                   (map (map (fun i => nth (Z.to_nat i) (trows UF) []))
                        (irows users))) n k d eq_refl) as (ue & -> & Sue).
    rewrite !bind_Ok. unfold SCHBR.predict.
    destruct (mul_sum2_ok ue
                (mkTensor3 (n, k, d)
                   (map (map (fun i => nth (Z.to_nat i) (trows BF) []))
                        (irows bundles))) n k d Sue eq_refl) as (pred & -> & Sp).
    rewrite bind_Ok.
    destruct (tmatmul3_ok
                (mkTensor3 (n, 1, d)
                   (map (map (fun i => nth (Z.to_nat i) (trows UF) []))
                        (irows users))) (SCHBR.user_bound self) n 1 d
                eq_refl Dw) as (bound & -> & _).
    rewrite bind_Ok. by exists pred, bound.
Qed.

Lemma propagate_built_zero :
  SCHBR.propagate built_zero keep_all = Ok (half_users, half_bundles).
Proof.
  vm_compute. do 3 f_equal; repeat f_equal; by apply Qc_is_canon.
Qed.

Lemma forward_loss_full_tables_witness :
  exists pred bound,
    SCHBR.forward built_zero keep_all users_0 bundles_0
    = Ok (pred, bound,
          (SCHBR.embed_L2_norm built_zero
           * (sum_squares half_users + sum_squares half_bundles))%Qc)
    /\ tshape pred = (1, 1).
Proof.
  apply (proj2 (forward_loss_full_tables built_zero keep_all users_0 bundles_0
                  _ _ propagate_built_zero) 1 1 1); try reflexivity.
  - repeat constructor; simpl; lia.
  - repeat constructor; simpl; lia.
Defined.

(** ** The theorems at concrete inputs *)

Lemma Split_HyperGraph_partition_witness :
  exists blocks,
    Split_HyperGraph operator_3x3 "cpu" (Some 2) = Ok blocks
    /\ length blocks = 2
    /\ (parts ← comprehension (fun G => spmm G operand_3x1) blocks;
        torch_cat parts)
       = spmm (from_scipy_to "cpu" operator_3x3) operand_3x1.
Proof.
  destruct (Split_HyperGraph_partition operator_3x3 "cpu" 2 operand_3x1)
    as (blocks & Hb & Hlen & _ & _ & _ & _ & _ & _ & _ & Hprod).
  - lia.
  - exists blocks. split; [exact Hb|]. split; [exact Hlen|exact Hprod].
Defined.

Lemma normalize_HyperGraph_formula_witness :
  exists N,
    normalize_HyperGraph sqrt_approx operator_3x3 = Ok N
    /\ shape N = (3, 3).
Proof.
  destruct (normalize_HyperGraph_formula sqrt_approx operator_3x3)
    as (_ & N & HN & SN & _).
  - intros x _. apply sqrt_approx_nonneg.
  - reflexivity.
  - repeat constructor; by vm_compute.
  - exists N. split; [exact HN|exact SN].
Defined.

Lemma mix_Hypergraph_layout_witness :
  exists H,
    mix_Hypergraph exact_madd (ui_2x2, bi_2x2, ub_2x2) (Some (Q2Qc 10)) = Ok H
    /\ shape H = (2 + 2, 2 + (2 + 2)).
Proof.
  destruct (mix_Hypergraph_layout exact_madd ui_2x2 bi_2x2 ub_2x2
              (Q2Qc 10) 2 2 2)
    as (uu0 & bb0 & uu & bb & H_i & col1 & col2 & H_ub & H & _ & _ & _ & _
        & _ & _ & _ & _ & _ & HH & _ & _ & SH & _); try reflexivity.
  exists H. split; [exact HH|exact SH].
Defined.


Lemma evaluate_scores_witness :
  exists scores,
    SCHBR.evaluate built_zero (half_users, half_bundles) [0; 1]%Z = Ok scores
    /\ tshape scores = (2, 1).
Proof.
  destruct (evaluate_scores built_zero half_users half_bundles [0; 1]%Z 2 1 1)
    as (scores & Hs & Ss & _).
  - split; [reflexivity|]. repeat constructor.
  - reflexivity.
  - split; [reflexivity|]. repeat constructor.
  - reflexivity.
  - repeat constructor; lia.
  - exists scores. split; [exact Hs|exact Ss].
Defined.

(** ** The model on the examples *)

(** The incidence structure of the example with two users, two bundles and
    two items: [H_i] in the first two columns, then the user block and the
    bundle block. *)
Example mix_Hypergraph_scenario :
  match mix_Hypergraph exact_madd (ui_2x2, bi_2x2, ub_2x2) None with
  | Ok H =>
      shape H = (4, 6)
      /\ todense H
         = map (map qz) [[1; 0; 0; 0; 2; 0];
                         [0; 1; 0; 1; 0; 20];
                         [1; 1; 2; 0; 0; 0];
                         [0; 0; 0; 20; 0; 1]]%Z
  | Raise _ => False
  end.
Proof.
  vm_compute. split; [reflexivity|]. repeat f_equal; by apply Qc_is_canon.
Qed.

(** Three rows in two blocks: one row, then two. *)
Example Split_HyperGraph_3_by_2 :
  match Split_HyperGraph operator_3x3 "cpu" (Some 2) with
  | Ok blocks =>
      map (fun G => (shape (st_mat G), indptr (st_mat G), indices (st_mat G)))
          blocks
      = [((1, 3), [0; 2], [0; 2]); ((2, 3), [0; 1; 3], [1; 0; 2])]
  | Raise _ => False
  end.
Proof. by vm_compute. Qed.

(** Three rows in the default 16 blocks: fifteen empty blocks and the whole
    operator in the last one. *)
Example Split_HyperGraph_3_by_16 :
  match Split_HyperGraph operator_3x3 "cpu" None with
  | Ok blocks => map (fun G => nrows (st_mat G)) blocks = replicate 15 0 ++ [3]
  | Raise _ => False
  end.
Proof. by vm_compute. Qed.

Example Split_HyperGraph_by_0 :
  Split_HyperGraph operator_3x3 "cpu" (Some 0) = Raise ZeroDivisionError.
Proof. reflexivity. Qed.

(** Scores of users 0, 1 and -1 (the last user) against the one bundle. *)
Example evaluate_built_zero :
  match SCHBR.evaluate built_zero (half_users, half_bundles) [0; 1; -1]%Z with
  | Ok scores =>
      tshape scores = (3, 1)
      /\ trows scores = [[Q2Qc (3 # 4)]; [Q2Qc (3 # 2)]; [Q2Qc (3 # 2)]]
  | Raise _ => False
  end.
Proof.
  vm_compute. split; [reflexivity|]. repeat f_equal; by apply Qc_is_canon.
Qed.

Example evaluate_out_of_range :
  SCHBR.evaluate built_zero (half_users, half_bundles) [2%Z] = Raise IndexError.
Proof. reflexivity. Qed.

(** * Further properties of the code *)

(** ** predict *)

Lemma expand3_same (n m d : nat) (ss : list (list (list Qc))) :
  length ss = n ->
  Forall (fun s => length s = m /\ Forall (fun r => length r = d) s) ss ->
  expand3 (n, m, d) ss = ss.
Proof.
  intros Hn Hs. unfold expand3.
  rewrite broadcast_list_same by (by rewrite length_map).
  rewrite <- (map_id ss) at 2. apply map_ext_in. intros s Hin.
  rewrite Forall_forall in Hs.
  destruct (Hs s (proj2 (list_elem_of_In _ _) Hin)) as [Hm Hd].
  by apply expand2_same.
Qed.

Lemma tensor3_wf_slab (t : tensor3) (n m d i : nat) :
  tensor3_wf t -> tshape3 t = (n, m, d) -> i < n ->
  length (nth i (slabs t) []) = m
  /\ Forall (fun r => length r = d) (nth i (slabs t) []).
Proof.
  unfold tensor3_wf. intros W S Hi. rewrite S in W. destruct W as [Hn Hs].
  rewrite Forall_forall in Hs. apply Hs, list_elem_of_In, nth_In. lia.
Qed.

Lemma tensor3_wf_row (t : tensor3) (n m d i j : nat) :
  tensor3_wf t -> tshape3 t = (n, m, d) -> i < n -> j < m ->
  length (trow3 t i j) = d.
Proof.
  intros W S Hi Hj. destruct (tensor3_wf_slab t n m d i W S Hi) as [Hm Hd].
  rewrite Forall_forall in Hd. apply Hd, list_elem_of_In, nth_In. lia.
Qed.

Lemma mul_sum2_same_shape (a b : tensor3) (n m d : nat) :
  tensor3_wf a -> tensor3_wf b ->
  tshape3 a = (n, m, d) -> tshape3 b = (n, m, d) ->
  mul_sum2 a b
  = Ok (mkTensor (n, m)
          (zip_with (zip_with dot) (slabs a) (slabs b))).
Proof.
  intros Wa Wb Sa Sb. unfold mul_sum2. rewrite Sa, Sb, !broadcast_dim_same.
  rewrite !bind_Ok. unfold tensor3_wf in Wa, Wb. rewrite Sa in Wa. rewrite Sb in Wb.
  destruct Wa as [La Ha], Wb as [Lb Hb].
  by rewrite !expand3_same.
Qed.

(** X1: on two well-formed tensors of the same shape [n x k x d], [predict]
    returns an [n x k] matrix whose entry [(i, j)] is the dot product of the
    rows [(i, j)] of the two tensors. *)
Theorem predict_dot_products (self : SCHBR.t) (users_feature bundles_feature : tensor3)
    (n k d : nat) :
  tensor3_wf users_feature -> tensor3_wf bundles_feature ->
  tshape3 users_feature = (n, k, d) -> tshape3 bundles_feature = (n, k, d) ->
  exists pred,
    SCHBR.predict self users_feature bundles_feature = Ok pred
    /\ tshape pred = (n, k)
    /\ tensor_wf pred
    /\ forall i j, i < n -> j < k ->
         tget pred i j
         = dot (trow3 users_feature i j) (trow3 bundles_feature i j).
Proof.
  intros Wa Wb Sa Sb. unfold SCHBR.predict.
  rewrite (mul_sum2_same_shape _ _ n k d Wa Wb Sa Sb).
  eexists. split; [done|]. split; [done|].
  pose proof Wa as Wa'. pose proof Wb as Wb'.
  unfold tensor3_wf in Wa', Wb'. rewrite Sa in Wa'. rewrite Sb in Wb'.
  destruct Wa' as [La Ha], Wb' as [Lb Hb].
  assert (forall i, length (nth i (slabs users_feature) [])
                    = length (nth i (slabs bundles_feature) [])) as Hlen.
  { intros i. destruct (decide (i < n)) as [Hi|Hi].
    - destruct (tensor3_wf_slab _ n k d i Wa Sa Hi) as [-> _].
      by destruct (tensor3_wf_slab _ n k d i Wb Sb Hi) as [-> _].
    - rewrite !nth_overflow by lia. done. }
  split.
  - split; simpl.
    + rewrite length_zip_with. lia.
    + apply Forall_forall. intros r Hr.
      apply list_elem_of_lookup in Hr as (i & Hi).
      apply lookup_zip_with_Some in Hi as (x & y & -> & Hx & Hy).
      rewrite length_zip_with.
      rewrite Forall_forall in Ha, Hb.
      destruct (Ha x (list_elem_of_lookup_2 _ _ _ Hx)) as [-> _].
      destruct (Hb y (list_elem_of_lookup_2 _ _ _ Hy)) as [-> _]. lia.
  - intros i j Hi Hj. unfold tget, trow3. simpl.
    rewrite (nth_zip_with (zip_with dot) _ _ i [] [] []) by (done || lia).
    rewrite (nth_zip_with dot _ _ j [] [] 0%Qc); done.
Qed.

(** ** forward *)

Lemma nth_map_in_range {A B : Type} (f : A -> B) (l : list A) (i : nat)
    (da : A) (db : B) :
  i < length l -> nth i (map f l) db = f (nth i l da).
Proof.
  intros Hi. rewrite (nth_indep _ db (f da)) by (by rewrite length_map).
  apply map_nth.
Qed.

Lemma index_wf_row (idx : index_tensor) (i : nat) :
  index_wf idx -> i < fst (ishape idx) ->
  length (nth i (irows idx) []) = snd (ishape idx).
Proof.
  intros [L R] Hi. rewrite Forall_forall in R.
  apply R, list_elem_of_In, nth_In. lia.
Qed.

Lemma gathered_wf (t : tensor) (idx : index_tensor) :
  tensor_wf t -> index_wf idx ->
  Forall (Forall (fun i => (0 <= i < Z.of_nat (fst (tshape t)))%Z)) (irows idx) ->
  tensor3_wf
    (mkTensor3 (fst (ishape idx), snd (ishape idx), snd (tshape t))
       (map (map (fun i => nth (Z.to_nat i) (trows t) [])) (irows idx))).
Proof.
  intros Wt [Li Ri] Hidx. unfold tensor3_wf. simpl.
  split; [by rewrite length_map|].
  apply Forall_fmap, Forall_forall. intros row Hrow. simpl.
  rewrite Forall_forall in Ri, Hidx.
  split; [rewrite length_map; by apply Ri|].
  apply Forall_fmap, Forall_forall. intros u Hu. simpl.
  pose proof (Hidx row Hrow) as Hr. rewrite Forall_forall in Hr.
  apply tensor_wf_row; [done|]. specialize (Hr u Hu). lia.
Qed.

Lemma nth_replicate_lt {A : Type} (k j : nat) (x d : A) :
  j < k -> nth j (replicate k x) d = x.
Proof.
  revert j. induction k as [|k IH]; intros [|j] Hj; simpl; try lia; [done|].
  apply IH. lia.
Qed.

Lemma singleton_replicate {A : Type} (s : list A) (d : A) :
  length s = 1 -> replicate 1 (nth 0 s d) = s.
Proof. by destruct s as [|x [|y s]]. Qed.

Lemma expand_mid_value (t : tensor3) (n k d : nat) :
  tensor3_wf t -> tshape3 t = (n, 1, d) ->
  expand_mid t k
  = Ok (mkTensor3 (n, k, d)
          (map (fun s => replicate k (nth 0 s [])) (slabs t))).
Proof.
  intros W S. unfold expand_mid. rewrite S.
  destruct (decide (1 = k)) as [<-|Hk]; [|by rewrite decide_True].
  unfold tensor3_wf in W. rewrite S in W. destruct W as [_ Hs].
  f_equal. destruct t as [sh ss]. simpl in *. subst sh. f_equal.
  rewrite <- (map_id ss) at 1. apply map_ext_in. intros s Hin.
  rewrite Forall_forall in Hs.
  destruct (Hs s (proj2 (list_elem_of_In _ _) Hin)) as [Hlen _].
  symmetry. by apply singleton_replicate.
Qed.

Lemma expand_mid_wf (n k d : nat) (ss : list (list (list Qc))) :
  tensor3_wf (mkTensor3 (n, 1, d) ss) ->
  tensor3_wf (mkTensor3 (n, k, d) (map (fun s => replicate k (nth 0 s [])) ss)).
Proof.
  unfold tensor3_wf. simpl. intros [L Hs].
  split; [by rewrite length_map|].
  apply Forall_fmap, Forall_forall. intros s Hin. simpl.
  rewrite Forall_forall in Hs. destruct (Hs s Hin) as [Hlen Hrows].
  split; [by rewrite length_replicate|].
  apply Forall_replicate. rewrite Forall_forall in Hrows.
  apply Hrows, list_elem_of_In, nth_In. lia.
Qed.

Lemma dot_col_column (r : list Qc) (B : tensor) (j : nat) :
  dot_col r B j = dot r (tcol B j).
Proof.
  unfold dot_col, tcol. rewrite <- qsum_imap_dot. f_equal.
  apply imap_ext. intros k a _. f_equal. unfold tget.
  destruct (decide (k < length (trows B))) as [Hk|Hk].
  - by rewrite (nth_map_in_range _ _ _ []).
  - rewrite (nth_overflow (trows B)), (nth_overflow (map _ _))
      by (rewrite ?length_map; lia).
    by destruct j.
Qed.

(** What [forward] computes on a batch of [n] users against [n x k]
    bundles, all indices in range. *)
Lemma forward_value (self : SCHBR.t) (keep : nat -> nat -> bool)
    (users bundles : index_tensor) (UF BF : tensor) (n k d : nat) :
  SCHBR.propagate self keep = Ok (UF, BF) ->
  tensor_wf UF -> tensor_wf BF ->
  snd (tshape UF) = d -> snd (tshape BF) = d ->
  fst (tshape (SCHBR.user_bound self)) = d ->
  index_wf users -> ishape users = (n, 1) ->
  index_wf bundles -> ishape bundles = (n, k) ->
  Forall (Forall (fun i => (0 <= i < Z.of_nat (fst (tshape UF)))%Z)) (irows users) ->
  Forall (Forall (fun i => (0 <= i < Z.of_nat (fst (tshape BF)))%Z)) (irows bundles) ->
  let gathered := map (map (fun i => nth (Z.to_nat i) (trows UF) [])) (irows users) in
  let gathered_b := map (map (fun i => nth (Z.to_nat i) (trows BF) [])) (irows bundles) in
  SCHBR.forward self keep users bundles
  = Ok (mkTensor (n, k)
          (zip_with (zip_with dot)
             (map (fun s => replicate k (nth 0 s [])) gathered) gathered_b),
        mkTensor3 (n, 1, snd (tshape (SCHBR.user_bound self)))
          (map (map (fun r =>
                       map (dot_col r (SCHBR.user_bound self))
                           (seq 0 (snd (tshape (SCHBR.user_bound self))))))
               gathered),
        SCHBR.regularize self UF BF).
Proof.
  intros Hprop Wu Wb Du Db Dw Iu Su Ib Sb Hu Hb gathered gathered_b.
  pose proof (gathered_wf UF users Wu Iu Hu) as Wg.
  pose proof (gathered_wf BF bundles Wb Ib Hb) as Wgb.
  rewrite Su, Du in Wg. rewrite Sb, Db in Wgb. simpl in Wg, Wgb.
  unfold SCHBR.forward. rewrite Hprop, bind_Ok.
  rewrite (index_select2_in_range UF users Hu), bind_Ok.
  rewrite (index_select2_in_range BF bundles Hb).
  rewrite Su, Sb, Du, Db. simpl fst. simpl snd.
  rewrite (expand_mid_value _ n k d Wg eq_refl), !bind_Ok.
  unfold SCHBR.predict. cbn [slabs tshape3].
  rewrite (mul_sum2_same_shape _ _ n k d (expand_mid_wf n k d _ Wg) Wgb eq_refl eq_refl).
  rewrite !bind_Ok. unfold tmatmul3. cbn [tshape3 slabs].
  rewrite decide_True by done. by rewrite bind_Ok.
Qed.

Lemma pred_rows_entry (users bundles : index_tensor) (UF BF : tensor)
    (n k : nat) (i j : nat) :
  index_wf users -> ishape users = (n, 1) ->
  index_wf bundles -> ishape bundles = (n, k) ->
  i < n -> j < k ->
  nth j
    (nth i
       (zip_with (zip_with dot)
          (map (fun s => replicate k (nth 0 s []))
             (map (map (fun u => nth (Z.to_nat u) (trows UF) [])) (irows users)))
          (map (map (fun c => nth (Z.to_nat c) (trows BF) [])) (irows bundles)))
       [])
    0%Qc
  = dot (nth (Z.to_nat (iget users i 0)) (trows UF) [])
        (nth (Z.to_nat (iget bundles i j)) (trows BF) []).
Proof.
  intros Iu Su Ib Sb Hi Hj. unfold iget.
  pose proof Iu as [Lu _]. pose proof Ib as [Lb _].
  rewrite Su in Lu. rewrite Sb in Lb. simpl in Lu, Lb.
  pose proof (index_wf_row users i Iu) as Ru. rewrite Su in Ru.
  specialize (Ru Hi). simpl in Ru.
  pose proof (index_wf_row bundles i Ib) as Rb. rewrite Sb in Rb.
  specialize (Rb Hi). simpl in Rb.
  rewrite (nth_zip_with (zip_with dot) _ _ i [] [] [])
    by (rewrite ?length_map; (done || lia)).
  rewrite (nth_map_in_range _ _ i []) by (rewrite length_map; lia).
  rewrite (nth_map_in_range _ (irows users) i []) by lia.
  rewrite (nth_map_in_range _ (irows bundles) i []) by lia.
  rewrite (nth_zip_with dot _ _ j [] [] 0%Qc)
    by (rewrite ?length_replicate, ?length_map; (done || lia)).
  rewrite nth_replicate_lt by done.
  rewrite (nth_map_in_range _ _ 0 0%Z) by lia.
  by rewrite (nth_map_in_range _ _ j 0%Z) by lia.
Qed.

(** X2: on a batch of [n] users against [n x k] bundles with indices in
    range, the prediction [(i, j)] of [forward] is the dot product of the
    propagated feature row of user [users[i, 0]] with the propagated
    feature row of bundle [bundles[i, j]]. *)
Theorem forward_pred_entries (self : SCHBR.t) (keep : nat -> nat -> bool)
    (users bundles : index_tensor) (UF BF : tensor) (n k d : nat) :
  SCHBR.propagate self keep = Ok (UF, BF) ->
  tensor_wf UF -> tensor_wf BF ->
  snd (tshape UF) = d -> snd (tshape BF) = d ->
  fst (tshape (SCHBR.user_bound self)) = d ->
  index_wf users -> ishape users = (n, 1) ->
  index_wf bundles -> ishape bundles = (n, k) ->
  Forall (Forall (fun i => (0 <= i < Z.of_nat (fst (tshape UF)))%Z)) (irows users) ->
  Forall (Forall (fun i => (0 <= i < Z.of_nat (fst (tshape BF)))%Z)) (irows bundles) ->
  exists pred bound loss,
    SCHBR.forward self keep users bundles = Ok (pred, bound, loss)
    /\ tshape pred = (n, k)
    /\ forall i j, i < n -> j < k ->
         tget pred i j
         = dot (nth (Z.to_nat (iget users i 0)) (trows UF) [])
               (nth (Z.to_nat (iget bundles i j)) (trows BF) []).
Proof.
  intros Hprop Wu Wb Du Db Dw Iu Su Ib Sb Hu Hb.
  rewrite (forward_value self keep users bundles UF BF n k d) by done.
  eexists _, _, _. split; [done|]. split; [done|].
  intros i j Hi Hj. unfold tget. cbn [trows].
  by apply (pred_rows_entry users bundles UF BF n k).
Qed.

(** X3: on the same batches, the bound score of batch row [i] is the dot
    product of the propagated feature row of user [users[i, 0]] with the
    column of [user_bound]. *)
Theorem forward_bound_entries (self : SCHBR.t) (keep : nat -> nat -> bool)
    (users bundles : index_tensor) (UF BF : tensor) (n k d : nat) :
  SCHBR.propagate self keep = Ok (UF, BF) ->
  tensor_wf UF -> tensor_wf BF ->
  snd (tshape UF) = d -> snd (tshape BF) = d ->
  tshape (SCHBR.user_bound self) = (d, 1) ->
  index_wf users -> ishape users = (n, 1) ->
  index_wf bundles -> ishape bundles = (n, k) ->
  Forall (Forall (fun i => (0 <= i < Z.of_nat (fst (tshape UF)))%Z)) (irows users) ->
  Forall (Forall (fun i => (0 <= i < Z.of_nat (fst (tshape BF)))%Z)) (irows bundles) ->
  exists pred bound loss,
    SCHBR.forward self keep users bundles = Ok (pred, bound, loss)
    /\ tshape3 bound = (n, 1, 1)
    /\ tensor3_wf bound
    /\ forall i, i < n ->
         trow3 bound i 0
         = [dot (nth (Z.to_nat (iget users i 0)) (trows UF) [])
                (tcol (SCHBR.user_bound self) 0)].
Proof.
  intros Hprop Wu Wb Du Db Sw Iu Su Ib Sb Hu Hb.
  rewrite (forward_value self keep users bundles UF BF n k d)
    by (done || by rewrite Sw).
  rewrite Sw. cbn [snd].
  pose proof Iu as [Lu Ru]. rewrite Su in Lu, Ru. simpl in Lu, Ru.
  eexists _, _, _. split; [done|]. split; [done|]. split.
  - unfold tensor3_wf. cbn [tshape3 slabs].
    split; [by rewrite !length_map|].
    apply Forall_fmap, Forall_fmap, Forall_forall. intros row Hrow. simpl.
    rewrite Forall_forall in Ru.
    split; [rewrite !length_map; by apply Ru|].
    apply Forall_fmap, Forall_forall. intros r _. done.
  - intros i Hi. unfold trow3, iget. cbn [slabs].
    pose proof (index_wf_row users i Iu) as Ri. rewrite Su in Ri.
    specialize (Ri Hi). simpl in Ri.
    rewrite (nth_map_in_range _ _ i []) by (rewrite length_map; lia).
    rewrite (nth_map_in_range _ (irows users) i []) by lia.
    rewrite (nth_map_in_range _ _ 0 []) by (rewrite length_map, Ri; lia).
    rewrite (nth_map_in_range _ _ 0 0%Z) by (rewrite Ri; lia).
    simpl. by rewrite dot_col_column.
Qed.

(** X4: [expand] rejects a [users] tensor whose second dimension is
    neither 1 nor the second dimension of [bundles]: [forward] raises
    [RuntimeError], although every index is in range. *)
Theorem forward_expand_error (self : SCHBR.t) (keep : nat -> nat -> bool)
    (users bundles : index_tensor) (UF BF : tensor) :
  SCHBR.propagate self keep = Ok (UF, BF) ->
  Forall (Forall (fun i => (0 <= i < Z.of_nat (fst (tshape UF)))%Z)) (irows users) ->
  snd (ishape users) <> 1 ->
  snd (ishape users) <> snd (ishape bundles) ->
  SCHBR.forward self keep users bundles = Raise RuntimeError.
Proof.
  intros Hprop Hu H1 Hk. unfold SCHBR.forward. rewrite Hprop, bind_Ok.
  rewrite (index_select2_in_range UF users Hu), bind_Ok.
  unfold expand_mid. cbn [tshape3].
  by rewrite !decide_False.
Qed.

(** ** evaluate *)

Lemma py_index_wrap (n : nat) (i : Z) :
  (- Z.of_nat n <= i < Z.of_nat n)%Z ->
  py_index n i = Ok (Z.to_nat (i mod Z.of_nat n)).
Proof.
  intros Hi. unfold py_index. case_decide as Hpos.
  - by rewrite Z.mod_small.
  - rewrite decide_True by lia. do 2 f_equal.
    apply (Z.mod_unique i (Z.of_nat n) (-1)); lia.
Qed.

Lemma py_index_error (n : nat) (i : Z) :
  (i < - Z.of_nat n \/ Z.of_nat n <= i)%Z -> py_index n i = Raise IndexError.
Proof.
  intros Hi. unfold py_index. by rewrite !decide_False by lia.
Qed.

Lemma py_index_cases (n : nat) (i : Z) :
  (exists k, py_index n i = Ok k) \/ py_index n i = Raise IndexError.
Proof. unfold py_index. repeat case_decide; eauto. Qed.

Lemma comprehension_select_error (t : tensor) (idx : list Z) :
  Exists (fun u => (u < - Z.of_nat (fst (tshape t))
                    \/ Z.of_nat (fst (tshape t)) <= u)%Z) idx ->
  comprehension (select_row t) idx = Raise IndexError.
Proof.
  induction idx as [|u idx IH]; intros Hex; [by inversion Hex|].
  cbn [comprehension]. destruct (select_row t u) as [row|e] eqn:Hsel.
  - rewrite bind_Ok. inversion Hex as [? ? Hu|? ? Htl]; subst.
    + unfold select_row in Hsel. by rewrite (py_index_error _ _ Hu) in Hsel.
    + by rewrite (IH Htl).
  - unfold select_row in Hsel.
    destruct (py_index_cases (fst (tshape t)) u) as [[k Hk]|Hk];
      rewrite Hk in Hsel; [done|]. by injection Hsel as <-.
Qed.

(** X5: [evaluate] accepts the user indices of [[-U, U)]; a negative index
    counts from the end, so entry [(k, b)] of the scores is the dot product
    of user row [users[k] mod U] with bundle row [b]. *)
Theorem evaluate_negative_indices (self : SCHBR.t)
    (users_feature bundles_feature : tensor) (users : list Z) (U B d : nat) :
  tensor_wf users_feature -> tshape users_feature = (U, d) ->
  tensor_wf bundles_feature -> tshape bundles_feature = (B, d) ->
  Forall (fun u => (- Z.of_nat U <= u < Z.of_nat U)%Z) users ->
  exists scores,
    SCHBR.evaluate self (users_feature, bundles_feature) users = Ok scores
    /\ tshape scores = (length users, B)
    /\ forall k u b, users !! k = Some u -> b < B ->
         tget scores k b
         = dot (nth (Z.to_nat (u mod Z.of_nat U)) (trows users_feature) [])
               (nth b (trows bundles_feature) []).
Proof.
  intros Wu Su Wb Sb Hidx. unfold SCHBR.evaluate, index_select.
  rewrite (comprehension_ok _
             (fun u => nth (Z.to_nat (u mod Z.of_nat U)) (trows users_feature) [])).
  2:{ intros u Hu. unfold select_row. rewrite Su. simpl.
      rewrite Forall_forall in Hidx. by rewrite (py_index_wrap U u (Hidx u Hu)). }
  rewrite !bind_Ok. unfold tmatmul. simpl. rewrite Su, Sb. simpl.
  rewrite decide_True by done.
  eexists. split; [done|]. split; [done|].
  intros k u b Hk Hb. unfold tget. simpl.
  pose proof (lookup_lt_Some _ _ _ Hk) as Hlt.
  rewrite map_map.
  erewrite (nth_lookup_Some _ k []);
    [|rewrite list_lookup_fmap, Hk; reflexivity].
  rewrite nth_map_seq by done.
  rewrite Forall_forall in Hidx.
  pose proof (Hidx u (list_elem_of_lookup_2 _ _ _ Hk)) as Hu.
  pose proof Wb as [Lb Rb]. rewrite Sb in Lb. simpl in Lb.
  apply dot_col_transpose; [|lia].
  rewrite Sb. simpl.
  assert (0 <= u mod Z.of_nat U < Z.of_nat U)%Z as Hm
    by (apply Z.mod_pos_bound; lia).
  rewrite (tensor_wf_row users_feature _ Wu); rewrite Su; simpl; [done|lia].
Qed.

(** X6: a user index outside [[-U, U)] makes [evaluate] raise [IndexError],
    whatever the bundle table is. *)
Theorem evaluate_index_error (self : SCHBR.t)
    (users_feature bundles_feature : tensor) (users : list Z) :
  Exists (fun u => (u < - Z.of_nat (fst (tshape users_feature))
                    \/ Z.of_nat (fst (tshape users_feature)) <= u)%Z) users ->
  SCHBR.evaluate self (users_feature, bundles_feature) users
  = Raise IndexError.
Proof.
  intros Hex. unfold SCHBR.evaluate, index_select.
  by rewrite (comprehension_select_error _ _ Hex).
Qed.

(** X7: the scores of training and of evaluation agree: on one result of
    [propagate], prediction [(i, j)] of [forward] is the score that
    [evaluate] gives user [users[i, 0]] for bundle [bundles[i, j]]. *)
Theorem forward_agrees_with_evaluate (self : SCHBR.t)
    (keep : nat -> nat -> bool) (users bundles : index_tensor)
    (UF BF : tensor) (n k U B d : nat) :
  SCHBR.propagate self keep = Ok (UF, BF) ->
  tensor_wf UF -> tensor_wf BF ->
  tshape UF = (U, d) -> tshape BF = (B, d) ->
  fst (tshape (SCHBR.user_bound self)) = d ->
  index_wf users -> ishape users = (n, 1) ->
  index_wf bundles -> ishape bundles = (n, k) ->
  Forall (Forall (fun i => (0 <= i < Z.of_nat U)%Z)) (irows users) ->
  Forall (Forall (fun i => (0 <= i < Z.of_nat B)%Z)) (irows bundles) ->
  exists pred bound loss scores,
    SCHBR.forward self keep users bundles = Ok (pred, bound, loss)
    /\ SCHBR.evaluate self (UF, BF) (map (fun r => nth 0 r 0%Z) (irows users))
       = Ok scores
    /\ forall i j, i < n -> j < k ->
         tget pred i j = tget scores i (Z.to_nat (iget bundles i j)).
Proof.
  intros Hprop Wu Wb Su Sb Dw Iu Shu Ib Shb Hu Hb.
  rewrite (forward_value self keep users bundles UF BF n k d)
    by (done || by rewrite ?Su, ?Sb).
  pose proof Iu as [Lu _]. rewrite Shu in Lu. simpl in Lu.
  pose proof Ib as [Lb _]. rewrite Shb in Lb. simpl in Lb.
  assert (forall i, i < n -> (0 <= iget users i 0 < Z.of_nat U)%Z) as Hui.
  { intros i Hi. pose proof (index_wf_row users i Iu) as Ri. rewrite Shu in Ri.
    specialize (Ri Hi). simpl in Ri. unfold iget.
    rewrite Forall_forall in Hu.
    assert (nth i (irows users) [] ∈ irows users) as Hin
      by (apply list_elem_of_In, nth_In; lia).
    pose proof (Hu _ Hin) as Hrow. rewrite Forall_forall in Hrow.
    apply Hrow, list_elem_of_In, nth_In. lia. }
  assert (forall i j, i < n -> j < k ->
            (0 <= iget bundles i j < Z.of_nat B)%Z) as Hbi.
  { intros i j Hi Hj. pose proof (index_wf_row bundles i Ib) as Ri.
    rewrite Shb in Ri. specialize (Ri Hi). simpl in Ri. unfold iget.
    rewrite Forall_forall in Hb.
    assert (nth i (irows bundles) [] ∈ irows bundles) as Hin
      by (apply list_elem_of_In, nth_In; lia).
    pose proof (Hb _ Hin) as Hrow. rewrite Forall_forall in Hrow.
    apply Hrow, list_elem_of_In, nth_In. lia. }
  unfold SCHBR.evaluate.
  rewrite index_select_in_range.
  2:{ rewrite Su. simpl. apply Forall_fmap, Forall_forall. intros r Hr. simpl.
      apply list_elem_of_lookup in Hr as (i & Hi).
      pose proof (lookup_lt_Some _ _ _ Hi) as Hlt.
      rewrite <- (nth_lookup_Some _ _ [] _ Hi). apply (Hui i). lia. }
  rewrite bind_Ok. unfold tmatmul. simpl. rewrite Su, Sb. simpl.
  rewrite decide_True by done.
  eexists _, _, _, _. split; [done|]. split; [done|].
  intros i j Hi Hj. unfold tget at 1. cbn [trows].
  rewrite (pred_rows_entry users bundles UF BF n k i j) by done.
  unfold tget. cbn [trows]. rewrite !map_map.
  rewrite (nth_map_in_range _ _ i []) by lia.
  specialize (Hbi i j Hi Hj). specialize (Hui i Hi).
  rewrite nth_map_seq by lia.
  pose proof Wb as [Lbf _]. rewrite Sb in Lbf. simpl in Lbf.
  rewrite dot_col_transpose; [done| |lia].
  rewrite Sb. simpl.
  rewrite (tensor_wf_row UF _ Wu); rewrite Su; simpl; [done|]. unfold iget in Hui. lia.
Qed.

(** ** propagate on a constructed model *)

Lemma zip_rows_shape (r c : nat) (A Bs : list (list Qc)) :
  length A = r -> length Bs = r ->
  Forall (fun row => length row = c) A ->
  Forall (fun row => length row = c) Bs ->
  length (zip_with (zip_with Qcplus) A Bs) = r
  /\ Forall (fun row => length row = c) (zip_with (zip_with Qcplus) A Bs).
Proof.
  intros LA LB HA HB. split; [rewrite length_zip_with; lia|].
  apply Forall_forall. intros row Hrow.
  apply list_elem_of_lookup in Hrow as (i & Hi).
  apply lookup_zip_with_Some in Hi as (x & y & -> & Hx & Hy).
  rewrite length_zip_with. rewrite Forall_forall in HA, HB.
  rewrite (HA x (list_elem_of_lookup_2 _ _ _ Hx)).
  rewrite (HB y (list_elem_of_lookup_2 _ _ _ Hy)). lia.
Qed.

(** [propagate] succeeds on a model whose blocks partition a square
    operator of [U + B] rows and whose tables are [U x d] and [B x d]. *)
Lemma propagate_total (self : SCHBR.t) (keep : nat -> nat -> bool)
    (N : csr_matrix) (dev : device) (P d : nat) :
  1 <= P ->
  Split_HyperGraph N dev (Some P) = Ok (SCHBR.atom_graph self) ->
  shape N = (SCHBR.num_users self + SCHBR.num_bundles self,
             SCHBR.num_users self + SCHBR.num_bundles self) ->
  tensor_wf (SCHBR.users_feature self) ->
  tshape (SCHBR.users_feature self) = (SCHBR.num_users self, d) ->
  tensor_wf (SCHBR.bundles_feature self) ->
  tshape (SCHBR.bundles_feature self) = (SCHBR.num_bundles self, d) ->
  exists UF BF,
    SCHBR.propagate self keep = Ok (UF, BF)
    /\ tshape UF = (SCHBR.num_users self, d)
    /\ tshape BF = (SCHBR.num_bundles self, d)
    /\ tensor_wf UF /\ tensor_wf BF.
Proof.
  set (U := SCHBR.num_users self). set (B := SCHBR.num_bundles self).
  intros HP Hsplit SN Wu Su Wb Sb.
  pose proof Wu as [Lu Ru]. pose proof Wb as [Lb Rb].
  rewrite Su in Lu, Ru. rewrite Sb in Lb, Rb. simpl in Lu, Ru, Lb, Rb.
  set (embed_0 := mkTensor (U + B, d)
                    (trows (SCHBR.users_feature self)
                     ++ trows (SCHBR.bundles_feature self))).
  set (embed_1 := mkTensor (U + B, d)
                    (map (fun r => map (spmm_row r embed_0) (seq 0 d))
                         (csr_rows N))).
  set (dropped := dropout (SCHBR.drop self) (SCHBR.training self) keep embed_1).
  assert (torch_cat [SCHBR.users_feature self; SCHBR.bundles_feature self]
          = Ok embed_0) as Hcat.
  { rewrite (torch_cat_ok _ d).
    - simpl. rewrite Su, Sb. simpl. unfold embed_0.
      by rewrite Nat.add_0_r, app_nil_r.
    - done.
    - repeat constructor; [rewrite Su|rewrite Sb]; done. }
  assert (spmm (from_scipy_to dev N) embed_0 = Ok embed_1) as Hspmm.
  { unfold spmm. simpl. rewrite (shape_ncols _ _ _ SN), (shape_nrows _ _ _ SN).
    by rewrite decide_True. }
  assert (tensor_wf embed_0) as W0.
  { split; simpl; [rewrite length_app; lia|]. by apply Forall_app. }
  assert (tensor_wf embed_1) as W1.
  { split; simpl.
    - by rewrite length_map, csr_rows_length, (shape_nrows _ _ _ SN).
    - apply Forall_fmap, Forall_forall. intros r _. simpl.
      by rewrite length_map, length_seq. }
  assert (tensor_wf dropped) as Wd by (by apply dropout_wf).
  assert (tshape dropped = (U + B, d)) as Sd
    by (unfold dropped; by rewrite dropout_shape).
  pose proof (tensor_add_same_shape (tensor_div embed_0 2) (tensor_div dropped 2)
                (tensor_div_wf _ _ W0) (tensor_div_wf _ _ Wd)) as Hadd.
  simpl in Hadd. rewrite Sd in Hadd. specialize (Hadd eq_refl).
  pose proof (tensor_div_wf _ 2 W0) as [L0 R0].
  pose proof (tensor_div_wf _ 2 Wd) as [L1 R1].
  simpl in L0, R0, L1, R1. rewrite Sd in L1, R1. simpl in L1, R1.
  destruct (zip_rows_shape (U + B) d _ _ L0 L1 R0 R1) as [Lz Rz].
  unfold SCHBR.propagate. rewrite Hcat, bind_Ok, <- bind_assoc.
  rewrite (Split_HyperGraph_blocks N dev P HP) in Hsplit.
  injection Hsplit as <-.
  rewrite spmm_blocks by done. rewrite Hspmm, bind_Ok.
  fold dropped. rewrite Hadd, bind_Ok.
  unfold torch_split. cbn [tshape trows fst snd]. fold U B.
  rewrite decide_True by done.
  eexists _, _. split; [done|]. split; [done|]. split; [done|].
  split; split; cbn [tshape trows fst snd].
  - rewrite length_take. simpl in Lz. lia.
  - by apply Forall_take.
  - rewrite length_drop. simpl in Lz. lia.
  - by apply Forall_drop.
Qed.

Lemma init_dims (madd : Qc -> Qc -> Qc -> Qc) (np_sqrt : Qc -> Qc)
    (randn : nat -> Qc) (ui_graph bi_graph ub_graph : csr_matrix)
    (dev : device) (dp l2_norm : Qc) (emb_size : option nat)
    (self : SCHBR.t) :
  SCHBR.init madd np_sqrt randn (ui_graph, bi_graph, ub_graph)
             dev dp l2_norm emb_size = Ok self ->
  SCHBR.num_users self = nrows ub_graph
  /\ SCHBR.num_bundles self = ncols ub_graph.
Proof.
  intros Hinit. unfold SCHBR.init in Hinit.
  apply bind_Ok_inv in Hinit as (H & _ & Hinit).
  apply bind_Ok_inv in Hinit as (N' & _ & Hinit).
  apply bind_Ok_inv in Hinit as (atom & _ & Hinit).
  apply bind_Ok_inv in Hinit as (std & _ & Hinit).
  apply bind_Ok_inv in Hinit as (p & _ & Hinit).
  by injection Hinit as <-.
Qed.

(** X8: on every model that the constructor builds, [propagate] succeeds for
    every dropout mask and returns a well-formed [U x d] user table and
    [B x d] bundle table, [U] and [B] being the dimensions of the
    user-bundle relation and [d] the embedding size. *)
Theorem propagate_on_built_model (madd : Qc -> Qc -> Qc -> Qc)
    (np_sqrt : Qc -> Qc) (randn : nat -> Qc)
    (ui_graph bi_graph ub_graph : csr_matrix) (dev : device)
    (dp l2_norm : Qc) (emb_size : option nat) (self : SCHBR.t)
    (keep : nat -> nat -> bool) :
  SCHBR.init madd np_sqrt randn (ui_graph, bi_graph, ub_graph)
             dev dp l2_norm emb_size = Ok self ->
  exists UF BF,
    SCHBR.propagate self keep = Ok (UF, BF)
    /\ tshape UF = (nrows ub_graph, kwarg 64 emb_size)
    /\ tshape BF = (ncols ub_graph, kwarg 64 emb_size)
    /\ tensor_wf UF /\ tensor_wf BF.
Proof.
  intros Hinit.
  destruct (init_model_shapes _ _ _ _ _ _ _ _ _ Hinit)
    as (N & Hsplit & SN & Wu & Su & Wb & Sb & _).
  destruct (init_dims _ _ _ _ _ _ _ _ _ _ _ Hinit) as [EU EB].
  rewrite <- EU, <- EB.
  apply (propagate_total self keep N dev 16); (lia || done).
Qed.

(** X19: on every model that the constructor builds, [forward] succeeds
    for every dropout mask and every batch of [n] users and [n x k]
    bundles whose indices lie in [[0, U)] and [[0, B)]: the predictions
    have shape [n x k] and the user score bound has shape [n x 1 x 1]. *)
Theorem forward_on_built_model (madd : Qc -> Qc -> Qc -> Qc)
    (np_sqrt : Qc -> Qc) (randn : nat -> Qc)
    (ui_graph bi_graph ub_graph : csr_matrix) (dev : device)
    (dp l2_norm : Qc) (emb_size : option nat) (self : SCHBR.t)
    (keep : nat -> nat -> bool) (users bundles : index_tensor) (n k : nat) :
  SCHBR.init madd np_sqrt randn (ui_graph, bi_graph, ub_graph)
             dev dp l2_norm emb_size = Ok self ->
  index_wf users -> ishape users = (n, 1) ->
  index_wf bundles -> ishape bundles = (n, k) ->
  Forall (Forall (fun i => (0 <= i < Z.of_nat (nrows ub_graph))%Z))
         (irows users) ->
  Forall (Forall (fun i => (0 <= i < Z.of_nat (ncols ub_graph))%Z))
         (irows bundles) ->
  exists pred bound loss,
    SCHBR.forward self keep users bundles = Ok (pred, bound, loss)
    /\ tshape pred = (n, k)
    /\ tshape3 bound = (n, 1, 1).
Proof.
  intros Hinit Iu Su Ib Sb Hu Hb.
  destruct (init_model_shapes _ _ _ _ _ _ _ _ _ Hinit)
    as (N & Hsplit & SN & Wu & Sfu & Wb & Sfb & Sw).
  destruct (init_dims _ _ _ _ _ _ _ _ _ _ _ Hinit) as [EU EB].
  destruct (propagate_total self keep N dev 16 (kwarg 64 emb_size))
    as (UF & BF & Hprop & SUF & SBF & WUF & WBF); try (lia || done).
  rewrite EU in SUF. rewrite EB in SBF.
  pose proof (forward_value self keep users bundles UF BF n k
                (kwarg 64 emb_size) Hprop WUF WBF) as Hfwd.
  rewrite SUF, SBF, Sw in Hfwd. cbn [fst snd] in Hfwd.
  specialize (Hfwd eq_refl eq_refl eq_refl Iu Su Ib Sb Hu Hb).
  cbv zeta in Hfwd. rewrite Hfwd.
  eexists _, _, _. split; [done|]. done.
Qed.

(** ** When the accumulated count is the exact count *)

Lemma qz_plus (a b : Z) : qz (a + b) = (qz a + qz b)%Qc.
Proof.
  unfold qz. apply Qc_is_canon. simpl.
  rewrite !Qred_correct. by rewrite inject_Z_plus.
Qed.

Lemma qz_mult (a b : Z) : qz (a * b) = (qz a * qz b)%Qc.
Proof.
  unfold qz. apply Qc_is_canon. simpl.
  rewrite !Qred_correct. by rewrite inject_Z_mult.
Qed.

Lemma qz_le (a b : Z) : (a <= b)%Z -> (qz a <= qz b)%Qc.
Proof.
  intros H. unfold qz, Qcle. simpl. rewrite !Qred_correct.
  by rewrite <- Zle_Qle.
Qed.

Lemma qz_le_inv (a b : Z) : (qz a <= qz b)%Qc -> (a <= b)%Z.
Proof.
  unfold qz, Qcle. simpl. rewrite !Qred_correct. by rewrite <- Zle_Qle.
Qed.

Lemma Qfloor_qz (z : Z) : Qfloor (qz z) = z.
Proof.
  unfold qz. simpl. rewrite (Qfloor_comp _ (inject_Z z)) by apply Qred_correct.
  apply Qfloor_Z.
Qed.

Lemma is_count_nonneg (x : Qc) : is_count x -> (0 <= x)%Qc.
Proof. intros (z & Hz & ->). by apply (qz_le 0 z). Qed.

Lemma is_count_madd (s v b : Qc) :
  is_count s -> is_count v -> is_count b -> is_count (s + v * b)%Qc.
Proof.
  intros (zs & Hs & ->) (zv & Hv & ->) (zb & Hb & ->).
  exists (zs + zv * zb)%Z. split; [nia|]. by rewrite qz_plus, qz_mult.
Qed.

Lemma is_count_0 : is_count 0%Qc.
Proof. exists 0%Z. split; [lia|]. by apply Qc_is_canon. Qed.

Lemma products_nonneg (l : list (Qc * Qc)) :
  Forall (fun p : Qc * Qc => is_count (fst p) /\ is_count (snd p)) l ->
  (0 <= qsum (map (fun p : Qc * Qc => (fst p * snd p)%Qc) l))%Qc.
Proof.
  intros Hl. apply qsum_nonneg, Forall_fmap.
  eapply Forall_impl; [exact Hl|]. intros [a b] [Ha Hb]. simpl.
  apply is_count_nonneg.
  replace (a * b)%Qc with (0 + a * b)%Qc by ring.
  apply is_count_madd; [apply is_count_0|done|done].
Qed.

(** Steps that stay within the exact range of the dtype add up exactly. *)
Lemma foldl_madd_exact (madd : Qc -> Qc -> Qc -> Qc) (M : Z)
    (l : list (Qc * Qc)) (s : Qc) :
  exact_upto madd M -> is_count s ->
  Forall (fun p : Qc * Qc => is_count (fst p) /\ is_count (snd p)) l ->
  (s + qsum (map (fun p : Qc * Qc => (fst p * snd p)%Qc) l) <= qz M)%Qc ->
  foldl (fun (s : Qc) (p : Qc * Qc) => madd s (fst p) (snd p)) s l
  = (s + qsum (map (fun p : Qc * Qc => (fst p * snd p)%Qc) l))%Qc.
Proof.
  intros Hex. revert s. induction l as [|[a b] l IH]; intros s Hs Hl Hle;
    simpl in *; [ring|].
  apply Forall_cons in Hl as [[Ha Hb] Hl]. simpl in Ha, Hb.
  assert (madd s a b = (s + a * b)%Qc) as ->.
  { apply Hex; try done. eapply Qcle_trans; [|exact Hle].
    replace (s + a * b)%Qc with (s + a * b + 0)%Qc at 1 by ring.
    replace (s + (a * b + qsum (map (fun p : Qc * Qc => fst p * snd p) l)))%Qc
      with (s + a * b + qsum (map (fun p : Qc * Qc => fst p * snd p) l))%Qc
      by ring.
    apply Qcplus_le_compat; [apply Qcle_refl|by apply products_nonneg]. }
  rewrite IH; [ring|by apply is_count_madd|done|].
  replace (s + a * b + qsum (map (fun p : Qc * Qc => fst p * snd p) l))%Qc
    with (s + (a * b + qsum (map (fun p : Qc * Qc => fst p * snd p) l)))%Qc
    by ring.
  exact Hle.
Qed.

Lemma csr_row_Forall (P : Qc -> Prop) (M : csr_matrix) (i : nat) :
  Forall P (data M) -> Forall (fun cv : nat * Qc => P (snd cv)) (csr_row M i).
Proof.
  intros Hd. apply Forall_forall. intros [c v] Hcv. simpl.
  rewrite Forall_forall in Hd. apply Hd.
  unfold csr_row in Hcv. apply elem_of_zip_r in Hcv.
  by eapply slice_elem_of.
Qed.

Lemma Forall_flat_map {A B : Type} (P : B -> Prop) (f : A -> list B)
    (l : list A) :
  Forall (fun x => Forall P (f x)) l -> Forall P (flat_map f l).
Proof.
  induction 1 as [|x l Hx _ IH]; simpl; [constructor|].
  apply Forall_app. by split.
Qed.

Lemma transpose_values (P : Qc -> Prop) (M : csr_matrix) (k : nat) :
  Forall P (data M) ->
  Forall (fun cv : nat * Qc => P (snd cv)) (csr_row (transpose M) k).
Proof.
  intros Hd. unfold transpose. rewrite csr_row_of_rows.
  destruct (decide (k < ncols M)) as [Hk|Hk].
  2:{ rewrite nth_overflow by (rewrite length_map, length_seq; lia).
      constructor. }
  rewrite nth_map_seq by done. unfold transpose_row.
  apply Forall_flat_map, Forall_forall. intros [i r] Hir.
  apply elem_of_zip_r in Hir. simpl.
  apply Forall_flat_map.
  assert (Forall (fun cv : nat * Qc => P (snd cv)) r) as Hr.
  { unfold csr_rows in Hir. apply list_elem_of_fmap in Hir as (i' & -> & _).
    by apply csr_row_Forall. }
  eapply Forall_impl; [exact Hr|]. intros [c v] Hv. simpl in *.
  destruct (Nat.eqb c k); constructor; [done|constructor].
Qed.

Lemma factors_counts (ra : sparse_row) (B : csr_matrix) (j : nat) :
  Forall (fun cv : nat * Qc => is_count (snd cv)) ra ->
  (forall k, Forall (fun cv : nat * Qc => is_count (snd cv)) (csr_row B k)) ->
  Forall (fun p : Qc * Qc => is_count (fst p) /\ is_count (snd p))
         (factors ra B j).
Proof.
  intros Hra HB. unfold factors. apply Forall_flat_map.
  eapply Forall_impl; [exact Hra|]. intros [k a] Ha. simpl in *.
  apply Forall_flat_map.
  eapply Forall_impl; [apply (HB k)|]. intros [c v] Hv. simpl in *.
  destruct (Nat.eqb c j); constructor; [done|constructor].
Qed.

Lemma row_times_dtype_exact_upto (madd : Qc -> Qc -> Qc -> Qc) (M : Z)
    (ra : sparse_row) (B : csr_matrix) (j : nat) :
  exact_upto madd M ->
  Forall (fun cv : nat * Qc => is_count (snd cv)) ra ->
  (forall k, Forall (fun cv : nat * Qc => is_count (snd cv)) (csr_row B k)) ->
  (row_times ra B j <= qz M)%Qc ->
  row_times_dtype madd ra B j = row_times ra B j.
Proof.
  intros Hex Hra HB Hle.
  rewrite row_times_dtype_factors, row_times_factors in *.
  rewrite (foldl_madd_exact madd M); [ring|done|apply is_count_0| |].
  - by apply factors_counts.
  - by rewrite Qcplus_0_l.
Qed.

(** The exact sums of the two products are the co-occurrence counts. *)
Lemma row_times_count_users (ub_graph : csr_matrix) (i j : nat) :
  cols_in_range ub_graph -> i < nrows ub_graph -> j < nrows ub_graph ->
  row_times (csr_row ub_graph i) (transpose ub_graph) j
  = count_users ub_graph i j.
Proof.
  intros Hin Hi Hj. unfold row_times, count_users.
  pose proof (cols_in_range_row ub_graph i Hin Hi) as Hr.
  rewrite (qsum_map_ext _ (fun ka : nat * Qc =>
                             (snd ka * get ub_graph j (fst ka))%Qc)).
  - by rewrite (row_sum_by_column (ncols ub_graph) _
                  (fun k => get ub_graph j k)).
  - intros [k a] Hka. simpl. f_equal. apply transpose_get; [|done].
    unfold row_in_range in Hr. rewrite Forall_forall in Hr. apply (Hr _ Hka).
Qed.

Lemma row_times_count_bundles (ub_graph : csr_matrix) (i j : nat) :
  i < ncols ub_graph -> j < ncols ub_graph ->
  row_times (csr_row (transpose ub_graph) i) ub_graph j
  = count_bundles ub_graph i j.
Proof.
  intros Hi Hj. unfold row_times, count_bundles.
  rewrite (row_sum_by_column (nrows ub_graph) _ (fun k => get ub_graph k j))
    by (apply (cols_in_range_row (transpose ub_graph) i);
        [apply transpose_in_range|done]).
  apply qsum_range_ext. intros k Hk. f_equal.
  change (row_get (csr_row (transpose ub_graph) i) k)
    with (get (transpose ub_graph) i k).
  by apply transpose_get.
Qed.

Lemma dtype_count_users (madd : Qc -> Qc -> Qc -> Qc) (M : Z)
    (ub_graph uu0 : csr_matrix) (i j : nat) :
  cols_in_range ub_graph -> Forall is_count (data ub_graph) ->
  exact_upto madd M ->
  matmul_dtype madd ub_graph (transpose ub_graph) = Ok uu0 ->
  i < nrows ub_graph -> j < nrows ub_graph ->
  (count_users ub_graph i j <= qz M)%Qc ->
  get uu0 i j = count_users ub_graph i j.
Proof.
  intros Hin Hd Hex Huu Hi Hj Hle.
  rewrite (matmul_dtype_get _ _ _ _ _ _ Huu) by done.
  rewrite <- (row_times_count_users _ _ _ Hin Hi Hj) in *.
  apply (row_times_dtype_exact_upto madd M); try done.
  - by apply csr_row_Forall.
  - intros k. by apply transpose_values.
Qed.

Lemma dtype_count_bundles (madd : Qc -> Qc -> Qc -> Qc) (M : Z)
    (ub_graph bb0 : csr_matrix) (i j : nat) :
  Forall is_count (data ub_graph) ->
  exact_upto madd M ->
  matmul_dtype madd (transpose ub_graph) ub_graph = Ok bb0 ->
  i < ncols ub_graph -> j < ncols ub_graph ->
  (count_bundles ub_graph i j <= qz M)%Qc ->
  get bb0 i j = count_bundles ub_graph i j.
Proof.
  intros Hd Hex Hbb Hi Hj Hle.
  rewrite (matmul_dtype_get _ _ _ _ _ _ Hbb) by done.
  rewrite <- (row_times_count_bundles _ _ _ Hi Hj) in *.
  apply (row_times_dtype_exact_upto madd M); try done.
  - by apply transpose_values.
  - intros k. by apply csr_row_Forall.
Qed.

(** int64 is exact on non-negative integers up to [2^63 - 1]; exact
    arithmetic is exact everywhere. *)
Lemma int64_exact : exact_upto int64_madd (2 ^ 63 - 1).
Proof.
  intros s v b Hs Hv Hb Hle.
  destruct (is_count_madd s v b Hs Hv Hb) as (z & Hz & E).
  unfold int64_madd. rewrite E in *. rewrite Qfloor_qz. f_equal.
  apply qz_le_inv in Hle. unfold wrap_int64.
  rewrite Z.mod_small by lia. lia.
Qed.

Lemma exact_madd_exact (M : Z) : exact_upto exact_madd M.
Proof. by intros s v b _ _ _ _. Qed.

(** ** Reading a thresholded product *)

Lemma row_get_mapped_dense (f : Qc -> Qc) (s : nat) (xs : list Qc) (j : nat) :
  row_get (map (fun p : nat * Qc => (fst p, f (snd p))) (row_of_dense s xs)) j
  = if decide (s <= j < s + length xs) then
      if decide (nth (j - s) xs 0%Qc = 0%Qc) then 0%Qc
      else f (nth (j - s) xs 0%Qc)
    else 0%Qc.
Proof.
  revert s. induction xs as [|x xs IH]; intros s;
    cbn [row_of_dense map row_get length].
  - destruct (decide (s <= j < s + 0)); [lia|done].
  - destruct (decide (x = 0%Qc)) as [Hx|Hx];
      cbn [map row_get fst snd]; rewrite IH.
    + destruct (decide (S s <= j < S s + length xs)).
      * destruct (decide (s <= j < s + S (length xs))); [|lia].
        by replace (j - s) with (S (j - S s)) by lia.
      * destruct (decide (s <= j < s + S (length xs))); [|done].
        assert (j = s) as -> by lia. rewrite Nat.sub_diag.
        cbn [nth]. by rewrite decide_True.
    + destruct (Nat.eqb_spec s j) as [->|Hne].
      * destruct (decide (S j <= j < S j + length xs)); [lia|].
        destruct (decide (j <= j < j + S (length xs))); [|lia].
        rewrite Nat.sub_diag. cbn [nth]. rewrite decide_False by done. ring.
      * destruct (decide (S s <= j < S s + length xs)).
        -- destruct (decide (s <= j < s + S (length xs))); [|lia].
           by replace (j - s) with (S (j - S s)) by lia.
        -- destruct (decide (s <= j < s + S (length xs))); [lia|done].
Qed.

Lemma similarity_get (madd : Qc -> Qc -> Qc -> Qc) (t : Qc)
    (A B P S : csr_matrix) (i j : nat) :
  matmul_dtype madd A B = Ok P -> similarity t (nrows A) P = Ok S ->
  i < nrows A -> j < ncols B ->
  get S i j = if decide (get P i j = 0%Qc) then 0%Qc else binarize t (get P i j).
Proof.
  intros HP HS Hi Hj. rewrite (similarity_matmul_dtype madd t A B P HP) in HS.
  injection HS as <-. unfold get at 1. rewrite binarized_row.
  rewrite (matmul_dtype_get _ _ _ _ _ _ HP) by done.
  rewrite (matmul_dtype_row _ _ _ _ _ HP Hi), row_get_mapped_dense.
  rewrite length_map, length_seq, decide_True by lia.
  by rewrite Nat.sub_0_r, nth_map_seq.
Qed.

(** ** The similarity loops *)

(** C4 as stated fails: for the int64 relation [[2^32, 1]] the co-occurrence
    count of user 0 with itself is [2^64 + 1], above the threshold 10, and
    the entry is stored, but the product holds the wrapped value 1 there, so
    the loop writes 0, in the similarity relation and in the incidence
    structure that [mix_Hypergraph] returns. *)
Lemma similarity_count_wraps :
  exists uu0 uu H,
    matmul_dtype int64_madd ub_wrap (transpose ub_wrap) = Ok uu0
    /\ similarity (Q2Qc 10) (nrows ub_wrap) uu0 = Ok uu
    /\ mix_Hypergraph int64_madd (ui_1x1, bi_2x1, ub_wrap) (Some (Q2Qc 10))
       = Ok H
    /\ count_users ub_wrap 0 0 = qz (2 ^ 64 + 1)
    /\ (Q2Qc 10 < count_users ub_wrap 0 0)%Qc
    /\ indices uu0 = [0] /\ data uu0 = [qz 1]
    /\ indices uu = [0] /\ data uu = [qz 0]
    /\ get H 0 (ncols ui_1x1 + 0) = qz 0.
Proof.
  destruct (matmul_dtype int64_madd ub_wrap (transpose ub_wrap))
    as [uu0|e] eqn:Huu0; [|by vm_compute in Huu0].
  destruct (similarity (Q2Qc 10) (nrows ub_wrap) uu0) as [uu|e] eqn:Huu.
  2:{ revert Huu0 Huu. vm_compute. intros [= <-]. by vm_compute. }
  destruct (mix_Hypergraph int64_madd (ui_1x1, bi_2x1, ub_wrap)
              (Some (Q2Qc 10))) as [H|e] eqn:HH; [|by vm_compute in HH].
  exists uu0, uu, H. do 3 (split; [done|]).
  assert (count_users ub_wrap 0 0 = qz (2 ^ 64 + 1)) as Hcount
    by (apply Qc_is_canon; reflexivity).
  split; [exact Hcount|]. split; [by rewrite Hcount|].
  assert (uu0 = CSR (1, 1) [0; 1] [0] [qz 1]) as ->.
  { revert Huu0. vm_compute. intros [= <-].
    first [done | repeat f_equal; by apply Qc_is_canon]. }
  assert (uu = CSR (1, 1) [0; 1] [0] [qz 0]) as ->.
  { revert Huu. vm_compute. intros [= <-].
    first [done | repeat f_equal; by apply Qc_is_canon]. }
  do 4 (split; [done|]).
  revert HH. vm_compute. intros [= <-].
  first [done | by apply Qc_is_canon].
Qed.

(** C4, amended: the two co-occurrence products are always defined, in the
    arithmetic of the dtype of the relation, and [mix_Hypergraph] stacks
    their thresholded forms: the loops rewrite every stored value [x] of a
    product to [1] when [x > threshold] and to [0] otherwise; shape, row
    pointers and column indices are left as they are, so no position
    outside the stored ones is touched; when no stored value exceeds the
    threshold, every value of both results is [0].  A product stores no 0.
    The stored value of an entry is its exact co-occurrence count when the
    relation holds non-negative integers and the count is within the range
    in which the dtype adds and multiplies such integers exactly, which
    for int64 ends at [2^63 - 1]. *)
Theorem similarity_thresholds (madd : Qc -> Qc -> Qc -> Qc)
    (ub_graph : csr_matrix) (threshold : Qc) :
  exists uu0 bb0 uu bb,
    matmul_dtype madd ub_graph (transpose ub_graph) = Ok uu0
    /\ matmul_dtype madd (transpose ub_graph) ub_graph = Ok bb0
    /\ similarity threshold (nrows ub_graph) uu0 = Ok uu
    /\ similarity threshold (ncols ub_graph) bb0 = Ok bb
    /\ (forall ui_graph bi_graph,
          mix_Hypergraph madd (ui_graph, bi_graph, ub_graph) (Some threshold)
          = (H_i ← vstack ui_graph bi_graph;
             col1 ← vstack uu (transpose ub_graph);
             col2 ← vstack ub_graph bb;
             H_ub ← hstack col1 col2;
             hstack H_i H_ub))
    /\ (shape uu = shape uu0 /\ indptr uu = indptr uu0
        /\ indices uu = indices uu0 /\ length (data uu) = length (data uu0))
    /\ (shape bb = shape bb0 /\ indptr bb = indptr bb0
        /\ indices bb = indices bb0 /\ length (data bb) = length (data bb0))
    /\ (forall r x, data uu0 !! r = Some x ->
          data uu !! r = Some (if decide (threshold < x)%Qc then 1%Qc else 0%Qc))
    /\ (forall r x, data bb0 !! r = Some x ->
          data bb !! r = Some (if decide (threshold < x)%Qc then 1%Qc else 0%Qc))
    /\ (Forall (fun x => (x <= threshold)%Qc) (data uu0 ++ data bb0) ->
          Forall (fun x => x = 0%Qc) (data uu)
          /\ Forall (fun x => x = 0%Qc) (data bb))
    /\ Forall (fun x => x <> 0%Qc) (data uu0 ++ data bb0)
    /\ exact_upto int64_madd (2 ^ 63 - 1)
    /\ (forall M : Z,
          csr_wf ub_graph = true -> Forall is_count (data ub_graph) ->
          exact_upto madd M ->
          (forall i j, i < nrows ub_graph -> j < nrows ub_graph ->
             (count_users ub_graph i j <= qz M)%Qc ->
             get uu0 i j = count_users ub_graph i j)
          /\ (forall i j, i < ncols ub_graph -> j < ncols ub_graph ->
                (count_bundles ub_graph i j <= qz M)%Qc ->
                get bb0 i j = count_bundles ub_graph i j)).
Proof.
  destruct (mix_Hypergraph_inner madd ub_graph threshold)
    as (uu0 & bb0 & uu & bb & col1 & col2 & H_ub & Huu0 & Huu & Hbb0 & Hbb
        & Hcol1 & Hcol2 & HHub & _ & _ & _ & _ & _ & _ & Hmix).
  pose proof (similarity_matmul_dtype madd threshold _ _ _ Huu0) as Hsu.
  pose proof (similarity_matmul_dtype madd threshold _ _ _ Hbb0) as Hsb.
  change (nrows (transpose ub_graph)) with (ncols ub_graph) in Hsb.
  assert (uu = CSR (shape uu0) (indptr uu0) (indices uu0)
                   (map (binarize threshold) (data uu0))) as Euu by congruence.
  assert (bb = CSR (shape bb0) (indptr bb0) (indices bb0)
                   (map (binarize threshold) (data bb0))) as Ebb by congruence.
  exists uu0, bb0, uu, bb. do 4 (split; [done|]). split.
  { intros ui_graph bi_graph. rewrite Hmix.
    destruct (vstack ui_graph bi_graph) as [H_i|e]; [|done].
    by rewrite !bind_Ok, Hcol1, bind_Ok, Hcol2, bind_Ok, HHub, bind_Ok. }
  rewrite Euu, Ebb. cbn [shape indptr indices data]. rewrite !length_map.
  split; [done|]. split; [done|].
  split; [intros r x Hx; by rewrite list_lookup_fmap, Hx|].
  split; [intros r x Hx; by rewrite list_lookup_fmap, Hx|].
  split.
  { intros Hmax. apply Forall_app in Hmax as [Hu Hb].
    split; apply Forall_fmap; (eapply Forall_impl; [eassumption|]);
      intros x Hx; by apply binarize_le. }
  split.
  { apply Forall_app. split; by eapply matmul_dtype_nonzero. }
  split; [apply int64_exact|].
  intros M Hwf Hd Hex. pose proof (csr_wf_in_range _ Hwf) as Hin. split.
  - intros i j Hi Hj Hle.
    by apply (dtype_count_users madd M ub_graph uu0 i j).
  - intros i j Hi Hj Hle.
    by apply (dtype_count_bundles madd M ub_graph bb0 i j).
Qed.

(** The example of the specification: the bundle counts 4 and 400 against
    the threshold 10, in int64 as in exact arithmetic. *)
Example similarity_scenario :
  match (bb ← matmul_dtype int64_madd (transpose ub_2x2) ub_2x2;
         bb' ← similarity (Q2Qc 10) (ncols ub_2x2) bb;
         Ok (bb, bb')) with
  | Ok (bb, bb') =>
      indices bb = [0; 1] /\ data bb = [qz 4; qz 400]
      /\ indices bb' = [0; 1] /\ data bb' = [qz 0; qz 1]
  | Raise _ => False
  end.
Proof.
  vm_compute. repeat split; repeat f_equal; by apply Qc_is_canon.
Qed.

(** ** The outcome of the constructor *)



(** ** The similarity relations as matrices *)

(** X10: for a relation of non-negative integers, a threshold that is not
    negative and a dtype that adds and multiplies such integers exactly up
    to [M], every entry [(i, j)] whose co-occurrence count is at most [M]
    is 1 in the similarity relation when the count is greater than the
    threshold, and 0 otherwise, stored or not. *)
Theorem similarity_entries (madd : Qc -> Qc -> Qc -> Qc)
    (ub_graph : csr_matrix) (threshold : Qc) (M : Z) :
  csr_wf ub_graph = true ->
  (0 <= threshold)%Qc ->
  Forall is_count (data ub_graph) ->
  exact_upto madd M ->
  exists uu0 bb0 uu bb,
    matmul_dtype madd ub_graph (transpose ub_graph) = Ok uu0
    /\ similarity threshold (nrows ub_graph) uu0 = Ok uu
    /\ matmul_dtype madd (transpose ub_graph) ub_graph = Ok bb0
    /\ similarity threshold (ncols ub_graph) bb0 = Ok bb
    /\ (forall i j, i < nrows ub_graph -> j < nrows ub_graph ->
          (count_users ub_graph i j <= qz M)%Qc ->
          get uu i j
          = if decide (threshold < count_users ub_graph i j)%Qc
            then 1%Qc else 0%Qc)
    /\ (forall i j, i < ncols ub_graph -> j < ncols ub_graph ->
          (count_bundles ub_graph i j <= qz M)%Qc ->
          get bb i j
          = if decide (threshold < count_bundles ub_graph i j)%Qc
            then 1%Qc else 0%Qc).
Proof.
  intros Hwf Ht Hd Hex. pose proof (csr_wf_in_range _ Hwf) as Hin.
  destruct (mix_Hypergraph_inner madd ub_graph threshold)
    as (uu0 & bb0 & uu & bb & col1 & col2 & H_ub & Huu0 & Huu & Hbb0 & Hbb & _).
  assert (forall count : Qc,
            (if decide (count = 0%Qc) then 0%Qc else binarize threshold count)
            = if decide (threshold < count)%Qc then 1%Qc else 0%Qc) as Hbin.
  { intros count. unfold binarize.
    destruct (decide (count = 0%Qc)) as [->|_]; [|done].
    rewrite decide_False; [done|]. by apply Qcle_not_lt. }
  exists uu0, bb0, uu, bb. do 4 (split; [done|]). split.
  - intros i j Hi Hj Hle.
    rewrite (similarity_get _ _ _ _ _ _ i j Huu0 Huu) by done.
    rewrite (dtype_count_users madd M ub_graph uu0 i j) by done. apply Hbin.
  - intros i j Hi Hj Hle.
    rewrite (similarity_get _ _ _ _ _ _ i j Hbb0 Hbb) by done.
    rewrite (dtype_count_bundles madd M ub_graph bb0 i j) by done. apply Hbin.
Qed.

(** X11: in exact arithmetic both similarity relations are symmetric
    matrices. *)
Theorem similarity_symmetric (ub_graph : csr_matrix) (threshold : Qc) :
  csr_wf ub_graph = true ->
  exists uu0 bb0 uu bb,
    matmul_dtype exact_madd ub_graph (transpose ub_graph) = Ok uu0
    /\ similarity threshold (nrows ub_graph) uu0 = Ok uu
    /\ matmul_dtype exact_madd (transpose ub_graph) ub_graph = Ok bb0
    /\ similarity threshold (ncols ub_graph) bb0 = Ok bb
    /\ (forall i j, i < nrows ub_graph -> j < nrows ub_graph ->
          get uu i j = get uu j i)
    /\ (forall i j, i < ncols ub_graph -> j < ncols ub_graph ->
          get bb i j = get bb j i).
Proof.
  intros Hwf. pose proof (csr_wf_in_range _ Hwf) as Hin.
  destruct (mix_Hypergraph_inner exact_madd ub_graph threshold)
    as (uu0 & bb0 & uu & bb & col1 & col2 & H_ub & Huu0 & Huu & Hbb0 & Hbb & _).
  assert (forall i j, count_users ub_graph i j = count_users ub_graph j i)
    as Hcu by (intros i j; apply qsum_range_ext; intros k _; ring).
  assert (forall i j, count_bundles ub_graph i j = count_bundles ub_graph j i)
    as Hcb by (intros i j; apply qsum_range_ext; intros k _; ring).
  exists uu0, bb0, uu, bb. do 4 (split; [done|]). split.
  - intros i j Hi Hj.
    rewrite (similarity_get _ _ _ _ _ _ i j Huu0 Huu) by done.
    rewrite (similarity_get _ _ _ _ _ _ j i Huu0 Huu) by done.
    rewrite !(matmul_dtype_get _ _ _ _ _ _ Huu0) by done.
    rewrite !row_times_dtype_exact, !row_times_count_users by done.
    by rewrite (Hcu i j).
  - intros i j Hi Hj.
    rewrite (similarity_get _ _ _ _ _ _ i j Hbb0 Hbb) by done.
    rewrite (similarity_get _ _ _ _ _ _ j i Hbb0 Hbb) by done.
    rewrite !(matmul_dtype_get _ _ _ _ _ _ Hbb0) by done.
    rewrite !row_times_dtype_exact, !row_times_count_bundles by done.
    by rewrite (Hcb i j).
Qed.

Lemma binarize_mono (t1 t2 x : Qc) :
  (t1 <= t2)%Qc -> binarize t2 x = 1%Qc -> binarize t1 x = 1%Qc.
Proof.
  intros Hle. unfold binarize. case_decide as H2; [|done]. intros _.
  rewrite decide_True; [done|]. by apply (Qcle_lt_trans _ t2).
Qed.

(** X12: raising the threshold never adds a similarity edge: every stored
    position that holds 1 under the larger threshold holds 1 under the
    smaller one, on the user side and on the bundle side, whatever the
    arithmetic of the products is. *)
Theorem similarity_monotone (madd : Qc -> Qc -> Qc -> Qc)
    (ub_graph : csr_matrix) (t1 t2 : Qc) :
  (t1 <= t2)%Qc ->
  exists uu0 bb0 uu1 uu2 bb1 bb2,
    matmul_dtype madd ub_graph (transpose ub_graph) = Ok uu0
    /\ matmul_dtype madd (transpose ub_graph) ub_graph = Ok bb0
    /\ similarity t1 (nrows ub_graph) uu0 = Ok uu1
    /\ similarity t2 (nrows ub_graph) uu0 = Ok uu2
    /\ similarity t1 (ncols ub_graph) bb0 = Ok bb1
    /\ similarity t2 (ncols ub_graph) bb0 = Ok bb2
    /\ indices uu1 = indices uu2 /\ indptr uu1 = indptr uu2
    /\ indices bb1 = indices bb2 /\ indptr bb1 = indptr bb2
    /\ (forall r, data uu2 !! r = Some 1%Qc -> data uu1 !! r = Some 1%Qc)
    /\ (forall r, data bb2 !! r = Some 1%Qc -> data bb1 !! r = Some 1%Qc).
Proof.
  intros Hle.
  destruct (matmul_dtype madd ub_graph (transpose ub_graph))
    as [uu0|e] eqn:Huu;
    [|unfold matmul_dtype in Huu; by rewrite decide_True in Huu].
  destruct (matmul_dtype madd (transpose ub_graph) ub_graph)
    as [bb0|e] eqn:Hbb;
    [|unfold matmul_dtype in Hbb; by rewrite decide_True in Hbb].
  pose proof (similarity_matmul_dtype madd t1 _ _ _ Huu) as Hu1.
  pose proof (similarity_matmul_dtype madd t2 _ _ _ Huu) as Hu2.
  pose proof (similarity_matmul_dtype madd t1 _ _ _ Hbb) as Hb1.
  pose proof (similarity_matmul_dtype madd t2 _ _ _ Hbb) as Hb2.
  change (nrows (transpose ub_graph)) with (ncols ub_graph) in Hb1, Hb2.
  eexists uu0, bb0, _, _, _, _.
  do 2 (split; [done|]).
  split; [exact Hu1|]. split; [exact Hu2|].
  split; [exact Hb1|]. split; [exact Hb2|].
  cbn [indices indptr data]. do 4 (split; [done|]).
  split; intros r; rewrite !list_lookup_fmap;
    (destruct (_ !! r) as [x|]; simpl; [|done]);
    intros [= H2]; f_equal; by apply (binarize_mono t1 t2).
Qed.

(** ** The normalised operator, entry by entry *)

Lemma normalize_entry (np_sqrt : Qc -> Qc) (H N : csr_matrix) (i j : nat) :
  cols_in_range H ->
  normalize_HyperGraph np_sqrt H = Ok N ->
  i < nrows H -> j < nrows H ->
  let Dv := fun i =>
    (1 / (np_sqrt (qsum_range (ncols H) (fun k => get H i k)) + eps))%Qc in
  let De := fun k =>
    (1 / (np_sqrt (qsum_range (nrows H) (fun i => get H i k)) + eps))%Qc in
  get N i j
  = (Dv i * qsum_range (ncols H) (fun k => (get H i k * De k * get H j k)%Qc)
     * Dv j)%Qc.
Proof.
  intros Hin HN' Hi Hj Dv De.
  set (dv := inv_sqrt_deg np_sqrt (sum_axis1 H)).
  set (de := inv_sqrt_deg np_sqrt (sum_axis0 H)).
  assert (length dv = nrows H) as Ldv
    by (unfold dv; by rewrite inv_sqrt_deg_length, sum_axis1_length).
  assert (length de = ncols H) as Lde
    by (unfold de; by rewrite inv_sqrt_deg_length, sum_axis0_length).
  assert (forall i, i < nrows H -> nth i dv 0%Qc = Dv i) as Edv.
  { intros i' Hi'. unfold dv.
    rewrite inv_sqrt_deg_nth by (by rewrite sum_axis1_length).
    unfold Dv. by rewrite sum_axis1_nth. }
  assert (forall k, k < ncols H -> nth k de 0%Qc = De k) as Ede.
  { intros k Hk. unfold de.
    rewrite inv_sqrt_deg_nth by (by rewrite sum_axis0_length).
    unfold De. by rewrite sum_axis0_nth. }
  destruct (normalize_HyperGraph_chain np_sqrt H)
    as (m1 & m2 & m3 & N' & H1 & H2 & H3 & H4 & S1 & S2 & S3 & S4 & HN).
  rewrite HN in HN'. injection HN' as ->.
  fold dv de in H1, H2, H4.
  rewrite (diags_right_get _ _ _ _ _ H4)
    by (rewrite ?(shape_nrows _ _ _ S3), ?Ldv; done).
  rewrite (Edv j Hj).
  rewrite (matmul_get _ _ _ _ _ H3)
    by (rewrite ?(shape_nrows _ _ _ S2); done).
  unfold row_times.
  rewrite (qsum_map_ext _ (fun ka : nat * Qc => (snd ka * get H j (fst ka))%Qc)).
  2:{ intros [c a] Hca. simpl. f_equal. apply transpose_get; [|done].
      pose proof (cols_in_range_row m2 i (matmul_in_range _ _ _ H2)) as Hr.
      rewrite (shape_nrows _ _ _ S2), (shape_ncols _ _ _ S2) in Hr.
      specialize (Hr Hi). unfold row_in_range in Hr. rewrite Forall_forall in Hr.
      apply (Hr _ Hca). }
  rewrite (row_sum_by_column (ncols H)).
  2:{ pose proof (cols_in_range_row m2 i (matmul_in_range _ _ _ H2)) as Hr.
      rewrite (shape_nrows _ _ _ S2), (shape_ncols _ _ _ S2) in Hr. by apply Hr. }
  f_equal. rewrite <- qsum_range_scale_l. apply qsum_range_ext. intros k Hk.
  change (row_get (csr_row m2 i) k) with (get m2 i k).
  rewrite (diags_right_get _ _ _ _ _ H2)
    by (rewrite ?(shape_nrows _ _ _ S1), ?Lde; done).
  rewrite (diags_left_get _ _ _ _ _ H1) by (rewrite ?Ldv; done).
  rewrite (Edv i Hi), (Ede k Hk). ring.
Qed.



(** X13: in exact arithmetic the normalised operator of a well-formed [H]
    is a symmetric matrix. *)
Theorem normalized_operator_symmetric (np_sqrt : Qc -> Qc) (H N : csr_matrix) :
  csr_wf H = true ->
  normalize_HyperGraph np_sqrt H = Ok N ->
  forall i j, i < nrows H -> j < nrows H -> get N i j = get N j i.
Proof.
  intros Hwf HN i j Hi Hj.
  rewrite (normalize_entry np_sqrt H N i j (csr_wf_in_range H Hwf) HN Hi Hj).
  rewrite (normalize_entry np_sqrt H N j i (csr_wf_in_range H Hwf) HN Hj Hi).
  cbv zeta.
  rewrite (qsum_range_ext (ncols H)
             (fun k => (get H j k
                        * (1 / (np_sqrt (qsum_range (nrows H)
                                           (fun i0 => get H i0 k)) + eps))
                        * get H i k)%Qc)
             (fun k => (get H i k
                        * (1 / (np_sqrt (qsum_range (nrows H)
                                           (fun i0 => get H i0 k)) + eps))
                        * get H j k)%Qc))
    by (intros k _; ring).
  ring.
Qed.




(** ** The sizes of the blocks *)

(** X16: for [P >= 1] blocks of an operator with [N] rows, every block
    but the last has [N // P] rows and the last has [N // P + N mod P];
    when [N < P] every block but the last is empty and the last one is the
    whole operator.  A block count of 0 raises [ZeroDivisionError]. *)
Theorem Split_HyperGraph_block_sizes (H : csr_matrix) (dev : device) (P : nat) :
  (P = 0 -> Split_HyperGraph H dev (Some P) = Raise ZeroDivisionError)
  /\ (1 <= P ->
      exists blocks,
        Split_HyperGraph H dev (Some P) = Ok blocks
        /\ length blocks = P
        /\ (forall i G, i < P - 1 -> blocks !! i = Some G ->
              nrows (st_mat G) = nrows H / P)
        /\ (forall G, blocks !! (P - 1) = Some G ->
              nrows (st_mat G) = nrows H / P + nrows H mod P)
        /\ (nrows H < P ->
              (forall i G, i < P - 1 -> blocks !! i = Some G ->
                 csr_rows (st_mat G) = [])
              /\ forall G, blocks !! (P - 1) = Some G ->
                   csr_rows (st_mat G) = csr_rows H)).
Proof.
  split.
  - intros ->. unfold Split_HyperGraph. cbn. done.
  - intros HP. eexists. split; [by apply Split_HyperGraph_blocks|].
    assert (forall i G,
              map (fun i => from_scipy_to dev
                              (row_slice H (block_lo (nrows H) P i)
                                           (block_hi (nrows H) P i)))
                  (seq 0 P) !! i = Some G ->
              i < P
              /\ st_mat G = row_slice H (block_lo (nrows H) P i)
                                        (block_hi (nrows H) P i)) as Hblk.
    { intros i G HG. rewrite list_lookup_fmap in HG.
      destruct (seq 0 P !! i) as [i'|] eqn:Hseq; [|done].
      apply lookup_seq in Hseq as [-> Hi]. simpl in HG.
      injection HG as <-. done. }
    assert (nrows H = P * (nrows H / P) + nrows H mod P) as Hdiv
      by (apply Nat.div_mod_eq).
    split; [by rewrite length_map, length_seq|]. split; [|split].
    + intros i G Hi HG. apply Hblk in HG as [HiP ->].
      destruct (block_bounds (nrows H) P i HiP) as [Hlo Hhi].
      rewrite (shape_nrows _ _ _ (row_slice_shape H _ _ Hlo Hhi)).
      unfold block_lo, block_hi. rewrite decide_False by lia. lia.
    + intros G HG. apply Hblk in HG as [HiP ->].
      destruct (block_bounds (nrows H) P (P - 1) HiP) as [Hlo Hhi].
      rewrite (shape_nrows _ _ _ (row_slice_shape H _ _ Hlo Hhi)).
      unfold block_lo, block_hi. rewrite decide_True by done. nia.
    + intros Hsmall.
      assert (nrows H / P = 0) as Hq by (by apply Nat.div_small).
      split.
      * intros i G Hi HG. apply Hblk in HG as [HiP ->].
        destruct (block_bounds (nrows H) P i HiP) as [Hlo Hhi].
        rewrite (row_slice_rows H _ _ Hlo Hhi).
        unfold block_lo, block_hi. rewrite decide_False by lia.
        rewrite Hq, !Nat.mul_0_r. apply slice_empty. lia.
      * intros G HG. apply Hblk in HG as [HiP ->].
        destruct (block_bounds (nrows H) P (P - 1) HiP) as [Hlo Hhi].
        rewrite (row_slice_rows H _ _ Hlo Hhi).
        unfold block_lo, block_hi. rewrite decide_True by done.
        rewrite Hq, Nat.mul_0_r.
        rewrite <- (csr_rows_length H) at 1. apply slice_full.
Qed.

(** ** The regulariser *)





(** ** The operator of a built model *)




(** ** The order of the accumulation in canonical format *)

Lemma flat_map_ext_in {A B : Type} (f g : A -> list B) (l : list A) :
  Forall (fun x => f x = g x) l -> flat_map f l = flat_map g l.
Proof. induction 1 as [|x l Hx _ IH]; simpl; [done|]. by rewrite Hx, IH. Qed.

Lemma flat_map_flat_map {A B C : Type} (f : B -> list C) (g : A -> list B)
    (l : list A) :
  flat_map f (flat_map g l) = flat_map (fun x => flat_map f (g x)) l.
Proof.
  induction l as [|x l IH]; simpl; [done|]. by rewrite flat_map_app, IH.
Qed.

Lemma map_flat_map {A B C : Type} (f : B -> C) (g : A -> list B) (l : list A) :
  map f (flat_map g l) = flat_map (fun x => map f (g x)) l.
Proof.
  induction l as [|x l IH]; simpl; [done|]. by rewrite map_app, IH.
Qed.

Lemma flat_map_nil {A B : Type} (l : list A) :
  flat_map (fun _ : A => @nil B) l = [].
Proof. by induction l. Qed.

Lemma picked_pairs (a : Qc) (r : sparse_row) (j : nat) :
  flat_map (fun jb : nat * Qc =>
              if Nat.eqb (fst jb) j then [(a, snd jb)] else []) r
  = map (fun v : Qc => (a, v)) (values_at r j).
Proof.
  unfold values_at. induction r as [|[c v] r IH]; simpl; [done|].
  destruct (Nat.eqb c j); simpl; by rewrite IH.
Qed.

Lemma factors_values (ra : sparse_row) (B : csr_matrix) (j : nat) :
  factors ra B j
  = flat_map (fun ka : nat * Qc =>
                map (fun v : Qc => (snd ka, v))
                    (values_at (csr_row B (fst ka)) j)) ra.
Proof.
  unfold factors. apply flat_map_ext_in, Forall_forall. intros ka _.
  apply picked_pairs.
Qed.

Lemma values_at_app (r1 r2 : sparse_row) (k : nat) :
  values_at (r1 ++ r2) k = values_at r1 k ++ values_at r2 k.
Proof. unfold values_at. apply flat_map_app. Qed.

Lemma values_at_cons (c : nat) (v : Qc) (r : sparse_row) (k : nat) :
  values_at ((c, v) :: r) k
  = (if Nat.eqb c k then [v] else []) ++ values_at r k.
Proof. reflexivity. Qed.

Lemma values_at_pick (s k j : nat) (r : sparse_row) :
  values_at (flat_map (fun cv : nat * Qc =>
                         if Nat.eqb (fst cv) k then [(s, snd cv)] else []) r) j
  = if Nat.eqb s j then values_at r k else [].
Proof.
  induction r as [|[c v] r IH]; [by destruct (Nat.eqb s j)|].
  cbn [flat_map fst snd]. rewrite values_at_app, IH, values_at_cons.
  destruct (Nat.eqb c k); destruct (Nat.eqb s j) eqn:Hsj; try done.
  - by rewrite values_at_cons, Hsj.
  - by rewrite values_at_cons, Hsj.
Qed.

Lemma values_at_transpose_from (s : nat) (rs : list sparse_row) (k j : nat) :
  values_at (flat_map (fun ir : nat * sparse_row =>
                         flat_map (fun cv : nat * Qc =>
                                     if Nat.eqb (fst cv) k
                                     then [(fst ir, snd cv)] else [])
                                  (snd ir))
                      (zip (seq s (length rs)) rs)) j
  = if decide (s <= j < s + length rs) then values_at (nth (j - s) rs []) k
    else [].
Proof.
  revert s. induction rs as [|r rs IH]; intros s;
    cbn [length seq zip_with flat_map fst snd].
  - destruct (decide (s <= j < s + 0)); [lia|done].
  - rewrite values_at_app, values_at_pick, IH.
    destruct (Nat.eqb_spec s j) as [->|Hne].
    + destruct (decide (S j <= j < S j + length rs)); [lia|].
      destruct (decide (j <= j < j + S (length rs))); [|lia].
      rewrite Nat.sub_diag. by rewrite app_nil_r.
    + destruct (decide (S s <= j < S s + length rs)).
      * destruct (decide (s <= j < s + S (length rs))); [|lia].
        by replace (j - s) with (S (j - S s)) by lia.
      * destruct (decide (s <= j < s + S (length rs))); [lia|done].
Qed.

Lemma values_at_transpose (M : csr_matrix) (k j : nat) :
  k < ncols M -> j < nrows M ->
  values_at (csr_row (transpose M) k) j = values_at (csr_row M j) k.
Proof.
  intros Hk Hj. unfold transpose. rewrite csr_row_of_rows, nth_map_seq by done.
  unfold transpose_row. rewrite values_at_transpose_from.
  rewrite csr_rows_length, decide_True by lia.
  by rewrite Nat.sub_0_r, csr_rows_nth.
Qed.

Lemma strictly_increasing_cons (c : nat) (l : list nat) :
  strictly_increasing (c :: l) = true ->
  Forall (fun c' => c < c') l /\ strictly_increasing l = true.
Proof.
  revert c. induction l as [|b l IH]; intros c H; [by split|].
  simpl in H. apply andb_prop in H as [Hcb Hl]. apply Nat.ltb_lt in Hcb.
  split; [|done]. constructor; [done|].
  destruct (IH b Hl) as [Hb _].
  eapply Forall_impl; [exact Hb|]. intros c' Hc'. simpl in Hc'. lia.
Qed.

Lemma row_increasing_cons (c : nat) (v : Qc) (t : sparse_row) :
  strictly_increasing (map fst ((c, v) :: t)) = true ->
  Forall (fun cv : nat * Qc => c < fst cv) t
  /\ strictly_increasing (map fst t) = true.
Proof.
  intros H. simpl in H. apply strictly_increasing_cons in H as [Hgt Hs].
  split; [|done]. by apply (proj1 (Forall_fmap _ _ _)) in Hgt.
Qed.

Lemma values_at_none (r : sparse_row) (k : nat) :
  Forall (fun cv : nat * Qc => fst cv <> k) r -> values_at r k = [].
Proof.
  unfold values_at. induction 1 as [|[c v] r Hc _ IH]; simpl; [done|].
  simpl in Hc. by destruct (Nat.eqb_spec c k).
Qed.

Lemma values_at_le_1 (r : sparse_row) (k : nat) :
  strictly_increasing (map fst r) = true -> length (values_at r k) <= 1.
Proof.
  induction r as [|[c v] r IH]; intros Hs; [simpl; lia|].
  apply row_increasing_cons in Hs as [Hgt Hs].
  rewrite values_at_cons.
  destruct (Nat.eqb_spec c k) as [->|Hne]; [|by apply IH].
  rewrite values_at_none; [simpl; lia|].
  eapply Forall_impl; [exact Hgt|].
  intros [c' v'] H. simpl in *. lia.
Qed.

(** A row with strictly increasing columns is run through by column. *)
Lemma by_column {X : Type} (G : nat -> Qc -> list X) (r : sparse_row)
    (s n : nat) :
  strictly_increasing (map fst r) = true ->
  Forall (fun cv : nat * Qc => s <= fst cv < s + n) r ->
  flat_map (fun cv : nat * Qc => G (fst cv) (snd cv)) r
  = flat_map (fun k => flat_map (G k) (values_at r k)) (seq s n).
Proof.
  revert s r. induction n as [|n IH]; intros s r Hs Hr.
  - destruct r as [|cv r]; [done|].
    apply Forall_cons in Hr as [Hcv _]. lia.
  - destruct r as [|[c v] t]; cbn [seq flat_map fst snd].
    + change (values_at [] s) with (@nil Qc). simpl.
      symmetry. apply flat_map_nil.
    + pose proof Hs as Hs0.
      apply row_increasing_cons in Hs as [Hgt Hs].
      apply Forall_cons in Hr as [Hc Hr]. simpl in Hc.
      destruct (decide (c = s)) as [->|Hne].
      * assert (Forall (fun cv : nat * Qc => S s <= fst cv < S s + n) t)
          as Ht.
        { rewrite Forall_forall in Hgt, Hr. apply Forall_forall.
          intros cv Hcv. specialize (Hgt cv Hcv). specialize (Hr cv Hcv).
          simpl in *. lia. }
        rewrite values_at_cons, Nat.eqb_refl, values_at_none.
        2:{ eapply Forall_impl; [exact Ht|]. intros cv H. simpl in H. lia. }
        cbn [flat_map app]. rewrite app_nil_r. f_equal.
        rewrite (IH (S s) t Hs Ht).
        apply flat_map_ext_in, Forall_forall. intros k Hk.
        apply elem_of_seq in Hk.
        rewrite values_at_cons.
        destruct (Nat.eqb_spec s k); [lia|done].
      * assert (Forall (fun cv : nat * Qc => S s <= fst cv < S s + n)
                       ((c, v) :: t)) as Ht.
        { constructor; [simpl; lia|].
          rewrite Forall_forall in Hgt, Hr. apply Forall_forall.
          intros cv Hcv. specialize (Hgt cv Hcv). specialize (Hr cv Hcv).
          simpl in *. lia. }
        rewrite values_at_none.
        2:{ eapply Forall_impl; [exact Ht|]. intros cv H. simpl in H. lia. }
        cbn [flat_map app]. by apply (IH (S s) ((c, v) :: t)).
Qed.

Lemma pairs_of_swap (xs ys : list Qc) :
  length xs <= 1 -> length ys <= 1 ->
  pairs_of ys xs = map swap (pairs_of xs ys).
Proof.
  destruct xs as [|a [|a' xs]], ys as [|v [|v' ys]]; simpl; intros; (done || lia).
Qed.

Lemma foldl_swap (madd : Qc -> Qc -> Qc -> Qc) (s : Qc) (l : list (Qc * Qc)) :
  (forall s a b, madd s a b = madd s b a) ->
  foldl (fun (s : Qc) (p : Qc * Qc) => madd s (fst p) (snd p)) s (map swap l)
  = foldl (fun (s : Qc) (p : Qc * Qc) => madd s (fst p) (snd p)) s l.
Proof.
  intros Hc. revert s. induction l as [|[a b] l IH]; intros s; simpl; [done|].
  by rewrite IH, Hc.
Qed.

Lemma canonical_row (M : csr_matrix) (i : nat) :
  has_canonical_format M = true -> i < nrows M ->
  strictly_increasing (map fst (csr_row M i)) = true.
Proof.
  unfold has_canonical_format. rewrite forallb_forall. intros H Hi.
  apply (H (csr_row M i)). unfold csr_rows. apply in_map, in_seq. lia.
Qed.

(** The factors of a user-user entry, column by column. *)
Lemma factors_users (ub_graph : csr_matrix) (i j : nat) :
  cols_in_range ub_graph -> has_canonical_format ub_graph = true ->
  i < nrows ub_graph -> j < nrows ub_graph ->
  factors (csr_row ub_graph i) (transpose ub_graph) j
  = flat_map (fun k => pairs_of (values_at (csr_row ub_graph i) k)
                                (values_at (csr_row ub_graph j) k))
             (seq 0 (ncols ub_graph)).
Proof.
  intros Hin Hcan Hi Hj. rewrite factors_values.
  rewrite (by_column
             (fun k a => map (fun v : Qc => (a, v))
                             (values_at (csr_row (transpose ub_graph) k) j))
             (csr_row ub_graph i) 0 (ncols ub_graph)).
  - apply flat_map_ext_in, Forall_forall. intros k Hk.
    apply elem_of_seq in Hk. by rewrite values_at_transpose by lia.
  - by apply canonical_row.
  - eapply Forall_impl; [apply (cols_in_range_row _ i Hin Hi)|].
    intros cv H. simpl in *. lia.
Qed.

Lemma zip_seq_nth (rs : list sparse_row) :
  zip (seq 0 (length rs)) rs
  = map (fun k => (k, nth k rs [])) (seq 0 (length rs)).
Proof.
  apply list_eq. intros i. rewrite lookup_zip_with, list_lookup_fmap.
  destruct (decide (i < length rs)) as [Hi|Hi].
  - rewrite lookup_seq_lt by done. simpl.
    destruct (rs !! i) as [r|] eqn:Hr.
    + simpl. by rewrite (nth_lookup_Some _ _ _ _ Hr).
    + apply lookup_ge_None in Hr. lia.
  - rewrite lookup_seq_ge by lia. done.
Qed.

Lemma flat_map_map {A B C : Type} (f : B -> list C) (g : A -> B) (l : list A) :
  flat_map f (map g l) = flat_map (fun x => f (g x)) l.
Proof. induction l as [|x l IH]; simpl; [done|]. by rewrite IH. Qed.

Lemma pairs_of_values (r : sparse_row) (i : nat) (ys : list Qc) :
  pairs_of (values_at r i) ys
  = flat_map (fun cv : nat * Qc =>
                if Nat.eqb (fst cv) i
                then map (fun v : Qc => (snd cv, v)) ys else []) r.
Proof.
  unfold pairs_of, values_at. rewrite flat_map_flat_map.
  apply flat_map_ext_in, Forall_forall. intros [c v] _. cbn [fst snd].
  destruct (Nat.eqb c i); [|done]. cbn [flat_map]. by rewrite app_nil_r.
Qed.

(** The factors of a bundle-bundle entry, user by user. *)
Lemma factors_bundles (ub_graph : csr_matrix) (i j : nat) :
  i < ncols ub_graph -> j < ncols ub_graph ->
  factors (csr_row (transpose ub_graph) i) ub_graph j
  = flat_map (fun k => pairs_of (values_at (csr_row ub_graph k) i)
                                (values_at (csr_row ub_graph k) j))
             (seq 0 (nrows ub_graph)).
Proof.
  intros Hi Hj. unfold transpose at 1.
  rewrite csr_row_of_rows, nth_map_seq by done.
  unfold transpose_row. rewrite zip_seq_nth, csr_rows_length.
  rewrite flat_map_map. cbn [fst snd].
  unfold factors at 1. rewrite flat_map_flat_map.
  apply flat_map_ext_in, Forall_forall. intros k Hk.
  apply elem_of_seq in Hk. rewrite csr_rows_nth by lia.
  rewrite flat_map_flat_map, pairs_of_values.
  apply flat_map_ext_in, Forall_forall. intros [c v] _. cbn [fst snd].
  destruct (Nat.eqb c i); [|done]. cbn [flat_map fst snd].
  rewrite app_nil_r. apply picked_pairs.
Qed.

Lemma int64_madd_comm (s a b : Qc) : int64_madd s a b = int64_madd s b a.
Proof. unfold int64_madd. by rewrite (Qcmult_comm a b). Qed.

(** X20: for a relation in canonical format and a dtype whose products do
    not depend on the order of the two factors, both similarity relations
    are symmetric matrices: the two sums of a pair of entries take the same
    steps in the same order. *)
Theorem similarity_symmetric_dtype (madd : Qc -> Qc -> Qc -> Qc)
    (ub_graph : csr_matrix) (threshold : Qc) :
  (forall s a b, madd s a b = madd s b a) ->
  csr_wf ub_graph = true ->
  has_canonical_format ub_graph = true ->
  exists uu0 bb0 uu bb,
    matmul_dtype madd ub_graph (transpose ub_graph) = Ok uu0
    /\ similarity threshold (nrows ub_graph) uu0 = Ok uu
    /\ matmul_dtype madd (transpose ub_graph) ub_graph = Ok bb0
    /\ similarity threshold (ncols ub_graph) bb0 = Ok bb
    /\ (forall i j, i < nrows ub_graph -> j < nrows ub_graph ->
          get uu0 i j = get uu0 j i /\ get uu i j = get uu j i)
    /\ (forall i j, i < ncols ub_graph -> j < ncols ub_graph ->
          get bb0 i j = get bb0 j i /\ get bb i j = get bb j i).
Proof.
  intros Hc Hwf Hcan. pose proof (csr_wf_in_range _ Hwf) as Hin.
  destruct (mix_Hypergraph_inner madd ub_graph threshold)
    as (uu0 & bb0 & uu & bb & col1 & col2 & H_ub & Huu0 & Huu & Hbb0 & Hbb & _).
  exists uu0, bb0, uu, bb. do 4 (split; [done|]).
  assert (forall i j, i < nrows ub_graph -> j < nrows ub_graph ->
            get uu0 i j = get uu0 j i) as Hu.
  { intros i j Hi Hj.
    rewrite !(matmul_dtype_get _ _ _ _ _ _ Huu0) by done.
    rewrite !row_times_dtype_factors.
    rewrite (factors_users _ i j), (factors_users _ j i) by done.
    rewrite <- (foldl_swap madd _ _ Hc). f_equal.
    rewrite map_flat_map. apply flat_map_ext_in, Forall_forall. intros k _.
    symmetry. apply pairs_of_swap; apply values_at_le_1;
      by apply canonical_row. }
  assert (forall i j, i < ncols ub_graph -> j < ncols ub_graph ->
            get bb0 i j = get bb0 j i) as Hb.
  { intros i j Hi Hj.
    rewrite !(matmul_dtype_get _ _ _ _ _ _ Hbb0) by done.
    rewrite !row_times_dtype_factors.
    rewrite (factors_bundles _ i j), (factors_bundles _ j i) by done.
    rewrite <- (foldl_swap madd _ _ Hc). f_equal.
    rewrite map_flat_map. apply flat_map_ext_in, Forall_forall. intros k Hk.
    apply elem_of_seq in Hk.
    symmetry. apply pairs_of_swap; apply values_at_le_1;
      apply canonical_row; (done || lia). }
  split.
  - intros i j Hi Hj. split; [by apply Hu|].
    rewrite (similarity_get _ _ _ _ _ _ i j Huu0 Huu) by done.
    rewrite (similarity_get _ _ _ _ _ _ j i Huu0 Huu) by done.
    by rewrite (Hu i j).
  - intros i j Hi Hj. split; [by apply Hb|].
    rewrite (similarity_get _ _ _ _ _ _ i j Hbb0 Hbb) by done.
    rewrite (similarity_get _ _ _ _ _ _ j i Hbb0 Hbb) by done.
    by rewrite (Hb i j).
Qed.

(** ** The further properties at concrete inputs *)

Lemma predict_dot_products_witness :
  exists pred,
    SCHBR.predict built_zero users_1x2x2 bundles_1x2x2 = Ok pred
    /\ tshape pred = (1, 2).
Proof.
  destruct (predict_dot_products built_zero users_1x2x2 bundles_1x2x2 1 2 2)
    as (pred & Hp & Sp & _).
  - split; [reflexivity|]. repeat constructor.
  - split; [reflexivity|]. repeat constructor.
  - reflexivity.
  - reflexivity.
  - exists pred. split; [exact Hp|exact Sp].
Defined.

Lemma forward_pred_entries_witness :
  exists pred bound loss,
    SCHBR.forward built_zero keep_all users_0 bundles_0 = Ok (pred, bound, loss)
    /\ tshape pred = (1, 1).
Proof.
  destruct (forward_pred_entries built_zero keep_all users_0 bundles_0
              half_users half_bundles 1 1 1 propagate_built_zero)
    as (pred & bound & loss & Hf & Sp & _).
  - split; [reflexivity|]. repeat constructor.
  - split; [reflexivity|]. repeat constructor.
  - reflexivity.
  - reflexivity.
  - reflexivity.
  - split; [reflexivity|]. repeat constructor.
  - reflexivity.
  - split; [reflexivity|]. repeat constructor.
  - reflexivity.
  - repeat constructor; simpl; lia.
  - repeat constructor; simpl; lia.
  - exists pred, bound, loss. split; [exact Hf|exact Sp].
Defined.

Lemma forward_bound_entries_witness :
  exists pred bound loss,
    SCHBR.forward built_zero keep_all users_0 bundles_0 = Ok (pred, bound, loss)
    /\ tshape3 bound = (1, 1, 1).
Proof.
  destruct (forward_bound_entries built_zero keep_all users_0 bundles_0
              half_users half_bundles 1 1 1 propagate_built_zero)
    as (pred & bound & loss & Hf & Sb & _).
  - split; [reflexivity|]. repeat constructor.
  - split; [reflexivity|]. repeat constructor.
  - reflexivity.
  - reflexivity.
  - reflexivity.
  - split; [reflexivity|]. repeat constructor.
  - reflexivity.
  - split; [reflexivity|]. repeat constructor.
  - reflexivity.
  - repeat constructor; simpl; lia.
  - repeat constructor; simpl; lia.
  - exists pred, bound, loss. split; [exact Hf|exact Sb].
Defined.

Lemma forward_expand_error_witness :
  SCHBR.forward built_zero keep_all users_wide bundles_0 = Raise RuntimeError.
Proof.
  apply (forward_expand_error built_zero keep_all users_wide bundles_0
           half_users half_bundles propagate_built_zero).
  - repeat constructor; simpl; lia.
  - simpl. lia.
  - simpl. lia.
Defined.

Lemma evaluate_negative_indices_witness :
  exists scores,
    SCHBR.evaluate built_zero (half_users, half_bundles) [-1; 0]%Z = Ok scores
    /\ tshape scores = (2, 1).
Proof.
  destruct (evaluate_negative_indices built_zero half_users half_bundles
              [-1; 0]%Z 2 1 1) as (scores & Hs & Ss & _).
  - split; [reflexivity|]. repeat constructor.
  - reflexivity.
  - split; [reflexivity|]. repeat constructor.
  - reflexivity.
  - repeat constructor; lia.
  - exists scores. split; [exact Hs|exact Ss].
Defined.

Lemma evaluate_index_error_witness :
  SCHBR.evaluate built_zero (half_users, half_bundles) [0; 2]%Z
  = Raise IndexError.
Proof.
  apply (evaluate_index_error built_zero half_users half_bundles [0; 2]%Z).
  apply Exists_cons_tl, Exists_cons_hd. right. simpl. lia.
Defined.

Lemma forward_agrees_with_evaluate_witness :
  exists pred bound loss scores,
    SCHBR.forward built_zero keep_all users_0 bundles_0 = Ok (pred, bound, loss)
    /\ SCHBR.evaluate built_zero (half_users, half_bundles) [0%Z] = Ok scores
    /\ tget pred 0 0 = tget scores 0 0.
Proof.
  destruct (forward_agrees_with_evaluate built_zero keep_all users_0 bundles_0
              half_users half_bundles 1 1 2 1 1 propagate_built_zero)
    as (pred & bound & loss & scores & Hf & He & Hagree).
  - split; [reflexivity|]. repeat constructor.
  - split; [reflexivity|]. repeat constructor.
  - reflexivity.
  - reflexivity.
  - reflexivity.
  - split; [reflexivity|]. repeat constructor.
  - reflexivity.
  - split; [reflexivity|]. repeat constructor.
  - reflexivity.
  - repeat constructor; simpl; lia.
  - repeat constructor; simpl; lia.
  - exists pred, bound, loss, scores. split; [exact Hf|]. split; [exact He|].
    apply (Hagree 0 0); lia.
Defined.

Lemma propagate_on_built_model_witness :
  exists UF BF,
    SCHBR.propagate built_zero keep_all = Ok (UF, BF)
    /\ tshape UF = (2, 1) /\ tshape BF = (1, 1).
Proof.
  destruct (propagate_on_built_model exact_madd sqrt_approx draws
              ui_zero bi_zero ub_zero
              "cpu" 0%Qc 1%Qc (Some 1) built_zero keep_all)
    as (UF & BF & Hp & SU & SB & _).
  - vm_compute; reflexivity.
  - exists UF, BF. split; [exact Hp|]. split; [exact SU|exact SB].
Defined.

Lemma forward_on_built_model_witness :
  exists pred bound loss,
    SCHBR.forward built_zero keep_all users_0 bundles_0 = Ok (pred, bound, loss)
    /\ tshape pred = (1, 1)
    /\ tshape3 bound = (1, 1, 1).
Proof.
  apply (forward_on_built_model exact_madd sqrt_approx draws
           ui_zero bi_zero ub_zero "cpu" 0%Qc 1%Qc (Some 1) built_zero
           keep_all users_0 bundles_0 1 1).
  - vm_compute; reflexivity.
  - split; [reflexivity|]. repeat constructor.
  - reflexivity.
  - split; [reflexivity|]. repeat constructor.
  - reflexivity.
  - repeat constructor; simpl; lia.
  - repeat constructor; simpl; lia.
Defined.


Lemma similarity_entries_witness :
  exists uu0 uu,
    matmul_dtype int64_madd ub_2x2 (transpose ub_2x2) = Ok uu0
    /\ similarity (Q2Qc 10) (nrows ub_2x2) uu0 = Ok uu
    /\ get uu 0 0 = 0%Qc /\ get uu 1 1 = 1%Qc.
Proof.
  destruct (similarity_entries int64_madd ub_2x2 (Q2Qc 10) (2 ^ 63 - 1))
    as (uu0 & bb0 & uu & bb & H1 & H2 & _ & _ & Hu & _).
  - reflexivity.
  - vm_compute. discriminate.
  - assert (data ub_2x2 = [qz 2; qz 20]) as ->
      by (vm_compute; repeat f_equal; by apply Qc_is_canon).
    constructor; [exists 2%Z; split; [lia|reflexivity]|].
    constructor; [exists 20%Z; split; [lia|reflexivity]|constructor].
  - apply int64_exact.
  - exists uu0, uu. split; [exact H1|]. split; [exact H2|]. split.
    + rewrite (Hu 0 0); [reflexivity|vm_compute; lia|vm_compute; lia|].
      vm_compute. discriminate.
    + rewrite (Hu 1 1); [reflexivity|vm_compute; lia|vm_compute; lia|].
      vm_compute. discriminate.
Defined.

Lemma similarity_symmetric_witness :
  exists uu0 uu,
    matmul_dtype exact_madd ub_2x2 (transpose ub_2x2) = Ok uu0
    /\ similarity (Q2Qc 10) (nrows ub_2x2) uu0 = Ok uu
    /\ get uu 0 1 = get uu 1 0.
Proof.
  destruct (similarity_symmetric ub_2x2 (Q2Qc 10))
    as (uu0 & bb0 & uu & bb & H1 & H2 & _ & _ & Hsym & _).
  - reflexivity.
  - exists uu0, uu. split; [exact H1|]. split; [exact H2|].
    apply Hsym; vm_compute; lia.
Defined.

Lemma similarity_monotone_witness :
  exists uu0 uu1 uu2,
    matmul_dtype int64_madd ub_2x2 (transpose ub_2x2) = Ok uu0
    /\ similarity (Q2Qc 1) (nrows ub_2x2) uu0 = Ok uu1
    /\ similarity (Q2Qc 10) (nrows ub_2x2) uu0 = Ok uu2
    /\ indices uu1 = indices uu2.
Proof.
  destruct (similarity_monotone int64_madd ub_2x2 (Q2Qc 1) (Q2Qc 10))
    as (uu0 & bb0 & uu1 & uu2 & bb1 & bb2 & H0 & _ & H1 & H2 & _ & _ & Hi & _).
  - vm_compute. discriminate.
  - exists uu0, uu1, uu2. split; [exact H0|]. split; [exact H1|].
    split; [exact H2|exact Hi].
Defined.

Lemma normalized_operator_symmetric_witness :
  exists N,
    normalize_HyperGraph sqrt_approx operator_3x3 = Ok N
    /\ get N 0 2 = get N 2 0.
Proof.
  destruct (normalize_HyperGraph_chain sqrt_approx operator_3x3)
    as (m1 & m2 & m3 & N & _ & _ & _ & _ & _ & _ & _ & _ & HN).
  exists N. split; [exact HN|].
  apply (normalized_operator_symmetric sqrt_approx operator_3x3 N).
  - reflexivity.
  - exact HN.
  - vm_compute; lia.
  - vm_compute; lia.
Defined.




Lemma similarity_symmetric_dtype_witness :
  exists uu0 uu,
    matmul_dtype int64_madd ub_shared (transpose ub_shared) = Ok uu0
    /\ similarity (Q2Qc 10) (nrows ub_shared) uu0 = Ok uu
    /\ get uu0 0 1 = get uu0 1 0
    /\ get uu 0 1 = get uu 1 0.
Proof.
  destruct (similarity_symmetric_dtype int64_madd ub_shared (Q2Qc 10))
    as (uu0 & bb0 & uu & bb & H1 & H2 & _ & _ & Hsym & _).
  - apply int64_madd_comm.
  - reflexivity.
  - reflexivity.
  - exists uu0, uu. split; [exact H1|]. split; [exact H2|].
    apply Hsym; vm_compute; lia.
Defined.
